(** * starry: the surface map class ([starry2/maps.h])

    A shallow embedding of [maps::Map<T, U>] and a verification of the
    properties its specification states about it.

    The class is a template over its scalar type.  The embedding follows
    that: the scalar operations the header uses are the methods of two type
    classes, [Scalar] (the built-in arithmetic of C++) and [Cmath] (what
    comes from [<cmath>]), and the map is generic in them.  Two instances
    are given: IEEE binary64 ([double], through the primitive floats) and
    the real numbers (exact arithmetic).  The two scalar parameters [T]
    (internal) and [U] (interface) are taken equal, as in [Map<double,
    double>], so the casts [T(.)] and [U(.)] are the identity; what the
    multiprecision specialisation changes, the gradient entry point that
    throws, is kept as the flag [s_is_Multi] of the scalar type.

    [int] values are in [Z].  A method either returns, throws with the
    object left in the state of the moment of the throw, or reaches an
    access that C++ leaves undefined (an index past the end of an Eigen
    vector).  The accesses to [y] through an index that comes from the
    caller are modelled with their bounds; the loops over the internal
    buffers, which all have [N] entries, are written with the total
    operations on lists. *)

From Stdlib Require Import ZArith Lia List Bool String Floats Reals Lra.
From stdpp Require Import base tactics option list numbers pretty.

Set Implicit Arguments.
Set Default Proof Using "Type".

Local Open Scope Z_scope.

(** ** Scalars *)

(** The arithmetic of the template parameter [T]: literals converted from
    [int], the four operations, [sqrt], and the comparisons [==] and [<]
    ([a > b] is [s_ltb b a]); [s_is_Multi] tells whether [T] is the
    multiprecision type [Multi], for which [maps.h] specialises a method. *)
Class Scalar (T : Type) := {
  s_is_Multi : bool;
  s_of_Z : Z -> T;
  s_add : T -> T -> T;
  s_sub : T -> T -> T;
  s_mul : T -> T -> T;
  s_div : T -> T -> T;
  s_sqrt : T -> T;
  s_eqb : T -> T -> bool;
  s_ltb : T -> T -> bool
}.

(** What the header takes from [<cmath>] and from the constants of
    [utils.h]: [pow] with an [int] exponent, [cos], [sin], the macro [NAN]
    and [pi<T>()]. *)
Class Cmath (T : Type) := {
  c_pow : T -> Z -> T;
  c_cos : T -> T;
  c_sin : T -> T;
  c_NAN : T;
  c_pi : T
}.

Definition s_zero {T} `{Scalar T} : T := s_of_Z 0.
Definition s_one {T} `{Scalar T} : T := s_of_Z 1.

(** [a != b] *)
Definition s_neqb {T} `{Scalar T} (a b : T) : bool := negb (s_eqb a b).

(** [a > b] *)
Definition s_gtb {T} `{Scalar T} (a b : T) : bool := s_ltb b a.

(** ** Constants of [utils.h] *)

Definition STARRY_MAX_LMAX : Z := 50.

(** The range of a C++ [int]. *)
Definition INT_MIN : Z := - 2 ^ 31.
Definition INT_MAX : Z := 2 ^ 31 - 1.
Definition is_int (z : Z) : bool := (INT_MIN <=? z) && (z <=? INT_MAX).

(** ** Vectors and matrices *)

Section LinearAlgebra.
Context {T : Type} `{Scalar T}.

(** [Vector<T>] and [VectorT<T>]: Eigen vectors of dynamic size. *)
Definition Vector := list T.

(** A matrix, as the list of its rows. *)
Definition Matrix := list (list T).

(** [UnitVector<T>]: a fixed-size vector of three scalars. *)
Record UnitVector := mkUnit { ux : T; uy : T; uz : T }.

(** [Vector<T>::Zero(n)] *)
Definition Zero (n : Z) : Vector := replicate (Z.to_nat n) s_zero.

(** [v(n)] read: undefined outside [0, size). *)
Definition vec_get (v : Vector) (n : Z) : option T :=
  if (0 <=? n) && (n <? Z.of_nat (length v)) then v !! Z.to_nat n else None.

(** [v(n) = x]: undefined outside [0, size). *)
Definition vec_set (v : Vector) (n : Z) (x : T) : option Vector :=
  if (0 <=? n) && (n <? Z.of_nat (length v))
  then Some (<[Z.to_nat n := x]> v) else None.

(** [a.dot(b)] *)
Definition dot (a b : Vector) : T :=
  fold_left s_add (zip_with s_mul a b) s_zero.

(** [A * v], a matrix times a column vector. *)
Definition mat_vec (A : Matrix) (v : Vector) : Vector :=
  map (fun row => dot row v) A.

(** The columns of a matrix of [n] columns. *)
Definition columns (n : nat) (A : Matrix) : Matrix :=
  map (fun j => map (fun row => default s_zero (row !! j)) A) (seq 0 n).

(** [v * A], a row vector times a matrix of [n] columns. *)
Definition vec_mat (n : nat) (v : Vector) (A : Matrix) : Vector :=
  map (fun col => dot v col) (columns n A).

(** [v.segment(start, len)] *)
Definition segment (v : Vector) (start len : Z) : Vector :=
  take (Z.to_nat len) (drop (Z.to_nat start) v).

(** [v.segment(start, len) = w], where [w] has [len] entries. *)
Definition set_segment (v : Vector) (start : Z) (w : Vector) : Vector :=
  take (Z.to_nat start) v ++ w ++ drop (Z.to_nat start + length w) v.

(** [yhat<T>()]: the cast of [yhat_double = (0, 1, 0)]. *)
Definition yhat : UnitVector := mkUnit s_zero s_one s_zero.

(** [vec / c] on a [UnitVector]. *)
Definition unit_div (v : UnitVector) (c : T) : UnitVector :=
  mkUnit (s_div (ux v) c) (s_div (uy v) c) (s_div (uz v) c).

(** [norm_unit] of [utils.h]. *)
Definition norm_unit (vec : UnitVector) : UnitVector :=
  unit_div vec
    (s_sqrt (s_add (s_add (s_mul (ux vec) (ux vec))
                          (s_mul (uy vec) (uy vec)))
                   (s_mul (uz vec) (uz vec)))).
End LinearAlgebra.

Arguments Vector : clear implicits.
Arguments Matrix : clear implicits.
Arguments UnitVector : clear implicits.

(** ** Errors and outcomes *)

(** The exceptions of [errors.h] the map throws, with their messages. *)
Inductive error : Type :=
  | ValueError (msg : string)
  | IndexError (msg : string)
  | NotImplementedError (msg : string).

(** The outcome of a method on an object of state [S]. *)
Inductive result (S A : Type) : Type :=
  | Return (a : A) (s : S)
  | Throw (e : error) (s : S)
  | Undefined.

Arguments Return {S A} a s.
Arguments Throw {S A} e s.
Arguments Undefined {S A}.

Definition is_IndexError (e : error) : bool :=
  match e with IndexError _ => true | _ => false end.

Definition is_ValueError (e : error) : bool :=
  match e with ValueError _ => true | _ => false end.

(** The state a method leaves behind, when it leaves one. *)
Definition final_state {S A} (r : result S A) : option S :=
  match r with
  | Return _ s => Some s
  | Throw _ s => Some s
  | Undefined => None
  end.

Definition throws_IndexError {S A} (r : result S A) : bool :=
  match r with Throw e _ => is_IndexError e | _ => false end.

(** ** The collaborators of the map: [basis.h] and [rotation.h] *)

Module basis.
Section Basis.
Context {T : Type}.

(** [basis::Basis<T>]: the change-of-basis matrices of a degree bound.
    [A1] takes spherical-harmonic coefficients to polynomial ones, [A]
    to the Green's basis, and [rT] is the rotation solution vector. *)
Record Basis := mkBasis {
  A1 : Matrix T;
  A : Matrix T;
  rT : Vector T
}.
End Basis.
Arguments Basis : clear implicits.

(** The constructor [Basis<T>(lmax)] lives in [basis.h]; it either
    builds the matrices or throws.  It is a parameter of the map. *)
Class Lib (T : Type) := {
  Basis_new : Z -> error + Basis T
}.

(** Modelled from the spec: the matrices [A1] and [A] of a degree bound
    [lmax] are square, of size [N = (lmax + 1)^2] (what [basis.h]
    computes is outside this development). *)
Definition shape_ok {T} `{Lib T} : Prop :=
  forall (lmax : Z) (b : Basis T),
    Basis_new lmax = inr b ->
    Z.of_nat (length (A1 b)) = (lmax + 1) * (lmax + 1) /\
    Z.of_nat (length (A b)) = (lmax + 1) * (lmax + 1).
End basis.

Module rotation.
Section Wigner.
Context {T : Type}.

(** [rotation::Wigner<T>]: the rotation blocks [R[l]] and their
    derivatives [dRdtheta[l]] for the current angle. *)
Record Wigner := mkWigner {
  R : list (Matrix T);
  dRdtheta : list (Matrix T)
}.
End Wigner.
Arguments Wigner : clear implicits.

(** The methods of [Wigner<T>] the map calls and [rotation.h] defines:
    the constructor, [update()] (the axis changed) and
    [compute(costheta, sintheta)] (fill [R] and [dRdtheta] for an
    angle).  The object holds references to the map's degree bound and
    axis; they are passed here. *)
Class Lib (T : Type) := {
  Wigner_new : Z -> error + Wigner T;
  update : Z -> UnitVector T -> Wigner T -> Wigner T;
  compute : Z -> UnitVector T -> T -> T -> Wigner T -> Wigner T
}.

(** Modelled from the spec: after [compute], the block [R[l]] of every
    degree [l] in [0, lmax] is a matrix of [2l + 1] rows. *)
Definition shape_ok {T} `{Lib T} : Prop :=
  forall (lmax : Z) (axis : UnitVector T) (c s : T) (w : Wigner T) (l : Z),
    0 <= l <= lmax ->
    exists blk, R (compute lmax axis c s w) !! Z.to_nat l = Some blk /\
                Z.of_nat (length blk) = 2 * l + 1.

Section Rotate.
Context {T : Type} `{Scalar T}.

(** The block of degree [l]; [R[l]] past the end has no rows here. *)
Definition block (blocks : list (Matrix T)) (l : Z) : Matrix T :=
  default [] (blocks !! Z.to_nat l).

(** The loop
    [for l: yout.segment(l*l, 2l+1) = R[l] * y.segment(l*l, 2l+1)]
    of [maps.h], with [yout] a buffer distinct from [y]. *)
Definition rotate_into (blocks : list (Matrix T)) (lmax : Z)
    (y yout : Vector T) : Vector T :=
  fold_left
    (fun out l =>
       set_segment out (l * l)
         (mat_vec (block blocks l) (segment y (l * l) (2 * l + 1))))
    (seqZ 0 (lmax + 1)) yout.

(** The same loop when [yout] is [y] itself: every block reads the
    vector as the blocks before it left it. *)
Definition rotate_inplace (blocks : list (Matrix T)) (lmax : Z)
    (y : Vector T) : Vector T :=
  fold_left
    (fun cur l =>
       set_segment cur (l * l)
         (mat_vec (block blocks l) (segment cur (l * l) (2 * l + 1))))
    (seqZ 0 (lmax + 1)) y.

Context `{Lib T}.

(** Modelled from the spec: [Wigner<T>::rotate(costheta, sintheta,
    yout)] of [rotation.h] computes the blocks for the angle and
    applies the block-diagonal operator to the map's [y], writing
    [yout].  The result is the rotation object and [yout] after the
    call. *)
Definition rotate (lmax : Z) (axis : UnitVector T) (c s : T)
    (w : Wigner T) (y yout : Vector T) : Wigner T * Vector T :=
  let w' := compute lmax axis c s w in
  (w', rotate_into (R w') lmax y yout).

(** Modelled from the spec: the same call when [yout] is the map's
    [y] itself, as [Map::rotate] passes it. *)
Definition rotate_self (lmax : Z) (axis : UnitVector T) (c s : T)
    (w : Wigner T) (y : Vector T) : Wigner T * Vector T :=
  let w' := compute lmax axis c s w in
  (w', rotate_inplace (R w') lmax y).
End Rotate.
End rotation.

(** ** Forward-mode derivatives *)

Module autodiff.
Section ADScalar.
Context {T : Type} `{Scalar T} `{Cmath T}.

(** [ADScalar<T, 2>], Eigen's [AutoDiffScalar] with two derivatives: a
    value and its partial derivatives in the two seeded variables
    (Eigen is a library the program links; its rules are written here
    as Eigen states them). *)
Record ADScalar := mkAD { value : T; d0 : T; d1 : T }.

Definition constant (v : T) : ADScalar := mkAD v s_zero s_zero.

(** The derivatives of [a], scaled by [c]. *)
Definition scale (a : ADScalar) (c : T) : T * T :=
  (s_mul (d0 a) c, s_mul (d1 a) c).

Definition ad_add (a b : ADScalar) : ADScalar :=
  mkAD (s_add (value a) (value b)) (s_add (d0 a) (d0 b))
       (s_add (d1 a) (d1 b)).

Definition ad_sub (a b : ADScalar) : ADScalar :=
  mkAD (s_sub (value a) (value b)) (s_sub (d0 a) (d0 b))
       (s_sub (d1 a) (d1 b)).

Definition ad_mul (a b : ADScalar) : ADScalar :=
  mkAD (s_mul (value a) (value b))
       (s_add (s_mul (d0 a) (value b)) (s_mul (d0 b) (value a)))
       (s_add (s_mul (d1 a) (value b)) (s_mul (d1 b) (value a))).

Definition ad_div (a b : ADScalar) : ADScalar :=
  let c := s_div s_one (s_mul (value b) (value b)) in
  mkAD (s_div (value a) (value b))
       (s_mul (s_sub (s_mul (d0 a) (value b)) (s_mul (d0 b) (value a))) c)
       (s_mul (s_sub (s_mul (d1 a) (value b)) (s_mul (d1 b) (value a))) c).

Definition ad_sqrt (a : ADScalar) : ADScalar :=
  let sqrtx := s_sqrt (value a) in
  let '(e0, e1) := scale a (s_div (s_div s_one (s_of_Z 2)) sqrtx) in
  mkAD sqrtx e0 e1.

Definition ad_pow (a : ADScalar) (k : Z) : ADScalar :=
  let '(e0, e1) := scale a (s_mul (s_of_Z k) (c_pow (value a) (k - 1))) in
  mkAD (c_pow (value a) k) e0 e1.

Definition ad_cos (a : ADScalar) : ADScalar :=
  let '(e0, e1) := scale a (s_sub s_zero (c_sin (value a))) in
  mkAD (c_cos (value a)) e0 e1.

Definition ad_sin (a : ADScalar) : ADScalar :=
  let '(e0, e1) := scale a (c_cos (value a)) in
  mkAD (c_sin (value a)) e0 e1.

#[global] Instance ADScalar_Scalar : Scalar ADScalar := {
  s_is_Multi := s_is_Multi (T := T);
  s_of_Z z := constant (s_of_Z z);
  s_add := ad_add;
  s_sub := ad_sub;
  s_mul := ad_mul;
  s_div := ad_div;
  s_sqrt := ad_sqrt;
  s_eqb a b := s_eqb (value a) (value b);
  s_ltb a b := s_ltb (value a) (value b)
}.

#[global] Instance ADScalar_Cmath : Cmath ADScalar := {
  c_pow := ad_pow;
  c_cos := ad_cos;
  c_sin := ad_sin;
  c_NAN := constant c_NAN;
  c_pi := constant c_pi
}.
End ADScalar.
Arguments ADScalar : clear implicits.
End autodiff.

(** ** The polynomial basis *)

Section PolyBasis.
(** [Map::poly_basis] is a template over the scalar [V] of the point: the
    map calls it at [T] and at [ADScalar<T, 2>]. *)
Context {V : Type} `{Scalar V} `{Cmath V}.

(** The value the loop body gives [basis(n)] for the pair [(l, m)];
    [%] and [/] on [int] truncate towards zero. *)
Definition poly_term (x0 y0 z0 : V) (l m : Z) : V :=
  let mu := l - m in
  let nu := l + m in
  if Z.rem nu 2 =? 0 then
    if (mu >? 0) && (nu >? 0)
    then s_mul (c_pow x0 (Z.quot mu 2)) (c_pow y0 (Z.quot nu 2))
    else if mu >? 0 then c_pow x0 (Z.quot mu 2)
    else if nu >? 0 then c_pow y0 (Z.quot nu 2)
    else s_of_Z 1
  else
    if (mu >? 1) && (nu >? 1)
    then s_mul (s_mul (c_pow x0 (Z.quot (mu - 1) 2))
                      (c_pow y0 (Z.quot (nu - 1) 2))) z0
    else if mu >? 1 then s_mul (c_pow x0 (Z.quot (mu - 1) 2)) z0
    else if nu >? 1 then s_mul (c_pow y0 (Z.quot (nu - 1) 2)) z0
    else z0.

(** [z0 = sqrt(1.0 - x0 * x0 - y0 * y0)] *)
Definition poly_z0 (x0 y0 : V) : V :=
  s_sqrt (s_sub (s_sub (s_of_Z 1) (s_mul x0 x0)) (s_mul y0 y0)).

(** The pairs [(l, m)] in the order the two loops visit them. *)
Definition lm_pairs (lmax : Z) : list (Z * Z) :=
  l ← seqZ 0 (lmax + 1); (fun m => (l, m)) <$> seqZ (- l) (2 * l + 1).

(** One turn of the inner loop: [basis(n) = ...; n++].  The buffer has
    [N] entries and the loops make [N] turns. *)
Definition poly_step (x0 y0 z0 : V) (st : nat * list V) (lm : Z * Z)
    : nat * list V :=
  (S (fst st), <[fst st := poly_term x0 y0 z0 (fst lm) (snd lm)]> (snd st)).

(** [Map::poly_basis(x0, y0, basis)]: the buffer after the call. *)
Definition poly_basis (lmax : Z) (x0 y0 : V) (basis : list V) : list V :=
  snd (fold_left (poly_step x0 y0 (poly_z0 x0 y0)) (lm_pairs lmax)
         (0%nat, basis)).

(** The values of the basis polynomials at a point, in index order. *)
Definition poly_values (lmax : Z) (x0 y0 : V) : list V :=
  (fun lm => poly_term x0 y0 (poly_z0 x0 y0) (fst lm) (snd lm))
    <$> lm_pairs lmax.
End PolyBasis.

(** ** The surface map class *)

Module maps.
Import basis rotation.

(** What [tmp_vec_ptr] points to. *)
Inductive vec_ptr : Type := ptr_unset | ptr_p | ptr_tmp_vec.

Section Map.
Context {T : Type} `{Scalar T} `{Cmath T} `{basis.Lib T} `{rotation.Lib T}.

(** The data members of [Map<T, U>]. *)
Record Map := mkMap {
  lmax : Z;
  N : Z;
  dI : Vector T;
  dI_names : list string;
  dF : Vector T;
  dF_names : list string;
  y : Vector T;
  p : Vector T;
  g : Vector T;
  axis : UnitVector T;
  B : Basis T;
  W : Wigner T;
  Y00_is_unity : bool;
  tmp_vec : Vector T;
  tmp_col_vec : Vector T;
  tmp_vec_ptr : vec_ptr
}.

(** Assignments to one member. *)
Definition set_y (s : Map) (v : Vector T) : Map :=
  mkMap (lmax s) (N s) (dI s) (dI_names s) (dF s) (dF_names s) v (p s)
    (g s) (axis s) (B s) (W s) (Y00_is_unity s) (tmp_vec s)
    (tmp_col_vec s) (tmp_vec_ptr s).

Definition set_p (s : Map) (v : Vector T) : Map :=
  mkMap (lmax s) (N s) (dI s) (dI_names s) (dF s) (dF_names s) (y s) v
    (g s) (axis s) (B s) (W s) (Y00_is_unity s) (tmp_vec s)
    (tmp_col_vec s) (tmp_vec_ptr s).

Definition set_g (s : Map) (v : Vector T) : Map :=
  mkMap (lmax s) (N s) (dI s) (dI_names s) (dF s) (dF_names s) (y s)
    (p s) v (axis s) (B s) (W s) (Y00_is_unity s) (tmp_vec s)
    (tmp_col_vec s) (tmp_vec_ptr s).

Definition set_axis (s : Map) (a : UnitVector T) : Map :=
  mkMap (lmax s) (N s) (dI s) (dI_names s) (dF s) (dF_names s) (y s)
    (p s) (g s) a (B s) (W s) (Y00_is_unity s) (tmp_vec s)
    (tmp_col_vec s) (tmp_vec_ptr s).

Definition set_W (s : Map) (w : Wigner T) : Map :=
  mkMap (lmax s) (N s) (dI s) (dI_names s) (dF s) (dF_names s) (y s)
    (p s) (g s) (axis s) (B s) w (Y00_is_unity s) (tmp_vec s)
    (tmp_col_vec s) (tmp_vec_ptr s).

Definition set_dI (s : Map) (v : Vector T) : Map :=
  mkMap (lmax s) (N s) v (dI_names s) (dF s) (dF_names s) (y s)
    (p s) (g s) (axis s) (B s) (W s) (Y00_is_unity s) (tmp_vec s)
    (tmp_col_vec s) (tmp_vec_ptr s).

Definition set_tmp_vec (s : Map) (v : Vector T) : Map :=
  mkMap (lmax s) (N s) (dI s) (dI_names s) (dF s) (dF_names s) (y s)
    (p s) (g s) (axis s) (B s) (W s) (Y00_is_unity s) v
    (tmp_col_vec s) (tmp_vec_ptr s).

Definition set_tmp_col_vec (s : Map) (v : Vector T) : Map :=
  mkMap (lmax s) (N s) (dI s) (dI_names s) (dF s) (dF_names s) (y s)
    (p s) (g s) (axis s) (B s) (W s) (Y00_is_unity s) (tmp_vec s)
    v (tmp_vec_ptr s).

Definition set_tmp_vec_ptr (s : Map) (q : vec_ptr) : Map :=
  mkMap (lmax s) (N s) (dI s) (dI_names s) (dF s) (dF_names s) (y s)
    (p s) (g s) (axis s) (B s) (W s) (Y00_is_unity s) (tmp_vec s)
    (tmp_col_vec s) q.

(** [*tmp_vec_ptr] *)
Definition deref (s : Map) : Vector T :=
  match tmp_vec_ptr s with
  | ptr_p => p s
  | ptr_tmp_vec => tmp_vec s
  | ptr_unset => []
  end.

(** *** Housekeeping *)

(** [Map::update]: recompute [p] and [g] from [y], then let the
    rotation object update itself. *)
Definition update (s : Map) : Map :=
  let s1 := set_p s (mat_vec (A1 (B s)) (y s)) in
  let s2 := set_g s1 (mat_vec (A (B s1)) (y s1)) in
  set_W s2 (rotation.update (lmax s2) (axis s2) (W s2)).

(** [Map::reset] *)
Definition reset (s : Map) : result Map unit :=
  let s1 := set_y s (Zero (N s)) in
  let r :=
    if Y00_is_unity s1
    then option_map (set_y s1) (vec_set (y s1) 0 s_one)
    else Some s1 in
  match r with
  | Some s2 => Return tt (update (set_axis s2 yhat))
  | None => Undefined
  end.

(** *** I/O *)

Definition msg_Y00 : string :=
  "The Y_{0,0} coefficient is fixed at unity. You probably want to change the body's luminosity instead.".

Definition msg_lm : string := "Invalid value for `l` and/or `m`.".

Definition msg_size : string :=
  "Size mismatch between `inds` and `coeffs`.".

Definition msg_index : string := "Invalid index.".

(** [Map::setCoeff(int l, int m, U coeff)] *)
Definition setCoeff (s : Map) (l m : Z) (coeff : T) : result Map unit :=
  if (l =? 0) && Y00_is_unity s && s_neqb coeff s_one
  then Throw (ValueError msg_Y00) s
  else if (0 <=? l) && (l <=? lmax s) && (- l <=? m) && (m <=? l)
  then
    let n := l * l + l + m in
    match vec_set (y s) n coeff with
    | Some v => Return tt (update (set_y s v))
    | None => Undefined
    end
  else Throw (IndexError msg_lm) s.

(** The loop of the bulk [setCoeff], over the pairs
    [(inds(i), coeffs(i))] still to be treated. *)
Fixpoint setCoeff_loop (s : Map) (ics : list (Z * T)) : result Map unit :=
  match ics with
  | [] => Return tt s
  | (ind, coeff) :: rest =>
      if (ind =? 0) && Y00_is_unity s && s_neqb coeff s_one
      then Throw (ValueError msg_Y00) s
      else if (ind <? 0) || (ind >? N s)
      then Throw (IndexError msg_index) s
      else match vec_set (y s) ind coeff with
           | Some v => setCoeff_loop (set_y s v) rest
           | None => Undefined
           end
  end.

(** [Map::setCoeff(const Vector<int>& inds, const Vector<U>& coeffs)] *)
Definition setCoeff_inds (s : Map) (inds : list Z) (coeffs : Vector T)
    : result Map unit :=
  if negb (length inds =? length coeffs)%nat
  then Throw (IndexError msg_size) s
  else match setCoeff_loop s (zip inds coeffs) with
       | Return _ s1 => Return tt (update s1)
       | r => r
       end.

(** [Map::getCoeff(int l, int m)] *)
Definition getCoeff (s : Map) (l m : Z) : result Map T :=
  if (0 <=? l) && (l <=? lmax s) && (- l <=? m) && (m <=? l)
  then match vec_get (y s) (l * l + l + m) with
       | Some v => Return v s
       | None => Undefined
       end
  else Throw (IndexError msg_lm) s.

(** The loop of the bulk [getCoeff]: [coeffs] holds the entries filled
    so far. *)
Fixpoint getCoeff_loop (s : Map) (inds : list Z) (coeffs : Vector T)
    : result Map (Vector T) :=
  match inds with
  | [] => Return coeffs s
  | ind :: rest =>
      if (ind <? 0) || (ind >? N s)
      then Throw (IndexError msg_index) s
      else match vec_get (y s) ind with
           | Some v => getCoeff_loop s rest (coeffs ++ [v])
           | None => Undefined
           end
  end.

(** [Map::getCoeff(const Vector<int>& inds)] *)
Definition getCoeff_inds (s : Map) (inds : list Z)
    : result Map (Vector T) :=
  getCoeff_loop s inds [].

(** [Map::setAxis]: store the new axis, normalise it in place, update
    the rotation object. *)
Definition setAxis (s : Map) (new_axis : UnitVector T) : result Map unit :=
  let s1 := set_axis s (mkUnit (ux new_axis) (uy new_axis) (uz new_axis)) in
  let a := axis s1 in
  let s2 :=
    set_axis s1
      (unit_div a
         (s_sqrt (s_add (s_add (s_mul (ux a) (ux a)) (s_mul (uy a) (uy a)))
                        (s_mul (uz a) (uz a))))) in
  Return tt (set_W s2 (rotation.update (lmax s2) (axis s2) (W s2))).

Definition getAxis (s : Map) : result Map (UnitVector T) :=
  Return (axis s) s.

Definition getY (s : Map) : result Map (Vector T) := Return (y s) s.

Definition getP (s : Map) : result Map (Vector T) := Return (p s) s.

Definition getG (s : Map) : result Map (Vector T) := Return (g s) s.

Definition getR (s : Map) : result Map (Vector T) := Return (rT (B s)) s.

(** *** Rotations *)

(** Degrees to radians: [T(theta_deg) * (pi<T>() / 180.)]. *)
Definition radians (theta_deg : T) : T :=
  s_mul theta_deg (s_div c_pi (s_of_Z 180)).

(** [Map::rotate]: rotate the base map in place, [W.rotate] writing
    into [y] itself, then [update()]. *)
Definition rotate (s : Map) (theta_deg : T) : result Map unit :=
  let theta := radians theta_deg in
  let r := rotation.rotate_self (lmax s) (axis s) (c_cos theta)
             (c_sin theta) (W s) (y s) in
  Return tt (update (set_y (set_W s r.1) r.2)).

(** *** Intensity *)

(** The test [x0 * x0 + y0 * y0 > 1.0]. *)
Definition outside_disk (x0 y0 : T) : bool :=
  s_gtb (s_add (s_mul x0 x0) (s_mul y0 y0)) (s_of_Z 1).

Definition msg_autodiff : string :=
  "Autodiff of multiprecision type is not currently implemented.".

(** The loop over [i < N] of [evaluate_with_gradient]:
    [dI(1) += basis(i).derivatives()(0) * c(i)] with [c] the vector
    [tmp_vec_ptr] points to, the same
    for [dI(2)], and [tmp_col_vec(i) = basis(i).value()]. *)
Definition grad_step (basis : list (autodiff.ADScalar T)) (coeffs : Vector T)
    (st : (T * T) * Vector T) (i : Z) : (T * T) * Vector T :=
  let b := default (autodiff.constant s_zero) (basis !! Z.to_nat i) in
  let c := default s_zero (coeffs !! Z.to_nat i) in
  ((s_add (fst (fst st)) (s_mul (autodiff.d0 b) c),
    s_add (snd (fst st)) (s_mul (autodiff.d1 b) c)),
   <[Z.to_nat i := autodiff.value b]> (snd st)).

(** The loop [for l: v.segment(3 + l*l, 2l+1) =
    v.segment(3 + l*l, 2l+1).transpose() * R[l]]. *)
Definition rotate_gradient (blocks : list (Matrix T)) (lmax0 : Z)
    (v : Vector T) : Vector T :=
  fold_left
    (fun cur l =>
       set_segment cur (3 + l * l)
         (vec_mat (Z.to_nat (2 * l + 1))
            (segment cur (3 + l * l) (2 * l + 1)) (block blocks l)))
    (seqZ 0 (lmax0 + 1)) v.

(** [Map::evaluate_with_gradient], the general template. *)
Definition evaluate_with_gradient_generic (s : Map) (theta_deg x0 y0 : T)
    : result Map T :=
  let theta := radians theta_deg in
  let s1 := set_W s (rotation.compute (lmax s) (axis s) (c_cos theta)
                       (c_sin theta) (W s)) in
  let s2 :=
    if s_eqb theta (s_of_Z 0)
    then set_tmp_vec_ptr s1 ptr_p
    else
      let s' := set_tmp_vec s1
                  (rotate_into (R (W s1)) (lmax s1) (y s1) (tmp_vec s1)) in
      let s'' := set_tmp_vec s' (mat_vec (A1 (B s')) (tmp_vec s')) in
      set_tmp_vec_ptr s'' ptr_tmp_vec in
  if outside_disk x0 y0 then Return c_NAN s2
  else
    let x0_grad := autodiff.mkAD x0 s_one s_zero in
    let y0_grad := autodiff.mkAD y0 s_zero s_one in
    let basis :=
      poly_basis (lmax s2) x0_grad y0_grad
        (replicate (Z.to_nat (N s2)) (autodiff.constant s_zero)) in
    let '((g1, g2), col) :=
      fold_left (grad_step basis (deref s2)) (seqZ 0 (N s2))
        ((s_zero, s_zero), tmp_col_vec s2) in
    let s3 := set_tmp_col_vec s2 col in
    let s4 := set_dI s3 (<[2%nat := g2]> (<[1%nat := g1]> (dI s3))) in
    let proj := vec_mat (Z.to_nat (N s4)) (tmp_col_vec s4) (A1 (B s4)) in
    let s5 :=
      if s_eqb theta (s_of_Z 0)
      then set_dI s4 (set_segment (dI s4) 3 proj)
      else set_dI s4 (rotate_gradient (R (W s4)) (lmax s4)
                        (set_segment (dI s4) 3 proj)) in
    let foo :=
      rotate_into (dRdtheta (W s5)) (lmax s5) (y s5)
        (replicate (Z.to_nat (N s5)) s_zero) in
    let dtheta :=
      s_mul (dot (vec_mat (Z.to_nat (N s5)) (tmp_col_vec s5) (A1 (B s5)))
                 foo)
            (s_div c_pi (s_of_Z 180)) in
    let s6 := set_dI s5 (<[0%nat := dtheta]> (dI s5)) in
    Return (dot (tmp_col_vec s6) (deref s6)) s6.

(** [Map::evaluate_with_gradient]: the specialisation
    [Map<Multi, double>] throws, every other instance is the general
    template. *)
Definition evaluate_with_gradient (s : Map) (theta_deg x0 y0 : T)
    : result Map T :=
  if s_is_Multi (T := T)
  then Throw (NotImplementedError msg_autodiff) s
  else evaluate_with_gradient_generic s theta_deg x0 y0.

(** [Map::evaluate] *)
Definition evaluate (s : Map) (theta_deg x0 y0 : T)
    (compute_gradient : bool) : result Map T :=
  if compute_gradient then evaluate_with_gradient s theta_deg x0 y0
  else
    let theta := radians theta_deg in
    let s1 :=
      if s_eqb theta (s_of_Z 0)
      then set_tmp_vec_ptr s ptr_p
      else
        let r := rotation.rotate (lmax s) (axis s) (c_cos theta)
                   (c_sin theta) (W s) (y s) (tmp_vec s) in
        let s' := set_tmp_vec (set_W s r.1) r.2 in
        let s'' := set_tmp_vec s' (mat_vec (A1 (B s')) (tmp_vec s')) in
        set_tmp_vec_ptr s'' ptr_tmp_vec in
    if outside_disk x0 y0 then Return c_NAN s1
    else
      let s2 := set_tmp_col_vec s1
                  (poly_basis (lmax s1) x0 y0 (tmp_col_vec s1)) in
      Return (dot (tmp_col_vec s2) (deref s2)) s2.

(** *** Construction *)

(** The name of the coefficient [(l, m)] in the gradient tables. *)
Definition Y_name (lm : Z * Z) : string :=
  String.append "Y_{"
    (String.append (pretty (fst lm))
       (String.append "," (String.append (pretty (snd lm)) "}"))).

(** [Map::Map(int lmax, bool Y00_is_unity)]: the member initialisers,
    the gradient names, then [reset()].  The constructors of [B] and
    [W] may throw; where the sizes computed from [lmax] do not fit an
    [int], the signed overflow is undefined behaviour. *)
Definition Map_new (lmax0 : Z) (Y00 : bool) : result unit Map :=
  let N0 := (lmax0 + 1) * (lmax0 + 1) in
  if negb (is_int (lmax0 + 1) && is_int N0 && is_int (4 + N0))
  then Undefined
  else
    match Basis_new lmax0 with
    | inl e => Throw e tt
    | inr b =>
        match Wigner_new lmax0 with
        | inl e => Throw e tt
        | inr w =>
            let names := Y_name <$> lm_pairs lmax0 in
            let s0 :=
              mkMap lmax0 N0
                (Zero (3 + N0)) (["theta"; "x"; "y"]%string ++ names)
                (Zero (4 + N0)) (["theta"; "xo"; "yo"; "ro"]%string ++ names)
                (Zero N0) [] [] yhat b w Y00
                (Zero N0) (Zero N0) ptr_unset in
            match reset s0 with
            | Return _ s1 => Return s1 tt
            | Throw e _ => Throw e tt
            | Undefined => Undefined
            end
        end
    end.
End Map.
Arguments Map : clear implicits.
End maps.

(** ** Two scalar types *)

(** *** [double]: IEEE binary64 *)

Module double.
(** The conversion of an [int] to [double]; exact for every [int]. *)
Definition of_Z (z : Z) : float :=
  if z <? 0
  then PrimFloat.opp (PrimFloat.of_uint63 (Uint63.of_Z (- z)))
  else PrimFloat.of_uint63 (Uint63.of_Z z).

#[global] Instance double_Scalar : Scalar float := {
  s_is_Multi := false;
  s_of_Z := of_Z;
  s_add := PrimFloat.add;
  s_sub := PrimFloat.sub;
  s_mul := PrimFloat.mul;
  s_div := PrimFloat.div;
  s_sqrt := PrimFloat.sqrt;
  s_eqb := PrimFloat.eqb;
  s_ltb := PrimFloat.ltb
}.

(** The primitive floats have no [libm].  To run the generic code at
    concrete points, [pow] is repeated multiplication and [cos] and
    [sin] are short Taylor polynomials; no theorem depends on them. *)
Definition pow (x : float) (k : Z) : float :=
  let r := Nat.iter (Z.to_nat (Z.abs k)) (PrimFloat.mul x) 1%float in
  if k <? 0 then PrimFloat.div 1%float r else r.

Definition cos (x : float) : float :=
  let x2 := PrimFloat.mul x x in
  PrimFloat.add (PrimFloat.sub 1%float (PrimFloat.div x2 2%float))
    (PrimFloat.div (PrimFloat.mul x2 x2) 24%float).

Definition sin (x : float) : float :=
  let x2 := PrimFloat.mul x x in
  PrimFloat.sub x (PrimFloat.div (PrimFloat.mul x x2) 6%float).

#[global] Instance double_Cmath : Cmath float := {
  c_pow := pow;
  c_cos := cos;
  c_sin := sin;
  c_NAN := PrimFloat.nan;
  c_pi := 0x1.921fb54442d18p+1%float
}.

(** A stand-in for [basis.h] and [rotation.h], to run the map: identity
    matrices of the sizes the spec gives the real ones. *)
Definition identity (n : nat) : Matrix float :=
  map (fun i => <[i := 1%float]> (replicate n 0%float)) (seq 0 n).

Definition identity_blocks (lmax : Z) : list (Matrix float) :=
  (fun l => identity (Z.to_nat (2 * l + 1))) <$> seqZ 0 (lmax + 1).

Definition identity_Basis (lmax : Z) : basis.Basis float :=
  let n := Z.to_nat ((lmax + 1) * (lmax + 1)) in
  basis.mkBasis (identity n) (identity n) (replicate n 0%float).

Definition identity_Wigner (lmax : Z) : rotation.Wigner float :=
  rotation.mkWigner (identity_blocks lmax) (identity_blocks lmax).

#[global] Instance identity_basis : basis.Lib float := {
  basis.Basis_new lmax := inr (identity_Basis lmax)
}.

(** The same stand-in for [basis.h] with the test of the degree bound
    the spec gives construction: it throws below zero and above
    [STARRY_MAX_LMAX]. *)
Definition checked_Basis_new (lmax : Z) : error + basis.Basis float :=
  if (lmax <? 0) || (STARRY_MAX_LMAX <? lmax)
  then inl (ValueError "Invalid value for lmax.")
  else inr (identity_Basis lmax).

Definition checked_basis : basis.Lib float :=
  {| basis.Basis_new := checked_Basis_new |}.

#[global] Instance identity_rotation : rotation.Lib float := {
  rotation.Wigner_new lmax := inr (identity_Wigner lmax);
  rotation.update lmax axis w := w;
  rotation.compute lmax axis c s w := identity_Wigner lmax
}.
End double.

(** *** Exact arithmetic: the real numbers *)

Module real.
#[global] Instance real_Scalar : Scalar Rdefinitions.R := {
  s_is_Multi := false;
  s_of_Z := IZR;
  s_add := Rplus;
  s_sub := Rminus;
  s_mul := Rmult;
  s_div := Rdiv;
  s_sqrt := R_sqrt.sqrt;
  s_eqb a b := if Req_dec_T a b then true else false;
  s_ltb a b := if Rlt_dec a b then true else false
}.

(** A stand-in for [rotation.h] over the reals: no blocks. *)
#[global] Instance no_rotation : rotation.Lib Rdefinitions.R := {
  rotation.Wigner_new lmax := inr (rotation.mkWigner [] []);
  rotation.update lmax axis w := w;
  rotation.compute lmax axis c s w := w
}.
End real.

(** ** Concrete maps *)

Module example.
Import maps.

Definition empty_map : Map float :=
  mkMap 0 0 [] [] [] [] [] [] [] yhat (basis.mkBasis [] [] [])
    (rotation.mkWigner [] []) false [] [] ptr_unset.

(** The object [Map<double, double>(lmax, Y00_is_unity)], over the
    stand-in basis and rotation. *)
Definition map_of (lmax : Z) (Y00_is_unity : bool) : Map float :=
  match Map_new lmax Y00_is_unity with
  | Return s _ => s
  | _ => empty_map
  end.

(** [Map(1)]: four coefficients, all zero. *)
Definition map1 : Map float := Eval vm_compute in map_of 1 false.

(** [Map(1, true)]: the constant coefficient is fixed at one. *)
Definition map1_unity : Map float := Eval vm_compute in map_of 1 true.

(** [Map(1)] after [setCoeff({0, 1, 2, 3}, {1, 2, 3, 4})]. *)
Definition map1_1234 : Map float := Eval vm_compute in
  match setCoeff_inds map1 [0; 1; 2; 3] [1; 2; 3; 4]%float with
  | Return _ s => s
  | _ => empty_map
  end.

(** A map of degree 0 over the reals, its coefficient zero. *)
Definition real_map0 : Map Rdefinitions.R :=
  mkMap 0 1 [] [] [] [] [0%R] [0%R] [0%R] yhat
    (basis.mkBasis [[1%R]] [[1%R]] [0%R]) (rotation.mkWigner [] [])
    false [0%R] [0%R] ptr_unset.
End example.

Import maps.

(** ** Vocabulary of the statements *)

Section Vocabulary.
Context {T : Type} `{Scalar T} `{Cmath T} `{basis.Lib T} `{rotation.Lib T}.

(** Modelled from the spec: construction fails if [lmax] exceeds the
    supported maximum (beyond which the basis becomes numerically
    unstable) or is negative.  The constructor of [Map] in [maps.h] has no
    test of its own; what can fail in it is the construction of its
    members [B(lmax)] and [W(lmax, y, axis)], by [basis.h] and
    [rotation.h], which are missing: for such a degree bound one of the
    two throws. *)
Definition degree_checked : Prop :=
  forall lmax0 : Z,
    lmax0 < 0 \/ STARRY_MAX_LMAX < lmax0 ->
    (exists e, basis.Basis_new (T := T) lmax0 = inl e) \/
    (exists e, rotation.Wigner_new (T := T) lmax0 = inl e).

(** [(l, m)] names a coefficient of the map. *)
Definition in_bounds (s : Map T) (l m : Z) : Prop :=
  0 <= l <= lmax s /\ - l <= m <= l.

(** The test that protects the fixed coefficient, as both [setCoeff]
    write it: [(ind == 0) && Y00_is_unity && (coeff != 1)]. *)
Definition Y00_guard (s : Map T) (ind : Z) (coeff : T) : bool :=
  (ind =? 0) && Y00_is_unity s && s_neqb coeff s_one.

(** The exception the body of the bulk [setCoeff] loop throws on an
    entry, if any. *)
Definition offence (s : Map T) (ic : Z * T) : option error :=
  if Y00_guard s ic.1 ic.2 then Some (ValueError msg_Y00)
  else if (ic.1 <? 0) || (ic.1 >? N s) then Some (IndexError msg_index)
  else None.

(** The entries [ics] written into a coefficient vector, in order. *)
Definition written (v : Vector T) (ics : list (Z * T)) : Vector T :=
  fold_left (fun v ic => <[Z.to_nat ic.1 := ic.2]> v) ics v.

(** The map after the loop of the bulk [setCoeff] has written [ics]. *)
Definition write_entries (s : Map T) (ics : list (Z * T)) : Map T :=
  fold_left (fun s ic => set_y s (<[Z.to_nat ic.1 := ic.2]> (y s))) ics s.

(** The derived vectors agree with the coefficients. *)
Definition coherent (s : Map T) : Prop :=
  p s = mat_vec (basis.A1 (B s)) (y s) /\
  g s = mat_vec (basis.A (B s)) (y s).

(** The sizes the constructor establishes. *)
Definition sized (s : Map T) : Prop :=
  N s = (lmax s + 1) * (lmax s + 1) /\
  Z.of_nat (length (y s)) = N s /\
  Z.of_nat (length (p s)) = N s /\
  Z.of_nat (length (g s)) = N s.

(** The coefficients, the derived vectors, the axis and the constants
    of [s'] are those of [s]. *)
Definition same_base (s s' : Map T) : Prop :=
  y s' = y s /\ p s' = p s /\ g s' = g s /\ axis s' = axis s /\
  lmax s' = lmax s /\ N s' = N s /\ B s' = B s /\
  Y00_is_unity s' = Y00_is_unity s.

(** The polynomial coefficients of the map as seen after a rotation by
    [theta_deg] degrees: [p] itself for the angle zero, otherwise [A1]
    applied to the rotated copy of [y] that [evaluate] builds in
    [tmp_vec]. *)
Definition viewed (s : Map T) (theta_deg : T) : Vector T :=
  let theta := radians theta_deg in
  if s_eqb theta (s_of_Z 0) then p s
  else
    mat_vec (basis.A1 (B s))
      (rotation.rotate (lmax s) (axis s) (c_cos theta) (c_sin theta)
         (W s) (y s) (tmp_vec s)).2.

(** A call of a public method, with its arguments. *)
Inductive call : Type :=
  | call_reset
  | call_setCoeff (l m : Z) (coeff : T)
  | call_setCoeff_inds (inds : list Z) (coeffs : Vector T)
  | call_getCoeff (l m : Z)
  | call_getCoeff_inds (inds : list Z)
  | call_setAxis (new_axis : UnitVector T)
  | call_getAxis
  | call_getY
  | call_getP
  | call_getG
  | call_getR
  | call_rotate (theta_deg : T)
  | call_evaluate (theta_deg x0 y0 : T) (compute_gradient : bool).

(** The outcome of a call, its value forgotten. *)
Definition forget {A : Type} (r : result (Map T) A) : result (Map T) unit :=
  match r with
  | Return _ s => Return tt s
  | Throw e s => Throw e s
  | Undefined => Undefined
  end.

Definition run (c : call) (s : Map T) : result (Map T) unit :=
  match c with
  | call_reset => reset s
  | call_setCoeff l m coeff => setCoeff s l m coeff
  | call_setCoeff_inds inds coeffs => setCoeff_inds s inds coeffs
  | call_getCoeff l m => forget (getCoeff s l m)
  | call_getCoeff_inds inds => forget (getCoeff_inds s inds)
  | call_setAxis a => setAxis s a
  | call_getAxis => forget (getAxis s)
  | call_getY => forget (getY s)
  | call_getP => forget (getP s)
  | call_getG => forget (getG s)
  | call_getR => forget (getR s)
  | call_rotate theta => rotate s theta
  | call_evaluate theta x0 y0 gr => forget (evaluate s theta x0 y0 gr)
  end.

(** The state a call leaves the object in, whether it returned or
    threw; [None] when it ran into undefined behaviour. *)
Definition after (c : call) (s : Map T) : option (Map T) :=
  final_state (run c s).

(** A sequence of calls that all return. *)
Fixpoint run_all (cs : list call) (s : Map T) : result (Map T) unit :=
  match cs with
  | [] => Return tt s
  | c :: rest =>
      match run c s with
      | Return _ s1 => run_all rest s1
      | r => r
      end
  end.

(** The sizes of a map of degree bound [lmax0], those of its basis
    matrices included. *)
Definition shaped (lmax0 : Z) (s : Map T) : Prop :=
  lmax s = lmax0 /\ sized s /\
  Z.of_nat (length (basis.A1 (B s))) = N s /\
  Z.of_nat (length (basis.A (B s))) = N s.

(** The state after a sequence of calls. *)
Fixpoint after_all (cs : list call) (s : Map T) : option (Map T) :=
  match cs with
  | [] => Some s
  | c :: rest =>
      match after c s with
      | Some s1 => after_all rest s1
      | None => None
      end
  end.
End Vocabulary.

(** ** More of [utils.h] *)

Module utils.
(** The loop of [is_even]: [ntimes] turns of
    [if ((n % 2) != 0) return false; n /= 2;]. *)
Fixpoint is_even_loop (turns : nat) (n : Z) : bool :=
  match turns with
  | O => true
  | S turns' =>
      if negb (Z.rem n 2 =? 0) then false
      else is_even_loop turns' (Z.quot n 2)
  end.

(** [is_even(int n, int ntimes = 1)]: is [n] even, or [ntimes] times
    even? *)
Definition is_even (n ntimes : Z) : bool :=
  is_even_loop (Z.to_nat ntimes) n.

(** [static_cast<size_t>(z)] of an [int], for a [size_t] of [bits]
    bits. *)
Definition to_size_t (bits z : Z) : Z := z mod 2 ^ bits.

(** The condition [CHECK_BOUNDS(INDEX, IMIN, IMAX)] asserts in debug
    mode. *)
Definition CHECK_BOUNDS (bits INDEX IMIN IMAX : Z) : bool :=
  (to_size_t bits INDEX >=? to_size_t bits IMIN) &&
  (to_size_t bits INDEX <=? to_size_t bits IMAX).

(** The condition [CHECK_ROWS(MATRIX, ROWS)] asserts in debug mode, for a
    matrix of [rows] rows; [CHECK_COLS] is the same on the columns. *)
Definition CHECK_ROWS (bits rows ROWS : Z) : bool :=
  to_size_t bits rows =? to_size_t bits ROWS.
End utils.

(** ** The Python interface of the map ([pybind_interface.cpp]) *)

Module pybind.
(** What a lambda hands back to Python. *)
Inductive py_object (T : Type) : Type :=
  | py_scalar (x : T)
  | py_row (r : list T)
  | py_matrix (m : Matrix T).
Arguments py_scalar {T} x.
Arguments py_row {T} r.
Arguments py_matrix {T} m.

Definition msg_slice : string :=
  "Mismatch in slice length and coefficient array size.".

Section Items.
Context {T : Type}.

(** [m.row(n)]: undefined outside the rows of the matrix. *)
Definition row (m : Matrix T) (n : Z) : option (list T) :=
  if (0 <=? n) && (n <? Z.of_nat (length m)) then m !! Z.to_nat n else None.

(** [m.row(n) = r]: undefined outside the rows of the matrix, and when
    [r] has not the size of a row. *)
Definition set_row (m : Matrix T) (n : Z) (r : list T) : option (Matrix T) :=
  match row m n with
  | Some old =>
      if (length old =? length r)%nat
      then Some (<[Z.to_nat n := r]> m) else None
  | None => None
  end.

(** [m.row(n).setConstant(c)] *)
Definition set_row_constant (m : Matrix T) (n : Z) (c : T)
    : option (Matrix T) :=
  match row m n with
  | Some old => Some (<[Z.to_nat n := replicate (length old) c]> m)
  | None => None
  end.

(** The loops [for (auto n : inds) y.row(n - off) ...]; the index lists
    come from [get_Ylm_inds] (where [off] is 0) and from [get_Ul_inds]
    (where the rows are [n - 1]). *)
Fixpoint set_rows_constant (off : Z) (inds : list Z) (m : Matrix T) (c : T)
    : option (Matrix T) :=
  match inds with
  | [] => Some m
  | n :: rest =>
      match set_row_constant m (n - off) c with
      | Some m1 => set_rows_constant off rest m1 c
      | None => None
      end
  end.

Fixpoint set_rows_same (off : Z) (inds : list Z) (m : Matrix T) (r : list T)
    : option (Matrix T) :=
  match inds with
  | [] => Some m
  | n :: rest =>
      match set_row m (n - off) r with
      | Some m1 => set_rows_same off rest m1 r
      | None => None
      end
  end.

(** [int i = 0; for (auto n : inds) y.row(n - off) = coeff.row(i++);] *)
Fixpoint set_rows (off : Z) (inds : list Z) (m coeff : Matrix T) (i : Z)
    : option (Matrix T) :=
  match inds with
  | [] => Some m
  | n :: rest =>
      match row coeff i with
      | Some r =>
          match set_row m (n - off) r with
          | Some m1 => set_rows off rest m1 coeff (i + 1)
          | None => None
          end
      | None => None
      end
  end.

(** [int i = 0; for (auto n : inds) res.row(i++) = y.row(n - off);]
    where [res] was given [ncol] columns: a row of another size cannot be
    assigned to one of its rows. *)
Fixpoint get_rows (off : Z) (ncol : nat) (inds : list Z) (m : Matrix T)
    : option (Matrix T) :=
  match inds with
  | [] => Some []
  | n :: rest =>
      match row m (n - off), get_rows off ncol rest m with
      | Some r, Some rs =>
          if (length r =? ncol)%nat then Some (r :: rs) else None
      | _, _ => None
      end
  end.

Definition lift (o : option (Matrix T)) : result unit (Matrix T) :=
  match o with
  | Some m => Return m tt
  | None => Undefined
  end.

(** The body of [__setitem__(lm, double coeff)] between [getY()] and
    [setY(y)]: from the matrix [getY] returned to the one [setY]
    receives.  [off] is 0 for the spherical harmonic coefficients and 1
    for the limb darkening ones.  The scalar of the map is the type of
    the values passed in, as for the double precision maps, where the
    casts change nothing. *)
Definition setitem_scalar (off : Z) (inds : list Z) (y : Matrix T) (coeff : T)
    : result unit (Matrix T) :=
  lift (set_rows_constant off inds y coeff).

(** The same for [__setitem__(lm, CoeffType coeff)]. *)
Definition setitem_vector (off : Z) (inds : list Z) (y : Matrix T)
    (coeff : list T) : result unit (Matrix T) :=
  lift (set_rows_same off inds y coeff).

(** The same for [__setitem__(lm, MapType coeff)], which first compares
    the sizes. *)
Definition setitem_matrix (off : Z) (inds : list Z) (y coeff : Matrix T)
    : result unit (Matrix T) :=
  if negb (length coeff =? length inds)%nat
  then Throw (ValueError msg_slice) tt
  else lift (set_rows off inds y coeff 0).

(** [__getitem__]: the rows asked for, in a matrix of [map.ncol]
    columns; a single one is returned as a scalar when the map type has
    one column ([single_col]), as a row otherwise. *)
Definition getitem (off : Z) (single_col : bool) (ncol : nat)
    (inds : list Z) (y : Matrix T) : result unit (py_object T) :=
  match get_rows off ncol inds y with
  | None => Undefined
  | Some res =>
      if (length inds =? 1)%nat then
        match res with
        | r :: _ =>
            if single_col
            then match r with
                 | x :: _ => Return (py_scalar x) tt
                 | [] => Undefined
                 end
            else Return (py_row r) tt
        | [] => Undefined
        end
      else Return (py_matrix res) tt
  end.
End Items.
End pybind.

(** ** Vocabulary of the further properties *)

Section FurtherVocabulary.
Context {T : Type} `{Scalar T} `{Cmath T} `{basis.Lib T} `{rotation.Lib T}.

(** The comparison [==] with the literal one is exact: it holds of the
    value one only (as it does in IEEE arithmetic and in the reals). *)
Definition eqb_one_exact : Prop :=
  forall a : T, s_eqb a s_one = true -> a = s_one.

Definition is_rotate (c : call (T := T)) : bool :=
  match c with call_rotate _ => true | _ => false end.

(** The block-diagonal operator applied to a coefficient vector: the
    blocks [R[l] * y.segment(l*l, 2l+1)], one after the other. *)
Definition apply_blocks (blocks : list (Matrix T)) (lmax0 : Z)
    (v : Vector T) : Vector T :=
  l ← seqZ 0 (lmax0 + 1);
  mat_vec (rotation.block blocks l) (segment v (l * l) (2 * l + 1)).

(** All rows of a matrix have [ncol] entries. *)
Definition width (ncol : nat) (m : Matrix T) : Prop :=
  Forall (fun r => length r = ncol) m.
End FurtherVocabulary.

(** ** The intensity in exact arithmetic, in the words of the spec

    The value [evaluate] is to return inside the disk, written over the
    reals without the operations of the embedding: sums and products of
    reals, the monomials of the polynomial basis by their flat index,
    and the rotated coefficients block by block. *)

Definition exact_sum (l : list Rdefinitions.R) : Rdefinitions.R :=
  fold_right Rplus 0%R l.

(** The dot product of two vectors. *)
Definition exact_dot (a b : list Rdefinitions.R) : Rdefinitions.R :=
  exact_sum (zip_with Rmult a b).

(** A matrix, given by its rows, times a vector. *)
Definition exact_mat_vec (A : list (list Rdefinitions.R))
    (v : list Rdefinitions.R) : list Rdefinitions.R :=
  map (fun row => exact_dot row v) A.

(** The polynomial basis at a point: the entry of flat index [n], with
    [l] the integer square root of [n], [m = n - l^2 - l], [mu = l - m]
    and [nu = l + m], is [x^(mu/2) y^(nu/2)] when [nu] is even and
    [x^((mu-1)/2) y^((nu-1)/2) z] when it is odd, where
    [z = sqrt(1 - x^2 - y^2)]. *)
Definition exact_basis_entry (x y : Rdefinitions.R) (n : Z)
    : Rdefinitions.R :=
  let l := Z.sqrt n in
  let m := n - l * l - l in
  let mu := l - m in
  let nu := l + m in
  if Z.even nu
  then (x ^ Z.to_nat (mu / 2) * y ^ Z.to_nat (nu / 2))%R
  else (x ^ Z.to_nat ((mu - 1) / 2) * y ^ Z.to_nat ((nu - 1) / 2)
        * R_sqrt.sqrt (1 - x * x - y * y))%R.

Definition exact_basis (lmax0 : Z) (x y : Rdefinitions.R)
    : list Rdefinitions.R :=
  exact_basis_entry x y <$> seqZ 0 ((lmax0 + 1) * (lmax0 + 1)).

(** The rotated coefficients: for every degree [l], the block of the
    degree times the [2l + 1] coefficients of the degree, which start at
    the index [l^2]. *)
Definition exact_rotated (blocks : list (list (list Rdefinitions.R)))
    (lmax0 : Z) (v : list Rdefinitions.R) : list Rdefinitions.R :=
  l ← seqZ 0 (lmax0 + 1);
  exact_mat_vec (default [] (blocks !! Z.to_nat l))
    (take (Z.to_nat (2 * l + 1)) (drop (Z.to_nat (l * l)) v)).

(** The polynomial coefficients of the map seen at an angle in degrees:
    [p] at the angle zero, otherwise [A1] times the rotated
    coefficients. *)
Definition exact_viewed (C : Cmath Rdefinitions.R)
    (L : rotation.Lib Rdefinitions.R) (s : Map Rdefinitions.R)
    (theta_deg : Rdefinitions.R) : list Rdefinitions.R :=
  let theta := (theta_deg * (c_pi / 180))%R in
  if Req_dec_T theta 0%R then p s
  else
    exact_mat_vec (basis.A1 (B s))
      (exact_rotated
         (rotation.R (rotation.compute (lmax s) (axis s)
                        (c_cos theta) (c_sin theta) (W s)))
         (lmax s) (y s)).

(** The intensity of the spec: the dot product of the polynomial basis
    at the point with the polynomial coefficients of the rotated map. *)
Definition exact_intensity (C : Cmath Rdefinitions.R)
    (L : rotation.Lib Rdefinitions.R) (s : Map Rdefinitions.R)
    (theta_deg x y : Rdefinitions.R) : Rdefinitions.R :=
  exact_dot (exact_basis (lmax s) x y) (exact_viewed C L s theta_deg).

(** A stand-in for [rotation.h] over the reals: identity blocks of the
    sizes the spec gives the real ones. *)
Definition exact_identity (n : nat) : Matrix Rdefinitions.R :=
  map (fun i => <[i := 1%R]> (replicate n 0%R)) (seq 0 n).

Definition exact_blocks (lmax0 : Z) : list (Matrix Rdefinitions.R) :=
  (fun l => exact_identity (Z.to_nat (2 * l + 1))) <$> seqZ 0 (lmax0 + 1).

Definition exact_identity_rotation : rotation.Lib Rdefinitions.R :=
  {| rotation.Wigner_new lmax0 :=
       inr (rotation.mkWigner (exact_blocks lmax0) (exact_blocks lmax0));
     rotation.update lmax0 axis0 w := w;
     rotation.compute lmax0 axis0 c sn w :=
       rotation.mkWigner (exact_blocks lmax0) (exact_blocks lmax0) |}.

(** A map of degree 1 over the reals, with the coefficients 1, 2, 3, 4
    and the identity for [A1]. *)
Definition real_map1 : Map Rdefinitions.R :=
  mkMap 1 4 [] [] [] [] [1; 2; 3; 4]%R [1; 2; 3; 4]%R [1; 2; 3; 4]%R yhat
    (basis.mkBasis (exact_identity 4) (exact_identity 4) [0; 0; 0; 0]%R)
    (rotation.mkWigner (exact_blocks 1) (exact_blocks 1))
    false [0; 0; 0; 0]%R [0; 0; 0; 0]%R ptr_unset.

(** A coefficient matrix of three rows and two columns. *)
Definition y32 : Matrix float :=
  [[1; 2]; [3; 4]; [5; 6]]%float.

(** * Properties *)

Unset Implicit Arguments.

(** ** Vectors *)

Section VectorFacts.
Context {T : Type} `{Scalar T}.

Lemma vec_set_in_range (v : Vector T) (n : Z) (x : T) :
  0 <= n < Z.of_nat (length v) ->
  vec_set v n x = Some (<[Z.to_nat n := x]> v).
Proof.
  intros [Hlo Hhi]. unfold vec_set.
  apply Z.leb_le in Hlo. apply Z.ltb_lt in Hhi.
  now rewrite Hlo, Hhi.
Qed.

Lemma vec_set_out_of_range (v : Vector T) (n : Z) (x : T) :
  n < 0 \/ Z.of_nat (length v) <= n -> vec_set v n x = None.
Proof.
  intros Hn. unfold vec_set.
  destruct (0 <=? n) eqn:Hlo; simpl; [|reflexivity].
  destruct (n <? Z.of_nat (length v)) eqn:Hhi; [|reflexivity].
  apply Z.leb_le in Hlo. apply Z.ltb_lt in Hhi. lia.
Qed.

Lemma vec_get_out_of_range (v : Vector T) (n : Z) :
  n < 0 \/ Z.of_nat (length v) <= n -> vec_get v n = None.
Proof.
  intros Hn. unfold vec_get.
  destruct (0 <=? n) eqn:Hlo; simpl; [|reflexivity].
  destruct (n <? Z.of_nat (length v)) eqn:Hhi; [|reflexivity].
  apply Z.leb_le in Hlo. apply Z.ltb_lt in Hhi. lia.
Qed.

Lemma vec_get_in_range (v : Vector T) (n : Z) :
  0 <= n < Z.of_nat (length v) -> exists x, vec_get v n = Some x.
Proof.
  intros [Hlo Hhi]. unfold vec_get.
  destruct (lookup_lt_is_Some_2 v (Z.to_nat n)) as [x Hx]; [lia|].
  exists x. apply Z.leb_le in Hlo. apply Z.ltb_lt in Hhi.
  now rewrite Hlo, Hhi.
Qed.

Lemma vec_set_inv (v v' : Vector T) (n : Z) (x : T) :
  vec_set v n x = Some v' ->
  0 <= n < Z.of_nat (length v) /\ v' = <[Z.to_nat n := x]> v.
Proof.
  unfold vec_set.
  destruct (0 <=? n) eqn:Hlo; simpl; [|discriminate].
  destruct (n <? Z.of_nat (length v)) eqn:Hhi; [|discriminate].
  intros [= <-]. apply Z.leb_le in Hlo. apply Z.ltb_lt in Hhi. auto.
Qed.

Lemma vec_set_length (v v' : Vector T) (n : Z) (x : T) :
  vec_set v n x = Some v' -> length v' = length v.
Proof.
  intros Hset. apply vec_set_inv in Hset as [_ ->]. apply length_insert.
Qed.

Lemma vec_get_set (v v' : Vector T) (n : Z) (x : T) :
  vec_set v n x = Some v' -> vec_get v' n = Some x.
Proof.
  intros Hset. pose proof (vec_set_length _ _ _ _ Hset) as Hlen.
  apply vec_set_inv in Hset as [[Hlo Hhi] ->].
  unfold vec_get. rewrite Hlen.
  apply Z.leb_le in Hlo as Hlo'. apply Z.ltb_lt in Hhi as Hhi'.
  rewrite Hlo', Hhi'. simpl.
  apply list_lookup_insert_eq. lia.
Qed.

Lemma length_Zero (n : Z) : Z.of_nat (length (Zero (T := T) n)) = Z.max 0 n.
Proof. unfold Zero. rewrite length_replicate. lia. Qed.

Lemma length_mat_vec (A : Matrix T) (v : Vector T) :
  length (mat_vec A v) = length A.
Proof. unfold mat_vec. apply length_map. Qed.
End VectorFacts.

(** ** Coefficient access *)

Section Coefficients.
Context {T : Type} `{Scalar T} `{Cmath T} `{basis.Lib T} `{rotation.Lib T}.

Lemma in_bounds_test (s : Map T) (l m : Z) :
  (0 <=? l) && (l <=? lmax s) && (- l <=? m) && (m <=? l) = true <->
  in_bounds s l m.
Proof.
  unfold in_bounds. rewrite !andb_true_iff, !Z.leb_le. tauto.
Qed.

Lemma not_in_bounds_test (s : Map T) (l m : Z) :
  ~ in_bounds s l m ->
  (0 <=? l) && (l <=? lmax s) && (- l <=? m) && (m <=? l) = false.
Proof.
  intros Hout. apply not_true_is_false. now rewrite in_bounds_test.
Qed.

(** What [setCoeff(l, m, coeff)] does, by cases. *)
Lemma setCoeff_cases (s : Map T) (l m : Z) (coeff : T) :
  setCoeff s l m coeff =
    if Y00_guard s l coeff then Throw (ValueError msg_Y00) s
    else if (0 <=? l) && (l <=? lmax s) && (- l <=? m) && (m <=? l)
    then match vec_set (y s) (l * l + l + m) coeff with
         | Some v => Return tt (update (set_y s v))
         | None => Undefined
         end
    else Throw (IndexError msg_lm) s.
Proof. reflexivity. Qed.

Lemma setCoeff_then_getCoeff (s s' : Map T) (l m : Z) (coeff : T) :
  setCoeff s l m coeff = Return tt s' ->
  getCoeff s' l m = Return coeff s'.
Proof.
  rewrite setCoeff_cases.
  destruct (Y00_guard s l coeff); [discriminate|].
  destruct ((0 <=? l) && (l <=? lmax s) && (- l <=? m) && (m <=? l))
    eqn:Hb; [|discriminate].
  destruct (vec_set (y s) (l * l + l + m) coeff) as [v|] eqn:Hset;
    [|discriminate].
  intros [= <-]. unfold getCoeff. cbn [lmax update set_W set_g set_p set_y].
  rewrite Hb. cbn [y update set_W set_g set_p set_y].
  now rewrite (vec_get_set _ _ _ _ Hset).
Qed.

Lemma setCoeff_out_of_bounds (s : Map T) (l m : Z) (coeff : T) :
  ~ in_bounds s l m ->
  setCoeff s l m coeff =
    Throw (if Y00_guard s l coeff then ValueError msg_Y00
           else IndexError msg_lm) s.
Proof.
  intros Hout. rewrite setCoeff_cases, (not_in_bounds_test s l m Hout).
  now destruct (Y00_guard s l coeff).
Qed.

(** What a [setCoeff(l, m, coeff)] that returns has done: the pair was
    inside the bounds and [coeff] stands in [y] at the flat index
    [l*l + l + m], the other entries being those of before. *)
Lemma setCoeff_writes_flat_index (s s' : Map T) (l m : Z) (coeff : T) :
  setCoeff s l m coeff = Return tt s' ->
  in_bounds s l m /\
  0 <= l * l + l + m < Z.of_nat (length (y s)) /\
  y s' = <[Z.to_nat (l * l + l + m) := coeff]> (y s).
Proof.
  rewrite setCoeff_cases.
  destruct (Y00_guard s l coeff); [discriminate|].
  destruct ((0 <=? l) && (l <=? lmax s) && (- l <=? m) && (m <=? l))
    eqn:Hb; [|discriminate].
  destruct (vec_set (y s) (l * l + l + m) coeff) as [v|] eqn:Hset;
    [|discriminate].
  intros [= <-]. apply vec_set_inv in Hset as [Hrange ->].
  split; [now apply in_bounds_test|]. split; [exact Hrange | reflexivity].
Qed.

(** What a [getCoeff(l, m)] that returns has read: the entry of [y] at
    the flat index [l*l + l + m], of a pair inside the bounds, the map
    being left as it was. *)
Lemma getCoeff_reads_flat_index (s s1 : Map T) (l m : Z) (x : T) :
  getCoeff s l m = Return x s1 ->
  s1 = s /\ in_bounds s l m /\ vec_get (y s) (l * l + l + m) = Some x.
Proof.
  unfold getCoeff.
  destruct ((0 <=? l) && (l <=? lmax s) && (- l <=? m) && (m <=? l))
    eqn:Hb; [|discriminate].
  destruct (vec_get (y s) (l * l + l + m)) as [x'|]; [|discriminate].
  intros [= <- <-]. split; [reflexivity|].
  split; [now apply in_bounds_test | reflexivity].
Qed.

(** C4, as amended: both accessors address the flat index
    [n = l*l + l + m].  A [setCoeff(l, m, v)] that returns has written
    [v] at that index of [y] and nothing else, and is read back by
    [getCoeff(l, m)], which returns the entry of [y] at that index; a
    pair [(l, m)] outside the bounds makes [setCoeff] throw and leave the
    map as it was, and the exception is IndexError whenever the guard of
    the fixed constant coefficient does not apply, in particular whenever
    [l > lmax] on a map of degree [lmax >= 0]. *)
Theorem setCoeff_getCoeff_roundtrip (s : Map T) (l m : Z) (v : T) :
  (forall s', in_bounds s l m -> setCoeff s l m v = Return tt s' ->
              getCoeff s' l m = Return v s' /\
              0 <= l * l + l + m < Z.of_nat (length (y s)) /\
              y s' = <[Z.to_nat (l * l + l + m) := v]> (y s)) /\
  (forall x s1, getCoeff s l m = Return x s1 ->
                s1 = s /\ vec_get (y s) (l * l + l + m) = Some x) /\
  (~ in_bounds s l m -> exists e, setCoeff s l m v = Throw e s) /\
  (~ in_bounds s l m -> Y00_guard s l v = false ->
   setCoeff s l m v = Throw (IndexError msg_lm) s) /\
  (0 <= lmax s -> lmax s < l ->
   setCoeff s l m v = Throw (IndexError msg_lm) s).
Proof.
  split; [|split; [|split; [|split]]].
  - intros s' _ Hset. split; [now apply setCoeff_then_getCoeff with s|].
    exact (proj2 (setCoeff_writes_flat_index s s' l m v Hset)).
  - intros x s1 Hget.
    destruct (getCoeff_reads_flat_index s s1 l m x Hget) as (Hs & _ & Hx).
    split; [exact Hs | exact Hx].
  - intros Hout. eexists. now apply setCoeff_out_of_bounds.
  - intros Hout Hg. rewrite (setCoeff_out_of_bounds s l m v Hout). now rewrite Hg.
  - intros Hdeg Hl.
    assert (Hout : ~ in_bounds s l m) by (unfold in_bounds; lia).
    rewrite (setCoeff_out_of_bounds s l m v Hout).
    unfold Y00_guard. replace (l =? 0) with false; [reflexivity|].
    symmetry. apply Z.eqb_neq. lia.
Qed.

(** In bounds, [setCoeff] on a map of the constructed sizes returns
    unless it is a write of a value other than one to the fixed
    constant. *)
Lemma setCoeff_in_bounds_returns (s : Map T) (l m : Z) (v : T) :
  in_bounds s l m -> (lmax s + 1) * (lmax s + 1) <= Z.of_nat (length (y s)) ->
  Y00_guard s l v = false ->
  exists s', setCoeff s l m v = Return tt s'.
Proof.
  intros Hin Hlen Hg. rewrite setCoeff_cases, Hg.
  rewrite (proj2 (in_bounds_test s l m) Hin).
  rewrite vec_set_in_range; [eauto|].
  destruct Hin as [[? ?] [? ?]]. nia.
Qed.

(** *** The bulk accessors *)

Lemma getCoeff_loop_accepts (s : Map T) (inds : list Z) (acc : Vector T) :
  Forall (fun n => 0 <= n < N s) inds ->
  N s <= Z.of_nat (length (y s)) ->
  exists vs, getCoeff_loop s inds acc = Return vs s.
Proof.
  intros Hall Hlen. revert acc.
  induction Hall as [|n inds Hn _ IH]; intros acc; simpl; [eauto|].
  replace ((n <? 0) || (n >? N s)) with false
    by (symmetry; apply orb_false_iff; split;
        [apply Z.ltb_ge | rewrite Z.gtb_ltb; apply Z.ltb_ge]; lia).
  destruct (vec_get_in_range (y s) n) as [x ->]; [lia|]. apply IH.
Qed.

Lemma getCoeff_loop_rejects (s : Map T) (pre post : list Z) (n : Z)
    (acc : Vector T) :
  Forall (fun n => 0 <= n < N s) pre ->
  N s <= Z.of_nat (length (y s)) ->
  n < 0 \/ N s < n ->
  getCoeff_loop s (pre ++ n :: post) acc = Throw (IndexError msg_index) s.
Proof.
  intros Hall Hlen Hn. revert acc.
  induction Hall as [|k pre Hk _ IH]; intros acc; simpl.
  - replace ((n <? 0) || (n >? N s)) with true; [reflexivity|].
    symmetry. apply orb_true_iff. rewrite Z.ltb_lt, Z.gtb_ltb, Z.ltb_lt. lia.
  - replace ((k <? 0) || (k >? N s)) with false
      by (symmetry; apply orb_false_iff; split;
          [apply Z.ltb_ge | rewrite Z.gtb_ltb; apply Z.ltb_ge]; lia).
    destruct (vec_get_in_range (y s) k) as [x ->]; [lia|]. apply IH.
Qed.

(** C1: what the bulk accessors do at the flat index [n = N], on a map
    whose coefficient vector has its [N > 0] entries.  The test
    [inds(i) > N] lets the index through, no IndexError is thrown, and
    the access [y(N)] is one past the end of the vector. *)
Theorem bulk_accessors_at_index_N (s : Map T) (c : T) :
  0 < N s -> Z.of_nat (length (y s)) = N s ->
  getCoeff_inds s [N s] = Undefined /\
  setCoeff_inds s [N s] [c] = Undefined /\
  throws_IndexError (getCoeff_inds s [N s]) = false /\
  throws_IndexError (setCoeff_inds s [N s] [c]) = false.
Proof.
  intros Hpos Hlen.
  assert (Htest : (N s <? 0) || (N s >? N s) = false).
  { apply orb_false_iff. rewrite Z.gtb_ltb. split; apply Z.ltb_ge; lia. }
  assert (Hget : getCoeff_inds s [N s] = Undefined).
  { unfold getCoeff_inds. simpl. rewrite Htest.
    rewrite vec_get_out_of_range; [reflexivity | lia]. }
  assert (Hset : setCoeff_inds s [N s] [c] = Undefined).
  { unfold setCoeff_inds. simpl.
    replace (N s =? 0) with false by (symmetry; apply Z.eqb_neq; lia).
    simpl. rewrite Htest.
    rewrite vec_set_out_of_range; [reflexivity | lia]. }
  rewrite Hget, Hset. auto.
Qed.
End Coefficients.

(** Witness of [setCoeff_getCoeff_roundtrip]: [Map(1)], the coefficient
    [(1, -1)] of flat index 1 set to 2. *)
Lemma setCoeff_getCoeff_roundtrip_witness :
  in_bounds example.map1 1 (-1) /\
  (exists s', setCoeff example.map1 1 (-1) 2%float = Return tt s' /\
              getCoeff s' 1 (-1) = Return 2%float s' /\
              y s' = [0%float; 2%float; 0%float; 0%float]).
Proof.
  assert (Hin : in_bounds example.map1 1 (-1)) by (vm_compute; intuition discriminate).
  split; [exact Hin|].
  destruct (setCoeff_in_bounds_returns example.map1 1 (-1) 2%float Hin)
    as [s' Hs']; [vm_compute; discriminate | reflexivity |].
  exists s'. split; [exact Hs'|].
  destruct (proj1 (setCoeff_getCoeff_roundtrip example.map1 1 (-1) 2%float)
              s' Hin Hs') as (Hget & _ & Hy).
  split; [exact Hget | exact Hy].
Defined.

(** Witness of [bulk_accessors_at_index_N]: [Map(1)], index 4. *)
Lemma bulk_accessors_at_index_N_witness :
  0 < N example.map1 /\
  getCoeff_inds example.map1 [N example.map1] = Undefined.
Proof.
  split; [reflexivity|].
  exact (proj1 (bulk_accessors_at_index_N example.map1 0%float
                  eq_refl eq_refl)).
Defined.

(** ** Failed bulk writes and the derived vectors *)

Section Caches.
Context {T : Type} `{Scalar T} `{Cmath T} `{basis.Lib T} `{rotation.Lib T}.

Lemma coherent_update (s : Map T) : coherent (update s).
Proof. split; reflexivity. Qed.

Lemma write_entries_y (s : Map T) (ics : list (Z * T)) :
  y (write_entries s ics) = written (y s) ics.
Proof.
  revert s. induction ics as [|ic ics IH]; intros s; [reflexivity|].
  unfold write_entries, written in *. simpl. now rewrite IH.
Qed.

Lemma write_entries_frame (s : Map T) (ics : list (Z * T)) :
  p (write_entries s ics) = p s /\ g (write_entries s ics) = g s /\
  B (write_entries s ics) = B s /\ axis (write_entries s ics) = axis s /\
  N (write_entries s ics) = N s /\ lmax (write_entries s ics) = lmax s.
Proof.
  revert s. induction ics as [|ic ics IH]; intros s; [now auto 10|].
  unfold write_entries in *. simpl.
  destruct (IH (set_y s (<[Z.to_nat ic.1 := ic.2]> (y s))))
    as (-> & -> & -> & -> & -> & ->).
  now auto 10.
Qed.

Lemma setCoeff_loop_failure (s : Map T) (done rest : list (Z * T))
    (bad : Z * T) (e : error) :
  Forall (fun ic => offence s ic = None /\
                    0 <= ic.1 < Z.of_nat (length (y s))) done ->
  offence s bad = Some e ->
  setCoeff_loop s (done ++ bad :: rest) = Throw e (write_entries s done).
Proof.
  intros Hdone Hbad. revert s Hdone Hbad.
  induction done as [|[i c] done IH]; intros s Hdone Hbad.
  - destruct bad as [i c]. simpl. unfold offence, Y00_guard in Hbad.
    simpl in Hbad.
    destruct ((i =? 0) && Y00_is_unity s && s_neqb c s_one);
      [now injection Hbad as <-|].
    destruct ((i <? 0) || (i >? N s)); [now injection Hbad as <-|].
    discriminate.
  - apply Forall_cons in Hdone as [[Hok Hrange] Hdone].
    simpl in Hrange. simpl. unfold offence, Y00_guard in Hok. simpl in Hok.
    destruct ((i =? 0) && Y00_is_unity s && s_neqb c s_one);
      [discriminate|].
    destruct ((i <? 0) || (i >? N s)); [discriminate|].
    rewrite vec_set_in_range by exact Hrange.
    rewrite (IH (set_y s (<[Z.to_nat i := c]> (y s)))); [reflexivity| |].
    + eapply Forall_impl; [exact Hdone|].
      intros ic [Hoff Hr]. split; [exact Hoff|].
      simpl. rewrite length_insert. exact Hr.
    + exact Hbad.
Qed.

(** The bulk [setCoeff] on a batch whose first offending entry is
    [bad]: it throws, in the state of the loop at that entry. *)
Lemma setCoeff_inds_throws (s : Map T) (done rest : list (Z * T))
    (bad : Z * T) (e : error) :
  Forall (fun ic => offence s ic = None /\
                    0 <= ic.1 < Z.of_nat (length (y s))) done ->
  offence s bad = Some e ->
  setCoeff_inds s ((done ++ bad :: rest).*1) ((done ++ bad :: rest).*2)
    = Throw e (write_entries s done).
Proof.
  intros Hdone Hbad.
  unfold setCoeff_inds. rewrite !length_fmap, Nat.eqb_refl. simpl.
  rewrite zip_fst_snd.
  now rewrite (setCoeff_loop_failure s done rest bad e Hdone Hbad).
Qed.

(** C2: the state a failed bulk [setCoeff] leaves.  When the entries
    [done] are acceptable and the next one, [bad], is an invalid index
    or a write to the fixed constant, the call throws with every entry
    of [done] written into [y], and with [p] and [g] as they were: the
    map is changed as soon as one of these writes changes [y]. *)
Theorem setCoeff_inds_failure_state (s : Map T) (done rest : list (Z * T))
    (bad : Z * T) (e : error) :
  Forall (fun ic => offence s ic = None /\
                    0 <= ic.1 < Z.of_nat (length (y s))) done ->
  offence s bad = Some e ->
  exists s',
    setCoeff_inds s ((done ++ bad :: rest).*1) ((done ++ bad :: rest).*2)
      = Throw e s' /\
    y s' = written (y s) done /\ p s' = p s /\ g s' = g s /\
    (written (y s) done <> y s -> s' <> s).
Proof.
  intros Hdone Hbad. exists (write_entries s done).
  split; [now apply setCoeff_inds_throws|].
  rewrite write_entries_y.
  destruct (write_entries_frame s done) as (-> & -> & _).
  repeat split; try reflexivity.
  intros Hdiff Heq. apply Hdiff.
  rewrite <- write_entries_y. now rewrite Heq.
Qed.

(** C6: a trace on which the derived vectors are stale.  On a coherent
    map with more than one coefficient, the bulk [setCoeff] of the
    indices [1; -1] throws after writing [y(1)]; a [setAxis] that
    follows returns normally, [getP] then returns the vector computed
    from the coefficients of before the write, and the map is not
    coherent whenever [A1] tells the two coefficient vectors apart. *)
Theorem stale_after_failed_setCoeff_inds (s : Map T) (c1 c2 : T)
    (a : UnitVector T) :
  coherent s ->
  1 < N s -> Z.of_nat (length (y s)) = N s ->
  mat_vec (basis.A1 (B s)) (<[1%nat := c1]> (y s))
    <> mat_vec (basis.A1 (B s)) (y s) ->
  exists s1 s2,
    setCoeff_inds s [1; -1] [c1; c2] = Throw (IndexError msg_index) s1 /\
    setAxis s1 a = Return tt s2 /\
    y s2 = <[1%nat := c1]> (y s) /\
    getP s2 = Return (mat_vec (basis.A1 (B s)) (y s)) s2 /\
    ~ coherent s2.
Proof.
  intros [Hp Hg] HN Hlen Hsep.
  pose proof (setCoeff_inds_throws s [(1, c1)] [] (-1, c2)
                (IndexError msg_index)) as Hthrow.
  simpl in Hthrow.
  set (s1 := set_y s (<[1%nat := c1]> (y s))) in *.
  assert (Hy : y s1 = <[1%nat := c1]> (y s)) by reflexivity.
  assert (Hp1 : p s1 = p s) by reflexivity.
  assert (HB : B s1 = B s) by reflexivity.
  exists s1. eexists. split.
  { apply Hthrow.
    - constructor; [|constructor]. split; [|simpl; lia].
      unfold offence, Y00_guard. simpl.
      replace (1 >? N s) with false; [reflexivity|].
      symmetry. rewrite Z.gtb_ltb. apply Z.ltb_ge. lia.
    - unfold offence, Y00_guard. reflexivity. }
  split; [reflexivity|]. cbn [y set_W set_axis].
  split; [exact Hy|].
  split; [unfold getP; cbn [p set_W set_axis]; now rewrite Hp1, Hp|].
  intros [Hcoh _]. cbn [p y B set_W set_axis] in Hcoh.
  rewrite Hp1, Hp, Hy, HB in Hcoh. now apply Hsep.
Qed.
End Caches.

(** Witness of [setCoeff_inds_failure_state]: on [Map(1)], the batch
    [(1, 2); (7, 1)]. *)
Lemma setCoeff_inds_failure_state_witness :
  exists s',
    setCoeff_inds example.map1 [1; 7] [2%float; 1%float]
      = Throw (IndexError msg_index) s' /\
    y s' = [0%float; 2%float; 0%float; 0%float] /\
    p s' = p example.map1 /\ g s' = g example.map1 /\
    (written (y example.map1) [(1, 2%float)] <> y example.map1 ->
     s' <> example.map1).
Proof.
  apply (setCoeff_inds_failure_state example.map1 [(1, 2%float)] []
           (7, 1%float) (IndexError msg_index)).
  - constructor; [|constructor]. split; [reflexivity|]. cbn. lia.
  - reflexivity.
Defined.

(** Witness of [stale_after_failed_setCoeff_inds]: on [Map(1)], whose
    stand-in [A1] is the identity. *)
Lemma stale_after_failed_setCoeff_inds_witness :
  exists s1 s2,
    setCoeff_inds example.map1 [1; -1] [2%float; 1%float]
      = Throw (IndexError msg_index) s1 /\
    setAxis s1 yhat = Return tt s2 /\
    y s2 = <[1%nat := 2%float]> (y example.map1) /\
    getP s2 = Return (mat_vec (basis.A1 (B example.map1)) (y example.map1)) s2 /\
    ~ coherent s2.
Proof.
  apply (stale_after_failed_setCoeff_inds example.map1 2%float 1%float yhat).
  - split; reflexivity.
  - reflexivity.
  - reflexivity.
  - intros Heq.
    apply (f_equal (fun v => match v with
                             | _ :: x :: _ => PrimFloat.eqb x 0%float
                             | _ => true
                             end)) in Heq.
    vm_compute in Heq. discriminate Heq.
Defined.

(** A pair outside the bounds on which [setCoeff] throws ValueError:
    [(0, 1)] on a map whose constant coefficient is fixed.  So not every
    pair outside the bounds raises IndexError. *)
Lemma setCoeff_out_of_bounds_ValueError :
  ~ in_bounds example.map1_unity 0 1 /\
  setCoeff example.map1_unity 0 1 2%float
    = Throw (ValueError msg_Y00) example.map1_unity /\
  throws_IndexError (setCoeff example.map1_unity 0 1 2%float) = false.
Proof.
  split; [|split]; [|reflexivity|reflexivity].
  unfold in_bounds. lia.
Qed.

(** ** Reset, axis, construction *)

Section Housekeeping.
Context {T : Type} `{Scalar T} `{Cmath T} `{basis.Lib T} `{rotation.Lib T}.

(** C9: [reset()] returns on every map that has its constant
    coefficient; it leaves every coefficient zero, the constant one
    being 1 on a map constructed with [Y00_is_unity], and the axis equal
    to [yhat = (0, 1, 0)], whatever axis [setAxis] had installed. *)
Theorem reset_zeroes_and_restores_axis (s : Map T) :
  0 < N s ->
  exists s',
    reset s = Return tt s' /\
    y s' = (if Y00_is_unity s then s_one else s_zero)
             :: replicate (Z.to_nat (N s) - 1) s_zero /\
    axis s' = mkUnit s_zero s_one s_zero /\
    (forall (a : UnitVector T) (s1 : Map T),
       setAxis s a = Return tt s1 ->
       exists s2, reset s1 = Return tt s2 /\ axis s2 = yhat /\ y s2 = y s').
Proof.
  intros HN.
  assert (Hreset : forall s0 : Map T, N s0 = N s ->
            Y00_is_unity s0 = Y00_is_unity s ->
            exists s', reset s0 = Return tt s' /\
              y s' = (if Y00_is_unity s then s_one else s_zero)
                       :: replicate (Z.to_nat (N s) - 1) s_zero /\
              axis s' = yhat).
  { intros s0 HN0 HY0. unfold reset. cbn [Y00_is_unity set_y y].
    rewrite HN0, HY0. unfold Zero.
    destruct (Z.to_nat (N s)) as [|k] eqn:Hk; [lia|].
    replace (S k - 1)%nat with k by lia.
    destruct (Y00_is_unity s).
    - rewrite vec_set_in_range by (rewrite length_replicate; lia).
      simpl. eexists. split; [reflexivity|]. split; reflexivity.
    - eexists. split; [reflexivity|]. split; reflexivity. }
  destruct (Hreset s eq_refl eq_refl) as (s' & Hr & Hy & Ha).
  exists s'. split; [exact Hr|]. split; [exact Hy|]. split; [exact Ha|].
  intros a s1 Hset.
  assert (Hsame : N s1 = N s /\ Y00_is_unity s1 = Y00_is_unity s)
    by (injection Hset as <-; split; reflexivity).
  destruct (Hreset s1 (proj1 Hsame) (proj2 Hsame)) as (s2 & Hr2 & Hy2 & Ha2).
  exists s2. split; [exact Hr2|]. split; [exact Ha2|]. now rewrite Hy2, Hy.
Qed.

(** [setAxis] always returns, and stores the input divided by the
    square root of the sum of its squares: [norm_unit] of [utils.h]. *)
Lemma setAxis_stores_norm_unit (s : Map T) (v : UnitVector T) :
  exists s', setAxis s v = Return tt s' /\ axis s' = norm_unit v /\
             y s' = y s /\ p s' = p s /\ g s' = g s.
Proof. eexists. split; [reflexivity|]. now auto. Qed.

(** The constructor of [Map] itself compares the degree bound with
    nothing.  Whenever the constructors of the basis and of the rotation
    object return for [lmax] and [N] fits an [int],
    [Map(lmax, Y00_is_unity)] returns a map of that degree bound with
    [N = (lmax + 1)^2]; the only case it does not is the write
    [y(0) = 1] into an empty vector, for [lmax = -1] with
    [Y00_is_unity]. *)
Lemma Map_new_checks_no_degree (lmax0 : Z) (Y00 : bool)
    (b : basis.Basis T) (w : rotation.Wigner T) :
  basis.Basis_new lmax0 = inr b ->
  rotation.Wigner_new lmax0 = inr w ->
  Z.abs (lmax0 + 1) <= 46340 ->
  (Y00 = true -> lmax0 <> -1) ->
  exists s,
    Map_new lmax0 Y00 = Return s tt /\
    lmax s = lmax0 /\ N s = (lmax0 + 1) * (lmax0 + 1) /\
    Y00_is_unity s = Y00 /\ B s = b.
Proof.
  intros Hb Hw Habs HY. unfold Map_new.
  replace (is_int (lmax0 + 1) && is_int ((lmax0 + 1) * (lmax0 + 1)) &&
           is_int (4 + (lmax0 + 1) * (lmax0 + 1))) with true.
  2:{ symmetry. unfold is_int, INT_MIN, INT_MAX.
      rewrite !andb_true_iff, !Z.leb_le. nia. }
  simpl. rewrite Hb, Hw. unfold reset. cbn [Y00_is_unity set_y y N].
  destruct Y00.
  - rewrite vec_set_in_range.
    + simpl. eexists. split; [reflexivity|]. now auto.
    + rewrite length_Zero. specialize (HY eq_refl). nia.
  - eexists. split; [reflexivity|]. now auto.
Qed.

End Housekeeping.

(** Witness of [reset_zeroes_and_restores_axis]: [Map(1, true)]. *)
Lemma reset_zeroes_and_restores_axis_witness :
  0 < N example.map1_unity /\
  exists s',
    reset example.map1_unity = Return tt s' /\
    y s' = [1%float; 0%float; 0%float; 0%float] /\
    axis s' = mkUnit 0%float 1%float 0%float.
Proof.
  split; [reflexivity|].
  destruct (reset_zeroes_and_restores_axis example.map1_unity eq_refl)
    as (s' & Hr & Hy & Ha & _).
  exists s'. split; [exact Hr|]. split; [exact Hy | exact Ha].
Defined.


(** The constructor at a negative degree bound, over the stand-in basis
    that tests nothing: [Map(-3)] is a map of four coefficients. *)
Lemma Map_new_negative_degree :
  exists s : Map float,
    Map_new (-3) false = Return s tt /\ lmax s = -3 /\ N s = 4 /\
    y s = [0%float; 0%float; 0%float; 0%float].
Proof. eexists. split; [vm_compute; reflexivity|]. auto. Qed.

(** ** Normalisation of the axis *)

(** The sum of the squares of a vector, in the arithmetic of [T]. *)
Definition norm2 {T : Type} `{Scalar T} (v : UnitVector T) : T :=
  s_add (s_add (s_mul (ux v) (ux v)) (s_mul (uy v) (uy v)))
        (s_mul (uz v) (uz v)).

Lemma real_norm_unit_has_unit_length (v : UnitVector Rdefinitions.R) :
  (ux v <> 0 \/ uy v <> 0 \/ uz v <> 0)%R ->
  norm2 (norm_unit v) = 1%R.
Proof.
  intros Hnz. destruct v as [a b c]. unfold norm2, norm_unit, unit_div.
  cbn [ux uy uz s_add s_mul s_div s_sqrt real.real_Scalar] in *.
  set (q := (a * a + b * b + c * c)%R).
  assert (Hq : (0 < q)%R) by (unfold q; nra).
  assert (Hn : (R_sqrt.sqrt q * R_sqrt.sqrt q = q)%R)
    by (apply sqrt_sqrt; lra).
  assert (Hn0 : (R_sqrt.sqrt q <> 0)%R) by (intros E; rewrite E in Hn; lra).
  transitivity (q / (R_sqrt.sqrt q * R_sqrt.sqrt q))%R.
  - unfold q. field. exact Hn0.
  - rewrite Hn. field. lra.
Qed.

(** C10, as amended: [setAxis] normalises without a guard and never
    raises.  For every input it stores the input divided by the square
    root of the sum of its squares, computed in the scalar type.  In
    exact arithmetic the stored axis of every nonzero vector has unit
    length; in binary64 the zero vector is stored as an all-NaN axis. *)
Theorem setAxis_unguarded_normalization :
  (forall (T : Type) (ST : Scalar T) (LT : rotation.Lib T)
          (s : Map T) (v : UnitVector T),
     exists s', setAxis s v = Return tt s' /\
                axis s' = unit_div v (s_sqrt (norm2 v))) /\
  (forall (LR : rotation.Lib Rdefinitions.R) (s : Map Rdefinitions.R)
          (v : UnitVector Rdefinitions.R),
     (ux v <> 0 \/ uy v <> 0 \/ uz v <> 0)%R ->
     exists s', setAxis s v = Return tt s' /\ norm2 (axis s') = 1%R) /\
  (forall (LF : rotation.Lib float) (s : Map float),
     exists s', setAxis s (mkUnit 0%float 0%float 0%float) = Return tt s' /\
                axis s' = mkUnit PrimFloat.nan PrimFloat.nan PrimFloat.nan).
Proof.
  split; [|split].
  - intros T ST LT s v. eexists. split; [reflexivity|]. reflexivity.
  - intros LR s v Hnz. eexists. split; [reflexivity|].
    cbn [axis set_W set_axis]. now apply real_norm_unit_has_unit_length.
  - intros LF s. eexists. split; [reflexivity|].
    cbn [axis set_W set_axis]. vm_compute. reflexivity.
Qed.

(** Witness of [setAxis_unguarded_normalization]: over the reals, the
    axis [(3, 0, 4)]. *)
Lemma setAxis_unguarded_normalization_witness :
  (ux (mkUnit 3 0 4) <> 0 \/ uy (mkUnit 3 0 4) <> 0 \/ uz (mkUnit 3 0 4) <> 0)%R /\
  exists s', setAxis example.real_map0 (mkUnit 3%R 0%R 4%R) = Return tt s' /\
             norm2 (axis s') = 1%R.
Proof.
  assert (Hnz : (ux (mkUnit 3 0 4) <> 0 \/ uy (mkUnit 3 0 4) <> 0 \/
                 uz (mkUnit 3 0 4) <> 0)%R) by (left; simpl; lra).
  split; [exact Hnz|].
  exact (proj1 (proj2 setAxis_unguarded_normalization) _ example.real_map0
           (mkUnit 3%R 0%R 4%R) Hnz).
Defined.

(** A nonzero vector that [setAxis] does not normalise, in binary64: the
    square of [2^-600] underflows to zero, the computed norm is zero, and
    the stored axis is [(infinity, NaN, NaN)]. *)
Lemma setAxis_nonzero_vector_not_normalized :
  PrimFloat.eqb 0x1p-600%float 0%float = false /\
  exists s',
    setAxis example.map1 (mkUnit 0x1p-600%float 0%float 0%float)
      = Return tt s' /\
    axis s' = mkUnit PrimFloat.infinity PrimFloat.nan PrimFloat.nan /\
    PrimFloat.is_nan (norm2 (axis s')) = true.
Proof.
  split; [vm_compute; reflexivity|].
  eexists. split; [reflexivity|].
  split; vm_compute; reflexivity.
Qed.

(** ** The polynomial basis *)

Section PolyBasisFacts.
Context {V : Type} `{Scalar V} `{Cmath V}.

Lemma length_lm_pairs_nat (k : nat) :
  length (lm_pairs (Z.of_nat k - 1)) = (k * k)%nat.
Proof.
  unfold lm_pairs. replace (Z.of_nat k - 1 + 1) with (Z.of_nat k) by lia.
  induction k as [|k IH]; [reflexivity|].
  rewrite seqZ_S, bind_app, length_app, IH. simpl.
  rewrite app_nil_r, length_fmap, length_seqZ. lia.
Qed.

Lemma length_lm_pairs (lmax : Z) :
  -1 <= lmax ->
  Z.of_nat (length (lm_pairs lmax)) = (lmax + 1) * (lmax + 1).
Proof.
  intros Hl. replace lmax with (Z.of_nat (Z.to_nat (lmax + 1)) - 1) at 1
    by lia.
  rewrite length_lm_pairs_nat, Nat2Z.inj_mul, Z2Nat.id by lia. reflexivity.
Qed.

(** The loops write their values one after the other from the counter
    on. *)
Lemma poly_fold_writes (x0 y0 z0 : V) (pairs : list (Z * Z)) (n : nat)
    (buf : list V) :
  (n + length pairs <= length buf)%nat ->
  fold_left (poly_step x0 y0 z0) pairs (n, buf) =
    ((n + length pairs)%nat,
     take n buf ++ ((fun lm => poly_term x0 y0 z0 lm.1 lm.2) <$> pairs)
       ++ drop (n + length pairs) buf).
Proof.
  revert n buf. induction pairs as [|lm pairs IH]; intros n buf Hlen.
  - simpl. rewrite Nat.add_0_r, take_drop. reflexivity.
  - simpl in Hlen. simpl fold_left. unfold poly_step at 2. simpl fst. simpl snd.
    rewrite IH by (rewrite length_insert; lia).
    f_equal; [simpl; lia|].
    rewrite (take_S_r _ n (poly_term x0 y0 z0 lm.1 lm.2))
      by (apply list_lookup_insert_eq; lia).
    rewrite take_insert_ge by lia.
    rewrite drop_insert_lt by lia.
    rewrite <- app_assoc. simpl.
    replace (S (n + length pairs)) with (n + S (length pairs))%nat by lia.
    reflexivity.
Qed.

(** On a buffer of [(lmax + 1)^2] entries, [poly_basis] leaves the
    values of the basis polynomials at the point, whatever the buffer
    held. *)
Lemma poly_basis_fills (lmax : Z) (x0 y0 : V) (buf : list V) :
  -1 <= lmax ->
  Z.of_nat (length buf) = (lmax + 1) * (lmax + 1) ->
  poly_basis lmax x0 y0 buf = poly_values lmax x0 y0.
Proof.
  intros Hl Hlen. pose proof (length_lm_pairs lmax Hl) as Hpairs.
  unfold poly_basis, poly_values.
  rewrite poly_fold_writes by lia. simpl.
  rewrite drop_ge by lia. now rewrite app_nil_r.
Qed.
End PolyBasisFacts.

(** ** Intensity *)

Section Intensity.
Context {T : Type} `{Scalar T} `{Cmath T} `{basis.Lib T} `{rotation.Lib T}.

Lemma same_base_refl (s : Map T) : same_base s s.
Proof. repeat split. Qed.

Lemma evaluate_with_gradient_generic_frame (s : Map T) (theta x0 y0 : T) :
  exists v s', evaluate_with_gradient_generic s theta x0 y0 = Return v s' /\
               same_base s s'.
Proof.
  unfold evaluate_with_gradient_generic.
  destruct (s_eqb (radians theta) (s_of_Z 0));
    (destruct (outside_disk x0 y0);
     [eexists _, _; split; [reflexivity | repeat split]|]);
    match goal with
    | |- context [fold_left ?f ?l ?a] =>
        destruct (fold_left f l a) as [[g1 g2] col]
    end;
    eexists _, _; (split; [reflexivity | repeat split]).
Qed.

Lemma evaluate_plain (s : Map T) (theta x0 y0 : T) :
  exists s',
    evaluate s theta x0 y0 false =
      Return (if outside_disk x0 y0 then c_NAN
              else dot (poly_basis (lmax s) x0 y0 (tmp_col_vec s))
                       (viewed s theta)) s' /\
    same_base s s'.
Proof.
  unfold evaluate, viewed.
  destruct (s_eqb (radians theta) (s_of_Z 0));
    destruct (outside_disk x0 y0);
    eexists; (split; [reflexivity | repeat split]).
Qed.

(** C7: [evaluate] does not touch the base state.  For every angle and
    point, with or without the gradient, the call returns or throws
    (never more), and the state it leaves has the coefficient vector
    [y], the derived vectors [p] and [g] and the axis of the state it
    found. *)
Theorem evaluate_leaves_base_state (s : Map T) (theta x0 y0 : T)
    (compute_gradient : bool) :
  exists s',
    final_state (evaluate s theta x0 y0 compute_gradient) = Some s' /\
    y s' = y s /\ p s' = p s /\ g s' = g s /\ axis s' = axis s.
Proof.
  destruct compute_gradient.
  - unfold evaluate, evaluate_with_gradient.
    destruct s_is_Multi.
    + exists s. now auto.
    + destruct (evaluate_with_gradient_generic_frame s theta x0 y0)
        as (v & s' & -> & Hy & Hp & Hg & Ha & _).
      exists s'. now auto.
  - destruct (evaluate_plain s theta x0 y0)
      as (s' & -> & Hy & Hp & Hg & Ha & _).
    exists s'. now auto.
Qed.
End Intensity.

(** In binary64 a value that is at most one is not greater than one: the
    points with [x0*x0 + y0*y0 <= 1] are points where the test of
    [evaluate] fails. *)
Lemma double_leb_not_ltb (a b : float) :
  PrimFloat.leb a b = true -> PrimFloat.ltb b a = false.
Proof.
  rewrite leb_spec, ltb_spec. unfold SFleb, SFltb.
  generalize (Prim2SF a) (Prim2SF b). intros x y0.
  destruct x as [sx|sx| |sx mx ex], y0 as [sy|sy| |sy my ey]; simpl;
    try discriminate; try reflexivity;
    repeat match goal with sg : bool |- _ => destruct sg end; simpl;
    try discriminate; try reflexivity.
  all: rewrite (Z.compare_antisym ex ey); destruct (ex ?= ey)%Z; simpl;
    try discriminate; try reflexivity.
  all: change (PosDef.Pos.compare_cont Eq my mx) with (Pos.compare my mx);
    change (PosDef.Pos.compare_cont Eq mx my) with (Pos.compare mx my);
    rewrite (Pos.compare_antisym mx my); destruct (Pos.compare mx my); simpl;
    try discriminate; try reflexivity.
Qed.

Lemma double_inside_disk (x0 y0 : float) :
  PrimFloat.leb (PrimFloat.add (PrimFloat.mul x0 x0) (PrimFloat.mul y0 y0))
    1%float = true ->
  outside_disk x0 y0 = false.
Proof. intros Hle. now apply double_leb_not_ltb. Qed.

(** ** Sizes *)

Section Sizes.
Context {T : Type} `{Scalar T} `{Cmath T} `{basis.Lib T} `{rotation.Lib T}.

Lemma length_set_segment (v w : Vector T) (start : Z) :
  (Z.to_nat start + length w <= length v)%nat ->
  length (set_segment v start w) = length v.
Proof.
  intros Hfit. unfold set_segment.
  rewrite !length_app, length_take, length_drop. lia.
Qed.

Lemma length_rotate_inplace (blocks : list (Matrix T)) (lmax0 : Z)
    (v : Vector T) :
  (forall l, 0 <= l <= lmax0 ->
     Z.of_nat (length (rotation.block blocks l)) = 2 * l + 1) ->
  (lmax0 + 1) * (lmax0 + 1) <= Z.of_nat (length v) ->
  length (rotation.rotate_inplace blocks lmax0 v) = length v.
Proof.
  intros Hblocks Hlen. unfold rotation.rotate_inplace.
  assert (Hall : Forall (fun l => 0 <= l <= lmax0) (seqZ 0 (lmax0 + 1))).
  { apply Forall_seqZ. intros l Hl. lia. }
  revert v Hlen. induction Hall as [|l ls Hl _ IH]; intros v Hlen;
    [reflexivity|].
  simpl. rewrite IH.
  - apply length_set_segment. rewrite length_mat_vec.
    specialize (Hblocks l Hl). nia.
  - rewrite length_set_segment; [exact Hlen|].
    rewrite length_mat_vec. specialize (Hblocks l Hl). nia.
Qed.

Lemma shaped_update (lmax0 : Z) (s : Map T) :
  lmax s = lmax0 ->
  N s = (lmax s + 1) * (lmax s + 1) ->
  Z.of_nat (length (y s)) = N s ->
  Z.of_nat (length (basis.A1 (B s))) = N s ->
  Z.of_nat (length (basis.A (B s))) = N s ->
  shaped lmax0 (update s).
Proof.
  intros Hl HN Hy HA1 HA. unfold shaped, sized, update.
  cbn [lmax N y p g B set_W set_g set_p].
  rewrite !length_mat_vec. auto 10.
Qed.

Lemma setCoeff_loop_shaped (lmax0 : Z) (ics : list (Z * T)) (s s' : Map T) :
  shaped lmax0 s ->
  final_state (setCoeff_loop s ics) = Some s' ->
  shaped lmax0 s'.
Proof.
  revert s. induction ics as [|[i c] ics IH]; intros s Hs Hfin.
  - simpl in Hfin. now injection Hfin as <-.
  - simpl in Hfin.
    destruct ((i =? 0) && Y00_is_unity s && s_neqb c s_one);
      [simpl in Hfin; now injection Hfin as <-|].
    destruct ((i <? 0) || (i >? N s));
      [simpl in Hfin; now injection Hfin as <-|].
    destruct (vec_set (y s) i c) as [v|] eqn:Hset; [|discriminate].
    apply (IH (set_y s v)); [|exact Hfin].
    destruct Hs as (Hl & (HN & Hy & Hp & Hg) & HA1 & HA).
    unfold shaped, sized. cbn [lmax N y p g B set_y].
    rewrite (vec_set_length _ _ _ _ Hset). auto 10.
Qed.

Lemma shaped_same_base (lmax0 : Z) (s s' : Map T) :
  shaped lmax0 s -> same_base s s' -> shaped lmax0 s'.
Proof.
  intros (Hl & (HN & Hy & Hp & Hg) & HA1 & HA)
         (Ey & Ep & Eg & _ & El & EN & EB & _).
  unfold shaped, sized. rewrite Ey, Ep, Eg, El, EN, EB. auto 10.
Qed.

(** Every public call keeps the sizes, whether it returns or throws. *)
Lemma shaped_after (lmax0 : Z) (c : call) (s s' : Map T) :
  rotation.shape_ok ->
  shaped lmax0 s -> after c s = Some s' -> shaped lmax0 s'.
Proof.
  intros Hrot Hs Hafter.
  pose proof Hs as (Hl & (HN & Hy & Hp & Hg) & HA1 & HA).
  unfold after in Hafter. destruct c; simpl in Hafter.
  - (* reset *)
    unfold reset in Hafter. cbn [Y00_is_unity set_y y] in Hafter.
    assert (Hz : Z.of_nat (length (Zero (T := T) (N s))) = N s)
      by (rewrite length_Zero; nia).
    destruct (Y00_is_unity s).
    + destruct (vec_set (Zero (N s)) 0 s_one) as [v|] eqn:Hset;
        [|discriminate].
      simpl in Hafter. injection Hafter as <-.
      apply shaped_update; cbn [lmax N y B set_axis set_y]; auto.
      now rewrite (vec_set_length _ _ _ _ Hset).
    + simpl in Hafter. injection Hafter as <-.
      apply shaped_update; cbn [lmax N y B set_axis set_y]; auto.
  - (* setCoeff *)
    rewrite setCoeff_cases in Hafter.
    destruct (Y00_guard s l coeff);
      [simpl in Hafter; now injection Hafter as <-|].
    destruct ((0 <=? l) && (l <=? lmax s) && (- l <=? m) && (m <=? l));
      [|simpl in Hafter; now injection Hafter as <-].
    destruct (vec_set (y s) (l * l + l + m) coeff) as [v|] eqn:Hset;
      [|discriminate].
    simpl in Hafter. injection Hafter as <-.
    apply shaped_update; cbn [lmax N y B set_y]; auto.
    now rewrite (vec_set_length _ _ _ _ Hset).
  - (* bulk setCoeff *)
    unfold setCoeff_inds in Hafter.
    destruct (negb (length inds =? length coeffs)%nat);
      [simpl in Hafter; now injection Hafter as <-|].
    destruct (setCoeff_loop s (zip inds coeffs)) as [[] s1|e s1|] eqn:Hloop;
      [| |discriminate].
    + simpl in Hafter. injection Hafter as <-.
      assert (Hs1 : shaped lmax0 s1)
        by (apply (setCoeff_loop_shaped lmax0 (zip inds coeffs) s);
            [exact Hs | now rewrite Hloop]).
      destruct Hs1 as (Hl1 & (HN1 & Hy1 & _ & _) & HA11 & HA12).
      apply shaped_update; auto.
    + simpl in Hafter. injection Hafter as <-.
      apply (setCoeff_loop_shaped lmax0 (zip inds coeffs) s);
        [exact Hs | now rewrite Hloop].
  - (* getCoeff *)
    unfold getCoeff in Hafter.
    destruct ((0 <=? l) && (l <=? lmax s) && (- l <=? m) && (m <=? l));
      [|simpl in Hafter; now injection Hafter as <-].
    destruct (vec_get (y s) (l * l + l + m)); [|discriminate].
    simpl in Hafter. now injection Hafter as <-.
  - (* bulk getCoeff *)
    unfold getCoeff_inds in Hafter.
    assert (Hloop : forall acc,
              final_state (forget (getCoeff_loop s inds acc)) = Some s' ->
              s' = s).
    { clear Hafter. induction inds as [|i inds IH]; intros acc Hfin.
      - simpl in Hfin. now injection Hfin.
      - simpl in Hfin. destruct ((i <? 0) || (i >? N s));
          [simpl in Hfin; now injection Hfin|].
        destruct (vec_get (y s) i); [|discriminate].
        now apply IH with (acc ++ [t]). }
    now rewrite (Hloop [] Hafter).
  - (* setAxis *)
    injection Hafter as <-. unfold shaped, sized.
    cbn [lmax N y p g B set_W set_axis]. auto 10.
  - injection Hafter as <-. exact Hs.
  - injection Hafter as <-. exact Hs.
  - injection Hafter as <-. exact Hs.
  - injection Hafter as <-. exact Hs.
  - injection Hafter as <-. exact Hs.
  - (* rotate *)
    injection Hafter as <-.
    apply shaped_update; cbn [lmax N y B set_y set_W]; auto.
    unfold rotation.rotate_self. cbn [snd].
    rewrite length_rotate_inplace; [exact Hy| |lia].
    intros l Hl0. unfold rotation.block.
    destruct (Hrot (lmax s) (axis s) (c_cos (radians theta_deg))
                (c_sin (radians theta_deg)) (W s) l Hl0)
      as (blk & -> & Hblk).
    exact Hblk.
  - (* evaluate *)
    destruct compute_gradient.
    + unfold evaluate, evaluate_with_gradient in Hafter.
      destruct s_is_Multi; [simpl in Hafter; now injection Hafter as <-|].
      destruct (evaluate_with_gradient_generic_frame s theta_deg x0 y0)
        as (v & s1 & Hev & Hbase).
      rewrite Hev in Hafter. simpl in Hafter. injection Hafter as <-.
      now apply (shaped_same_base lmax0 s).
    + destruct (evaluate_plain s theta_deg x0 y0) as (s1 & Hev & Hbase).
      rewrite Hev in Hafter. simpl in Hafter. injection Hafter as <-.
      now apply (shaped_same_base lmax0 s).
Qed.

Lemma shaped_Map_new (lmax0 : Z) (Y00 : bool) (s : Map T) :
  basis.shape_ok ->
  Map_new lmax0 Y00 = Return s tt -> shaped lmax0 s.
Proof.
  intros Hbasis. unfold Map_new.
  destruct (negb _); [discriminate|].
  destruct (basis.Basis_new lmax0) as [e|b] eqn:Hb; [discriminate|].
  destruct (rotation.Wigner_new lmax0) as [e|w]; [discriminate|].
  destruct (Hbasis lmax0 b Hb) as [HA1 HA].
  assert (Hz : Z.of_nat (length (Zero (T := T) ((lmax0 + 1) * (lmax0 + 1))))
               = (lmax0 + 1) * (lmax0 + 1))
    by (rewrite length_Zero; nia).
  unfold reset. cbn [Y00_is_unity set_y y N].
  destruct Y00.
  - destruct (vec_set _ 0 s_one) as [v|] eqn:Hset; [|discriminate].
    simpl. intros [= <-].
    apply shaped_update; cbn [lmax N y B set_axis set_y]; auto.
    now rewrite (vec_set_length _ _ _ _ Hset).
  - intros [= <-].
    apply shaped_update; cbn [lmax N y B set_axis set_y]; auto.
Qed.

(** C8: on every constructed map, at any point of its life, the number
    of coefficients is [N = (lmax + 1)^2] for the degree bound it was
    constructed with, and [y], [p] and [g] have [N] entries.  The basis
    and the rotation blocks are taken of the sizes the spec gives them. *)
Theorem sizes_are_fixed (lmax0 : Z) (Y00 : bool) (cs : list call)
    (s0 s : Map T) :
  basis.shape_ok -> rotation.shape_ok ->
  Map_new lmax0 Y00 = Return s0 tt ->
  after_all cs s0 = Some s ->
  lmax s = lmax0 /\ N s = (lmax0 + 1) * (lmax0 + 1) /\
  Z.of_nat (length (y s)) = N s /\
  Z.of_nat (length (p s)) = N s /\
  Z.of_nat (length (g s)) = N s.
Proof.
  intros Hbasis Hrot Hnew Hcalls.
  assert (Hs : shaped lmax0 s).
  { pose proof (shaped_Map_new lmax0 Y00 s0 Hbasis Hnew) as Hs0.
    clear Hnew. revert s0 Hs0 Hcalls.
    induction cs as [|c cs IH]; intros s0 Hs0 Hcalls.
    - simpl in Hcalls. now injection Hcalls as <-.
    - simpl in Hcalls. destruct (after c s0) as [s1|] eqn:Hc; [|discriminate].
      apply (IH s1); [|exact Hcalls].
      now apply (shaped_after lmax0 c s0). }
  destruct Hs as (Hl & (HN & Hy & Hp & Hg) & _).
  rewrite Hl in HN. auto.
Qed.
End Sizes.

Lemma identity_basis_shape_ok : basis.shape_ok (T := float).
Proof.
  intros lmax0 b Hb. injection Hb as <-. simpl. unfold double.identity.
  rewrite length_map, length_seq. nia.
Qed.

Lemma identity_rotation_shape_ok : rotation.shape_ok (T := float).
Proof.
  intros lmax0 a c sn w l Hl. simpl. unfold double.identity_blocks.
  exists (double.identity (Z.to_nat (2 * l + 1))). split.
  - rewrite list_lookup_fmap, lookup_seqZ_lt by lia. simpl.
    do 2 f_equal. lia.
  - unfold double.identity. rewrite length_map, length_seq. lia.
Qed.

(** Witness of [sizes_are_fixed]: [Map(1)] after a write, a rotation, a
    bulk write that throws half way, and a call of [evaluate]. *)
Lemma sizes_are_fixed_witness :
  exists s,
    after_all [call_setCoeff 1 0 2%float; call_rotate 90%float;
               call_setCoeff_inds [1; 7] [3%float; 1%float];
               call_evaluate 30%float 0.5%float 0.25%float true]
      example.map1 = Some s /\
    lmax s = 1 /\ N s = 4 /\
    Z.of_nat (length (y s)) = N s /\
    Z.of_nat (length (p s)) = N s /\
    Z.of_nat (length (g s)) = N s.
Proof.
  assert (Hnew : Map_new 1 false = Return example.map1 tt)
    by (vm_compute; reflexivity).
  destruct (after_all _ example.map1) as [s|] eqn:Hrun;
    [|vm_compute in Hrun; discriminate Hrun].
  exists s. split; [reflexivity|].
  exact (sizes_are_fixed 1 false _ example.map1 s identity_basis_shape_ok
           identity_rotation_shape_ok Hnew Hrun).
Defined.

(** ** Coherence on the traces without exception *)

Section Coherence.
Context {T : Type} `{Scalar T} `{Cmath T} `{basis.Lib T} `{rotation.Lib T}.

Lemma coherent_same_base (s s' : Map T) :
  coherent s -> same_base s s' -> coherent s'.
Proof.
  intros [Hp Hg] (Ey & Ep & Eg & _ & _ & _ & EB & _).
  unfold coherent. now rewrite Ey, Ep, Eg, EB.
Qed.

(** A call that returns keeps [p = A1 y] and [g = A y]. *)
Lemma coherent_after_return (c : call) (s s' : Map T) :
  coherent s -> run c s = Return tt s' -> coherent s'.
Proof.
  intros Hs Hrun. destruct c; simpl in Hrun.
  - unfold reset in Hrun.
    destruct (if Y00_is_unity _ then _ else _); [|discriminate].
    injection Hrun as <-. apply coherent_update.
  - rewrite setCoeff_cases in Hrun.
    destruct (Y00_guard s l coeff); [discriminate|].
    destruct ((0 <=? l) && (l <=? lmax s) && (- l <=? m) && (m <=? l));
      [|discriminate].
    destruct (vec_set _ _ _); [|discriminate].
    injection Hrun as <-. apply coherent_update.
  - unfold setCoeff_inds in Hrun.
    destruct (negb _); [discriminate|].
    destruct (setCoeff_loop _ _); try discriminate.
    injection Hrun as <-. apply coherent_update.
  - unfold getCoeff in Hrun.
    destruct ((0 <=? l) && (l <=? lmax s) && (- l <=? m) && (m <=? l));
      [|discriminate].
    destruct (vec_get _ _); [|discriminate].
    simpl in Hrun. now injection Hrun as <-.
  - unfold getCoeff_inds in Hrun.
    assert (Hloop : forall acc,
              forget (getCoeff_loop s inds acc) = Return tt s' -> s' = s).
    { clear Hrun. induction inds as [|i inds IH]; intros acc Hfin.
      - simpl in Hfin. now injection Hfin.
      - simpl in Hfin. destruct ((i <? 0) || (i >? N s)); [discriminate|].
        destruct (vec_get (y s) i); [|discriminate].
        now apply IH with (acc ++ [t]). }
    now rewrite (Hloop [] Hrun).
  - injection Hrun as <-. destruct Hs as [Hp Hg]. split; assumption.
  - now injection Hrun as <-.
  - now injection Hrun as <-.
  - now injection Hrun as <-.
  - now injection Hrun as <-.
  - now injection Hrun as <-.
  - injection Hrun as <-. apply coherent_update.
  - destruct compute_gradient.
    + unfold evaluate, evaluate_with_gradient in Hrun.
      destruct s_is_Multi; [discriminate|].
      destruct (evaluate_with_gradient_generic_frame s theta_deg x0 y0)
        as (v & s1 & Hev & Hbase).
      rewrite Hev in Hrun. injection Hrun as <-.
      now apply (coherent_same_base s).
    + destruct (evaluate_plain s theta_deg x0 y0) as (s1 & Hev & Hbase).
      rewrite Hev in Hrun. injection Hrun as <-.
      now apply (coherent_same_base s).
Qed.

Lemma coherent_Map_new (lmax0 : Z) (Y00 : bool) (s : Map T) :
  Map_new lmax0 Y00 = Return s tt -> coherent s.
Proof.
  unfold Map_new. destruct (negb _); [discriminate|].
  destruct (basis.Basis_new lmax0); [discriminate|].
  destruct (rotation.Wigner_new lmax0); [discriminate|].
  unfold reset. destruct (if Y00_is_unity _ then _ else _); [|discriminate].
  intros [= <-]. apply coherent_update.
Qed.

(** As long as no call throws, the derived vectors of a constructed map
    agree with its coefficients. *)
Lemma coherent_while_no_exception (lmax0 : Z) (Y00 : bool)
    (cs : list call) (s0 s : Map T) :
  Map_new lmax0 Y00 = Return s0 tt ->
  run_all cs s0 = Return tt s ->
  coherent s.
Proof.
  intros Hnew. apply coherent_Map_new in Hnew. revert s0 Hnew.
  induction cs as [|c cs IH]; intros s0 Hs0 Hrun.
  - simpl in Hrun. now injection Hrun as <-.
  - simpl in Hrun. destruct (run c s0) as [[] s1|e s1|] eqn:Hc;
      try discriminate.
    apply (IH s1); [|exact Hrun]. now apply (coherent_after_return c s0).
Qed.
End Coherence.

(** * Further properties of [maps.h] *)

(** ** The flat index *)

Section FlatIndex.

(** The coefficients of degree [l] occupy the flat indices from [l^2] to
    [(l + 1)^2 - 1]. *)
Lemma flat_index_range (lmax0 l m : Z) :
  0 <= l <= lmax0 -> - l <= m <= l ->
  l * l <= l * l + l + m < (l + 1) * (l + 1) /\
  (l + 1) * (l + 1) <= (lmax0 + 1) * (lmax0 + 1).
Proof. intros Hl Hm. nia. Qed.

Lemma flat_index_degree (l m l' m' : Z) :
  0 <= l -> - l <= m <= l -> 0 <= l' -> - l' <= m' <= l' ->
  l * l + l + m = l' * l' + l' + m' -> l = l'.
Proof.
  intros Hl Hm Hl' Hm' Heq.
  destruct (Z.lt_trichotomy l l') as [Hlt|[Heq'|Hgt]]; [|exact Heq'|].
  - assert ((l + 1) * (l + 1) <= l' * l') by nia. nia.
  - assert ((l' + 1) * (l' + 1) <= l * l) by nia. nia.
Qed.

Lemma lm_pairs_snoc (k : nat) :
  lm_pairs (Z.of_nat (S k) - 1) =
    lm_pairs (Z.of_nat k - 1) ++
    ((fun m => (Z.of_nat k, m)) <$> seqZ (- Z.of_nat k) (2 * Z.of_nat k + 1)).
Proof.
  unfold lm_pairs.
  replace (Z.of_nat (S k) - 1 + 1) with (Z.of_nat (S k)) by lia.
  replace (Z.of_nat k - 1 + 1) with (Z.of_nat k) by lia.
  rewrite seqZ_S, bind_app. simpl. now rewrite app_nil_r.
Qed.

Lemma lm_pairs_lookup_nat (k : nat) (l m : Z) :
  0 <= l < Z.of_nat k -> - l <= m <= l ->
  lm_pairs (Z.of_nat k - 1) !! Z.to_nat (l * l + l + m) = Some (l, m).
Proof.
  induction k as [|k IH]; intros Hl Hm; [lia|].
  rewrite lm_pairs_snoc.
  destruct (Z.eq_dec l (Z.of_nat k)) as [->|Hne].
  - rewrite lookup_app_r by (rewrite length_lm_pairs_nat; nia).
    rewrite length_lm_pairs_nat, list_lookup_fmap.
    replace (Z.to_nat (Z.of_nat k * Z.of_nat k + Z.of_nat k + m) - k * k)%nat
      with (Z.to_nat (Z.of_nat k + m)) by nia.
    rewrite lookup_seqZ_lt by lia. simpl. do 2 f_equal. lia.
  - rewrite lookup_app_l by (rewrite length_lm_pairs_nat; nia).
    apply IH; lia.
Qed.

Lemma lm_pairs_lookup_inv_nat (k n : nat) (l m : Z) :
  lm_pairs (Z.of_nat k - 1) !! n = Some (l, m) ->
  0 <= l < Z.of_nat k /\ - l <= m <= l /\ Z.of_nat n = l * l + l + m.
Proof.
  revert n. induction k as [|k IH]; intros n Hn; [discriminate|].
  rewrite lm_pairs_snoc in Hn.
  apply lookup_app_Some in Hn as [Hn|[Hge Hn]].
  - destruct (IH n Hn) as (? & ? & ?). lia.
  - rewrite length_lm_pairs_nat in Hge, Hn.
    rewrite list_lookup_fmap in Hn.
    destruct (seqZ (- Z.of_nat k) (2 * Z.of_nat k + 1) !! (n - k * k)%nat)
      as [m'|] eqn:Hm'; [|discriminate].
    simpl in Hn. injection Hn as <- <-.
    apply lookup_seqZ in Hm' as [-> Hlt]. nia.
Qed.

(** X1: the pairs [(l, m)] of a degree bound and the flat indices
    [0 .. N - 1] correspond one to one through [n = l*l + l + m], and the
    loops over [l] and [m] meet the pairs in the order of their indices:
    the counter [n] of [poly_basis] and of the name tables is the index
    [setCoeff] and [getCoeff] compute. *)
Theorem flat_index_bijection (lmax0 : Z) :
  -1 <= lmax0 ->
  (forall l m, 0 <= l <= lmax0 -> - l <= m <= l ->
     0 <= l * l + l + m < (lmax0 + 1) * (lmax0 + 1) /\
     lm_pairs lmax0 !! Z.to_nat (l * l + l + m) = Some (l, m)) /\
  (forall n, 0 <= n < (lmax0 + 1) * (lmax0 + 1) ->
     exists l m, 0 <= l <= lmax0 /\ - l <= m <= l /\ n = l * l + l + m) /\
  (forall l m l' m',
     0 <= l -> - l <= m <= l -> 0 <= l' -> - l' <= m' <= l' ->
     l * l + l + m = l' * l' + l' + m' -> l = l' /\ m = m').
Proof.
  intros Hlmax.
  replace lmax0 with (Z.of_nat (Z.to_nat (lmax0 + 1)) - 1) by lia.
  set (k := Z.to_nat (lmax0 + 1)).
  split; [|split].
  - intros l m Hl Hm. split; [nia|].
    apply lm_pairs_lookup_nat; lia.
  - intros n Hn.
    destruct (lookup_lt_is_Some_2 (lm_pairs (Z.of_nat k - 1)) (Z.to_nat n))
      as [[l m] Hlm]; [rewrite length_lm_pairs_nat; nia|].
    apply lm_pairs_lookup_inv_nat in Hlm as (Hl & Hm & Hidx).
    exists l, m. split; [lia|]. split; [exact Hm | lia].
  - intros l m l' m' Hl Hm Hl' Hm' Heq.
    assert (l = l') by now apply (flat_index_degree l m l' m').
    subst l'. split; [reflexivity | lia].
Qed.
End FlatIndex.

(** Witness of [flat_index_bijection]: the degree bound 2. *)
Lemma flat_index_bijection_witness :
  lm_pairs 2 !! Z.to_nat (2 * 2 + 2 + -1) = Some (2, -1) /\
  exists l m, 0 <= l <= 2 /\ - l <= m <= l /\ 7 = l * l + l + m.
Proof.
  assert (H2 : -1 <= 2) by lia.
  split.
  - apply (proj1 (flat_index_bijection 2 H2)); lia.
  - apply (proj1 (proj2 (flat_index_bijection 2 H2))). lia.
Defined.

(** ** Reading and writing coefficients *)

Section CoefficientAccess.
Context {T : Type} `{Scalar T} `{Cmath T} `{basis.Lib T} `{rotation.Lib T}.

Lemma getCoeff_loop_reads (s : Map T) (inds : list Z) (vs acc : Vector T) :
  Forall2 (fun n v => vec_get (y s) n = Some v /\ n <= N s) inds vs ->
  getCoeff_loop s inds acc = Return (acc ++ vs) s.
Proof.
  intros Hall. revert acc.
  induction Hall as [|n v inds vs [Hget Hn] _ IH]; intros acc; simpl.
  - now rewrite app_nil_r.
  - assert (Hlo : 0 <= n).
    { unfold vec_get in Hget. destruct (0 <=? n) eqn:E; [|discriminate].
      now apply Z.leb_le. }
    replace ((n <? 0) || (n >? N s)) with false
      by (symmetry; apply orb_false_iff; split;
          [apply Z.ltb_ge | rewrite Z.gtb_ltb; apply Z.ltb_ge]; lia).
    rewrite Hget, IH. now rewrite <- app_assoc.
Qed.

Lemma getCoeff_loop_state (s s' : Map T) (inds : list Z) (acc : Vector T) :
  final_state (getCoeff_loop s inds acc) = Some s' -> s' = s.
Proof.
  revert acc. induction inds as [|i inds IH]; intros acc Hfin.
  - simpl in Hfin. now injection Hfin.
  - simpl in Hfin. destruct ((i <? 0) || (i >? N s));
      [simpl in Hfin; now injection Hfin|].
    destruct (vec_get (y s) i); [|discriminate].
    now apply IH with (acc ++ [t]).
Qed.

(** X2: the bulk [getCoeff] on indices inside [0, N) returns the
    coefficients at these indices, in the order asked (an index may come
    twice), and no call of [getCoeff], in either form and whether it
    returns or throws, changes the map. *)
Theorem getCoeff_inds_reads (s : Map T) (inds : list Z) :
  Z.of_nat (length (y s)) = N s ->
  (Forall (fun n => 0 <= n < N s) inds ->
   exists vs, getCoeff_inds s inds = Return vs s /\
              Forall2 (fun n v => vec_get (y s) n = Some v) inds vs) /\
  (forall s', final_state (getCoeff_inds s inds) = Some s' -> s' = s) /\
  (forall l m s', final_state (getCoeff s l m) = Some s' -> s' = s).
Proof.
  intros Hlen. split; [|split].
  - intros Hall.
    assert (Hvs : exists vs,
              Forall2 (fun n v => vec_get (y s) n = Some v /\ n <= N s)
                inds vs).
    { induction Hall as [|n inds Hn _ [vs IH]]; [exists []; constructor|].
      destruct (vec_get_in_range (y s) n) as [v Hv]; [lia|].
      exists (v :: vs). constructor; [split; [exact Hv | lia] | exact IH]. }
    destruct Hvs as [vs Hvs]. exists vs. split.
    + unfold getCoeff_inds. now rewrite (getCoeff_loop_reads s inds vs []).
    + eapply Forall2_impl; [exact Hvs|]. now intros n v [Hv _].
  - intros s'. apply getCoeff_loop_state.
  - intros l m s'. unfold getCoeff.
    destruct ((0 <=? l) && (l <=? lmax s) && (- l <=? m) && (m <=? l));
      [|simpl; now intros [= <-]].
    destruct (vec_get (y s) (l * l + l + m)); [|discriminate].
    simpl. now intros [= <-].
Qed.

Lemma setCoeff_loop_success (s : Map T) (ics : list (Z * T)) :
  Forall (fun ic => offence s ic = None /\
                    0 <= ic.1 < Z.of_nat (length (y s))) ics ->
  setCoeff_loop s ics = Return tt (write_entries s ics).
Proof.
  revert s. induction ics as [|[i c] ics IH]; intros s Hall; [reflexivity|].
  apply Forall_cons in Hall as [[Hok Hrange] Hall].
  simpl in Hrange. simpl. unfold offence, Y00_guard in Hok. simpl in Hok.
  destruct ((i =? 0) && Y00_is_unity s && s_neqb c s_one); [discriminate|].
  destruct ((i <? 0) || (i >? N s)); [discriminate|].
  rewrite vec_set_in_range by exact Hrange.
  rewrite (IH (set_y s (<[Z.to_nat i := c]> (y s)))); [reflexivity|].
  eapply Forall_impl; [exact Hall|].
  intros ic [Hoff Hr]. split; [exact Hoff|].
  simpl. rewrite length_insert. exact Hr.
Qed.

Lemma length_written (v : Vector T) (ics : list (Z * T)) :
  length (written v ics) = length v.
Proof.
  revert v. induction ics as [|ic ics IH]; intros v; [reflexivity|].
  unfold written in *. simpl. rewrite IH. apply length_insert.
Qed.

Lemma written_lookup_other (v : Vector T) (ics : list (Z * T)) (k : nat) :
  Forall (fun ic => Z.to_nat ic.1 <> k) ics ->
  written v ics !! k = v !! k.
Proof.
  revert v. induction ics as [|ic ics IH]; intros v Hall; [reflexivity|].
  apply Forall_cons in Hall as [Hne Hall].
  unfold written in *. simpl. rewrite IH by exact Hall.
  now apply list_lookup_insert_ne.
Qed.

Lemma written_lookup_written (v : Vector T) (ics : list (Z * T)) :
  NoDup (ics.*1) ->
  Forall (fun ic => 0 <= ic.1 < Z.of_nat (length v)) ics ->
  Forall (fun ic => vec_get (written v ics) ic.1 = Some ic.2) ics.
Proof.
  revert v. induction ics as [|[i c] ics IH]; intros v Hnd Hall;
    [constructor|].
  simpl in Hnd. apply NoDup_cons in Hnd as [Hnotin Hnd].
  apply Forall_cons in Hall as [Hi Hall]. simpl in Hi.
  assert (Hrest : Forall (fun ic : Z * T => Z.to_nat ic.1 <> Z.to_nat i) ics).
  { apply Forall_forall. intros [j d] Hin Heq. simpl in Heq.
    apply Hnotin. apply list_elem_of_fmap. exists (j, d). split; [|exact Hin].
    simpl. rewrite Forall_forall in Hall. specialize (Hall _ Hin).
    simpl in Hall. lia. }
  constructor.
  - simpl.
    change (written v ((i, c) :: ics))
      with (written (<[Z.to_nat i := c]> v) ics).
    unfold vec_get. rewrite length_written, length_insert.
    replace ((0 <=? i) && (i <? Z.of_nat (length v))) with true
      by (symmetry; apply andb_true_iff; split;
          [apply Z.leb_le | apply Z.ltb_lt]; lia).
    rewrite written_lookup_other by exact Hrest.
    apply list_lookup_insert_eq. lia.
  - change (written v ((i, c) :: ics))
      with (written (<[Z.to_nat i := c]> v) ics).
    apply IH; [exact Hnd|].
    eapply Forall_impl; [exact Hall|]. intros ic Hic.
    now rewrite length_insert.
Qed.

(** X3: a bulk [setCoeff] whose entries are all acceptable (a valid
    index, and no value other than one for the fixed constant) returns;
    it has written the entries into [y] in order, so that of two entries
    for one index the later stands, recomputed [p] and [g], and left the
    axis alone. *)
Theorem setCoeff_inds_success (s : Map T) (ics : list (Z * T)) :
  Forall (fun ic => offence s ic = None /\
                    0 <= ic.1 < Z.of_nat (length (y s))) ics ->
  exists s',
    setCoeff_inds s (ics.*1) (ics.*2) = Return tt s' /\
    y s' = written (y s) ics /\
    coherent s' /\ axis s' = axis s /\ N s' = N s /\ lmax s' = lmax s.
Proof.
  intros Hall. exists (update (write_entries s ics)).
  split.
  - unfold setCoeff_inds. rewrite !length_fmap, Nat.eqb_refl. simpl.
    rewrite zip_fst_snd. now rewrite (setCoeff_loop_success s ics Hall).
  - destruct (write_entries_frame s ics) as (_ & _ & _ & Ha & HN & Hl).
    split; [apply write_entries_y|]. split; [apply coherent_update|].
    cbn [axis N lmax update set_W set_g set_p]. auto.
Qed.

(** X4: what a bulk [setCoeff] wrote, a bulk [getCoeff] of the same
    indices reads back, when no index occurs twice. *)
Theorem setCoeff_inds_getCoeff_inds (s s' : Map T) (ics : list (Z * T)) :
  Z.of_nat (length (y s)) = N s ->
  NoDup (ics.*1) ->
  Forall (fun ic => 0 <= ic.1 < N s) ics ->
  setCoeff_inds s (ics.*1) (ics.*2) = Return tt s' ->
  getCoeff_inds s' (ics.*1) = Return (ics.*2) s'.
Proof.
  intros Hlen Hnd Hrange Hset.
  assert (Hloop : setCoeff_loop s ics = Return tt (write_entries s ics)).
  { unfold setCoeff_inds in Hset.
    rewrite !length_fmap, Nat.eqb_refl, zip_fst_snd in Hset. simpl in Hset.
    apply setCoeff_loop_success.
    clear Hnd. revert s Hlen Hrange Hset.
    induction ics as [|[i c] ics IH]; intros s Hlen Hrange Hset;
      [constructor|].
    apply Forall_cons in Hrange as [Hi Hrange]. simpl in Hi.
    simpl in Hset.
    destruct ((i =? 0) && Y00_is_unity s && s_neqb c s_one) eqn:Hg;
      [discriminate|].
    destruct ((i <? 0) || (i >? N s)) eqn:Hr; [discriminate|].
    rewrite vec_set_in_range in Hset by lia.
    constructor.
    { split; [|simpl; lia]. unfold offence, Y00_guard. simpl.
      now rewrite Hg, Hr. }
    specialize (IH (set_y s (<[Z.to_nat i := c]> (y s)))).
    cbn [y N set_y] in IH. rewrite length_insert in IH.
    specialize (IH Hlen Hrange Hset).
    eapply Forall_impl; [exact IH|]. intros ic [Hoff Hic].
    split; [exact Hoff | exact Hic]. }
  unfold setCoeff_inds in Hset.
  rewrite !length_fmap, Nat.eqb_refl, zip_fst_snd, Hloop in Hset.
  simpl in Hset. injection Hset as <-.
  unfold getCoeff_inds.
  rewrite (getCoeff_loop_reads _ (ics.*1) (ics.*2) []); [reflexivity|].
  cbn [y N update set_W set_g set_p]. rewrite write_entries_y.
  destruct (write_entries_frame s ics) as (_ & _ & _ & _ & -> & _).
  apply Forall2_fmap, Forall_Forall2_diag.
  assert (Hw := written_lookup_written (y s) ics Hnd).
  rewrite Hlen in Hw. specialize (Hw Hrange).
  rewrite Forall_forall in Hw, Hrange. apply Forall_forall.
  intros ic Hin. split; [now apply Hw|]. specialize (Hrange _ Hin). lia.
Qed.

(** X5: the two forms of [setCoeff] agree: on a map of [N = (lmax + 1)^2]
    coefficients, the bulk form on the single flat index of a pair
    [(l, m)] inside the bounds does what [setCoeff(l, m, coeff)] does,
    the exception for the fixed constant included. *)
Theorem setCoeff_inds_singleton (s : Map T) (l m : Z) (coeff : T) :
  in_bounds s l m ->
  N s = (lmax s + 1) * (lmax s + 1) ->
  setCoeff_inds s [l * l + l + m] [coeff] = setCoeff s l m coeff.
Proof.
  intros Hin HN. pose proof Hin as [Hl Hm].
  rewrite setCoeff_cases. rewrite (proj2 (in_bounds_test s l m) Hin).
  unfold setCoeff_inds, Y00_guard. simpl.
  assert (Hzero : (l * l + l + m =? 0) = (l =? 0)).
  { destruct (Z.eqb_spec l 0) as [->|Hne]; [apply Z.eqb_eq; lia|].
    apply Z.eqb_neq. nia. }
  rewrite Hzero.
  destruct ((l =? 0) && Y00_is_unity s && s_neqb coeff s_one); [reflexivity|].
  replace ((l * l + l + m <? 0) || (l * l + l + m >? N s)) with false.
  2:{ symmetry. apply orb_false_iff. rewrite Z.gtb_ltb.
      split; apply Z.ltb_ge; nia. }
  now destruct (vec_set (y s) (l * l + l + m) coeff).
Qed.

(** X6: [setCoeff(l, m, v)] changes no other coefficient: what
    [getCoeff] returned for another pair inside the bounds before the
    call, it returns after it. *)
Theorem setCoeff_other_coefficients (s s' : Map T) (l m l' m' : Z)
    (v x : T) :
  setCoeff s l m v = Return tt s' ->
  in_bounds s l' m' -> (l', m') <> (l, m) ->
  getCoeff s l' m' = Return x s ->
  getCoeff s' l' m' = Return x s'.
Proof.
  rewrite setCoeff_cases.
  destruct (Y00_guard s l v); [discriminate|].
  destruct ((0 <=? l) && (l <=? lmax s) && (- l <=? m) && (m <=? l))
    eqn:Hb; [|discriminate].
  apply in_bounds_test in Hb as [Hl Hm].
  destruct (vec_set (y s) (l * l + l + m) v) as [w|] eqn:Hset;
    [|discriminate].
  intros [= <-] Hin' Hne. pose proof Hin' as [Hl' Hm'].
  unfold getCoeff. cbn [lmax y update set_W set_g set_p set_y].
  rewrite (proj2 (in_bounds_test s l' m') Hin').
  destruct (vec_get (y s) (l' * l' + l' + m')) as [x0|] eqn:Hget;
    [|discriminate].
  intros [= ->].
  apply vec_set_inv in Hset as [Hr ->].
  unfold vec_get in *. rewrite length_insert.
  destruct ((0 <=? l' * l' + l' + m') &&
            (l' * l' + l' + m' <? Z.of_nat (length (y s)))); [|discriminate].
  rewrite list_lookup_insert_ne.
  { unfold Vector in *. now rewrite Hget. }
  intros Heq. apply Hne.
  assert (Hidx : l * l + l + m = l' * l' + l' + m') by nia.
  assert (l = l') by (apply (flat_index_degree l m l' m'); lia).
  subst l'. f_equal. lia.
Qed.
End CoefficientAccess.

(** Witness of [getCoeff_inds_reads]: [Map(1)], the indices [2; 0; 2]. *)
Lemma getCoeff_inds_reads_witness :
  exists vs, getCoeff_inds example.map1 [2; 0; 2] = Return vs example.map1 /\
             Forall2 (fun n v => vec_get (y example.map1) n = Some v)
               [2; 0; 2] vs.
Proof.
  apply (proj1 (getCoeff_inds_reads example.map1 [2; 0; 2] eq_refl)).
  repeat constructor; cbn; lia.
Defined.

(** Witness of [setCoeff_inds_success]: [Map(1)], index 1 written
    twice. *)
Lemma setCoeff_inds_success_witness :
  exists s',
    setCoeff_inds example.map1 [1; 3; 1] [2%float; 4%float; 5%float]
      = Return tt s' /\
    y s' = [0%float; 5%float; 0%float; 4%float] /\
    coherent s' /\ axis s' = axis example.map1 /\
    N s' = N example.map1 /\ lmax s' = lmax example.map1.
Proof.
  apply (setCoeff_inds_success example.map1
           [(1, 2%float); (3, 4%float); (1, 5%float)]).
  repeat constructor; cbn; lia.
Defined.

(** Witness of [setCoeff_inds_getCoeff_inds]: [Map(1)], the indices
    [1; 3]. *)
Lemma setCoeff_inds_getCoeff_inds_witness :
  exists s',
    setCoeff_inds example.map1 [1; 3] [2%float; 4%float] = Return tt s' /\
    getCoeff_inds s' [1; 3] = Return [2%float; 4%float] s'.
Proof.
  destruct (setCoeff_inds example.map1 [1; 3] [2%float; 4%float])
    as [[] s'| |] eqn:Hset;
    [|vm_compute in Hset; discriminate Hset
     |vm_compute in Hset; discriminate Hset].
  exists s'. split; [reflexivity|].
  apply (setCoeff_inds_getCoeff_inds example.map1 s'
           [(1, 2%float); (3, 4%float)] eq_refl).
  - apply (bool_decide_unpack _). vm_compute. exact I.
  - repeat constructor; cbn; lia.
  - exact Hset.
Defined.

(** Witness of [setCoeff_inds_singleton]: [Map(1)], the pair [(1, 0)],
    of flat index 2. *)
Lemma setCoeff_inds_singleton_witness :
  setCoeff_inds example.map1 [1 * 1 + 1 + 0] [3%float]
    = setCoeff example.map1 1 0 3%float.
Proof.
  apply setCoeff_inds_singleton; [|reflexivity].
  unfold in_bounds. cbn. lia.
Defined.

(** Witness of [setCoeff_other_coefficients]: [Map(1)], writing
    [(1, 0)] and reading [(1, 1)]. *)
Lemma setCoeff_other_coefficients_witness :
  exists s',
    setCoeff example.map1 1 0 3%float = Return tt s' /\
    getCoeff s' 1 1 = Return 0%float s'.
Proof.
  destruct (setCoeff example.map1 1 0 3%float) as [[] s'| |] eqn:Hset;
    [|vm_compute in Hset; discriminate Hset
     |vm_compute in Hset; discriminate Hset].
  exists s'. split; [reflexivity|].
  apply (setCoeff_other_coefficients example.map1 s' 1 0 1 1 3%float
           0%float Hset).
  - unfold in_bounds. cbn. lia.
  - intros Heq. discriminate Heq.
  - reflexivity.
Defined.

(** ** The fixed constant coefficient *)

Section FixedConstant.
Context {T : Type} `{Scalar T} `{Cmath T} `{basis.Lib T} `{rotation.Lib T}.

Lemma guard_off_is_one (s : Map T) (ind : Z) (coeff : T) :
  eqb_one_exact -> Y00_is_unity s = true ->
  (ind =? 0) && Y00_is_unity s && s_neqb coeff s_one = false ->
  ind = 0 -> coeff = s_one.
Proof.
  intros Hexact HY Hg ->. rewrite HY in Hg. simpl in Hg.
  apply Hexact. unfold s_neqb in Hg. now apply negb_false_iff in Hg.
Qed.

Lemma setCoeff_loop_keeps_constant (s s' : Map T) (ics : list (Z * T)) :
  eqb_one_exact ->
  Y00_is_unity s = true -> vec_get (y s) 0 = Some s_one ->
  final_state (setCoeff_loop s ics) = Some s' ->
  Y00_is_unity s' = true /\ vec_get (y s') 0 = Some s_one.
Proof.
  intros Hexact. revert s. induction ics as [|[i c] ics IH];
    intros s HY Hone Hfin.
  - simpl in Hfin. injection Hfin as <-. auto.
  - simpl in Hfin.
    destruct ((i =? 0) && Y00_is_unity s && s_neqb c s_one) eqn:Hg;
      [simpl in Hfin; injection Hfin as <-; auto|].
    destruct ((i <? 0) || (i >? N s));
      [simpl in Hfin; injection Hfin as <-; auto|].
    destruct (vec_set (y s) i c) as [v|] eqn:Hset; [|discriminate].
    apply (IH (set_y s v)); [exact HY| |exact Hfin].
    cbn [y set_y]. destruct (Z.eq_dec i 0) as [->|Hne].
    + rewrite (guard_off_is_one s 0 c Hexact HY Hg eq_refl) in Hset.
      now apply (vec_get_set (y s) v 0 s_one).
    + apply vec_set_inv in Hset as [Hr ->].
      unfold vec_get in *. rewrite length_insert.
      destruct ((0 <=? 0) && (0 <? Z.of_nat (length (y s))));
        [|discriminate].
      rewrite list_lookup_insert_ne by lia. exact Hone.
Qed.

(** X7: on a map constructed with [Y00_is_unity], the constant
    coefficient stays one: if [y(0)] is 1, it is 1 after every public call
    other than [rotate], whether the call returns or throws.  (The
    comparison of a scalar with one is taken exact.) *)
Theorem fixed_constant_is_kept (s s' : Map T) (c : call) :
  eqb_one_exact ->
  Y00_is_unity s = true -> vec_get (y s) 0 = Some s_one ->
  is_rotate c = false ->
  after c s = Some s' ->
  Y00_is_unity s' = true /\ vec_get (y s') 0 = Some s_one.
Proof.
  intros Hexact HY Hone Hrot Hafter. unfold after in Hafter.
  destruct c; simpl in Hafter; try discriminate Hrot;
    try (injection Hafter as <-; now auto).
  - (* reset *)
    unfold reset in Hafter. cbn [Y00_is_unity set_y y] in Hafter.
    rewrite HY in Hafter.
    destruct (vec_set (Zero (N s)) 0 s_one) as [v|] eqn:Hset;
      [|discriminate].
    simpl in Hafter. injection Hafter as <-. split; [exact HY|].
    cbn [y update set_W set_g set_p set_axis set_y].
    now apply (vec_get_set (Zero (N s)) v 0 s_one).
  - (* setCoeff *)
    unfold setCoeff in Hafter.
    destruct ((l =? 0) && Y00_is_unity s && s_neqb coeff s_one) eqn:Hg;
      [simpl in Hafter; injection Hafter as <-; now auto|].
    destruct ((0 <=? l) && (l <=? lmax s) && (- l <=? m) && (m <=? l))
      eqn:Hb; [|simpl in Hafter; injection Hafter as <-; now auto].
    apply in_bounds_test in Hb as [Hl Hm].
    destruct (vec_set (y s) (l * l + l + m) coeff) as [v|] eqn:Hset;
      [|discriminate].
    simpl in Hafter. injection Hafter as <-. split; [exact HY|].
    cbn [y update set_W set_g set_p set_y].
    destruct (Z.eq_dec l 0) as [->|Hne].
    + assert (m = 0) by lia. subst m.
      rewrite (guard_off_is_one s 0 coeff Hexact HY Hg eq_refl) in Hset.
      now apply (vec_get_set (y s) v 0 s_one).
    + apply vec_set_inv in Hset as [Hr ->].
      unfold vec_get in *. rewrite length_insert.
      destruct ((0 <=? 0) && (0 <? Z.of_nat (length (y s))));
        [|discriminate].
      rewrite list_lookup_insert_ne by nia. exact Hone.
  - (* bulk setCoeff *)
    unfold setCoeff_inds in Hafter.
    destruct (negb (length inds =? length coeffs)%nat);
      [simpl in Hafter; injection Hafter as <-; now auto|].
    destruct (setCoeff_loop s (zip inds coeffs)) as [[] s1|e s1|] eqn:Hloop;
      [| |discriminate].
    + simpl in Hafter. injection Hafter as <-.
      apply (setCoeff_loop_keeps_constant s s1 (zip inds coeffs));
        auto. now rewrite Hloop.
    + simpl in Hafter. injection Hafter as <-.
      apply (setCoeff_loop_keeps_constant s s1 (zip inds coeffs));
        auto. now rewrite Hloop.
  - (* getCoeff *)
    unfold getCoeff in Hafter.
    destruct ((0 <=? l) && (l <=? lmax s) && (- l <=? m) && (m <=? l));
      [|simpl in Hafter; injection Hafter as <-; now auto].
    destruct (vec_get (y s) (l * l + l + m)); [|discriminate].
    simpl in Hafter. injection Hafter as <-. now auto.
  - (* bulk getCoeff *)
    assert (s' = s) as ->; [|now auto].
    apply (getCoeff_loop_state s s' inds []).
    unfold getCoeff_inds in Hafter.
    now destruct (getCoeff_loop s inds []).
  - (* evaluate *)
    destruct compute_gradient.
    + unfold evaluate, evaluate_with_gradient in Hafter.
      destruct s_is_Multi;
        [simpl in Hafter; injection Hafter as <-; now auto|].
      destruct (evaluate_with_gradient_generic_frame s theta_deg x0 y0)
        as (v & s1 & Hev & Ey & _ & _ & _ & _ & _ & _ & EY).
      rewrite Hev in Hafter. simpl in Hafter. injection Hafter as <-.
      now rewrite Ey, EY.
    + destruct (evaluate_plain s theta_deg x0 y0)
        as (s1 & Hev & Ey & _ & _ & _ & _ & _ & _ & EY).
      rewrite Hev in Hafter. simpl in Hafter. injection Hafter as <-.
      now rewrite Ey, EY.
Qed.
End FixedConstant.

Lemma SFeqb_finite_eq (x : spec_float) (m : positive) (e : Z) :
  SFeqb x (S754_finite false m e) = true -> x = S754_finite false m e.
Proof.
  unfold SFeqb, SFcompare.
  destruct x as [sx|sx| |sx mx ex].
  1-3: try destruct sx; intros Heq; discriminate Heq.
  destruct sx; [intros Heq; discriminate Heq|].
  destruct (ex ?= e)%Z eqn:He; try (intros Heq; discriminate Heq).
  apply Z.compare_eq in He.
  change (PosDef.Pos.compare_cont Eq mx m) with (Pos.compare mx m).
  destruct (mx ?= m)%positive eqn:Hm; try (intros Heq; discriminate Heq).
  apply Pos.compare_eq in Hm. intros _. now subst.
Qed.

(** In binary64 only the value one compares equal to one. *)
Lemma double_eqb_one_exact : eqb_one_exact (T := float).
Proof.
  intros a. assert (Hone : s_one = 1%float) by (vm_compute; reflexivity).
  rewrite Hone. change (PrimFloat.eqb a 1%float = true -> a = 1%float).
  rewrite FloatAxioms.eqb_spec. intros Heq. apply Prim2SF_inj.
  change (Prim2SF 1%float)
    with (S754_finite false 4503599627370496 (-52)) in *.
  now apply SFeqb_finite_eq.
Qed.

(** Witness of [fixed_constant_is_kept]: [Map(1, true)] and a bulk write
    that sets the constant to one, then throws. *)
Lemma fixed_constant_is_kept_witness :
  exists s',
    after (call_setCoeff_inds [0; 2; 9] [1%float; 7%float; 0%float])
      example.map1_unity = Some s' /\
    Y00_is_unity s' = true /\ vec_get (y s') 0 = Some s_one.
Proof.
  destruct (after _ example.map1_unity) as [s'|] eqn:Hafter;
    [|vm_compute in Hafter; discriminate Hafter].
  exists s'. split; [reflexivity|].
  exact (fixed_constant_is_kept example.map1_unity s'
           (call_setCoeff_inds [0; 2; 9] [1%float; 7%float; 0%float])
           double_eqb_one_exact eq_refl eq_refl eq_refl Hafter).
Defined.

(** ** The names of the gradient entries *)

Section GradientNames.
Context {T : Type} `{Scalar T} `{Cmath T} `{basis.Lib T} `{rotation.Lib T}.

Lemma setCoeff_loop_names (s s' : Map T) (ics : list (Z * T)) :
  final_state (setCoeff_loop s ics) = Some s' ->
  dI_names s' = dI_names s /\ dF_names s' = dF_names s.
Proof.
  revert s. induction ics as [|[i c] ics IH]; intros s Hfin.
  - simpl in Hfin. injection Hfin as <-. auto.
  - simpl in Hfin.
    destruct ((i =? 0) && Y00_is_unity s && s_neqb c s_one);
      [simpl in Hfin; injection Hfin as <-; auto|].
    destruct ((i <? 0) || (i >? N s));
      [simpl in Hfin; injection Hfin as <-; auto|].
    destruct (vec_set (y s) i c) as [v|]; [|discriminate].
    now apply (IH (set_y s v)).
Qed.

(** No public call changes the tables of names. *)
Lemma names_after (c : call) (s s' : Map T) :
  after c s = Some s' ->
  dI_names s' = dI_names s /\ dF_names s' = dF_names s.
Proof.
  intros Hafter. unfold after in Hafter.
  destruct c; simpl in Hafter;
    try (injection Hafter as <-; now auto).
  - unfold reset in Hafter.
    destruct (if Y00_is_unity _ then _ else _) as [s2|] eqn:Hr;
      [|discriminate].
    simpl in Hafter. injection Hafter as <-.
    cbn [dI_names dF_names update set_W set_g set_p set_axis].
    cbn [Y00_is_unity set_y] in Hr. destruct (Y00_is_unity s).
    + destruct (vec_set _ 0 s_one); [|discriminate].
      simpl in Hr. injection Hr as <-. auto.
    + injection Hr as <-. auto.
  - rewrite setCoeff_cases in Hafter.
    destruct (Y00_guard s l coeff);
      [simpl in Hafter; injection Hafter as <-; now auto|].
    destruct ((0 <=? l) && (l <=? lmax s) && (- l <=? m) && (m <=? l));
      [|simpl in Hafter; injection Hafter as <-; now auto].
    destruct (vec_set (y s) (l * l + l + m) coeff); [|discriminate].
    simpl in Hafter. injection Hafter as <-. auto.
  - unfold setCoeff_inds in Hafter.
    destruct (negb (length inds =? length coeffs)%nat);
      [simpl in Hafter; injection Hafter as <-; now auto|].
    destruct (setCoeff_loop s (zip inds coeffs)) as [[] s1|e s1|] eqn:Hloop;
      [| |discriminate]; simpl in Hafter; injection Hafter as <-;
      apply (setCoeff_loop_names s s1 (zip inds coeffs)); now rewrite Hloop.
  - unfold getCoeff in Hafter.
    destruct ((0 <=? l) && (l <=? lmax s) && (- l <=? m) && (m <=? l));
      [|simpl in Hafter; injection Hafter as <-; now auto].
    destruct (vec_get (y s) (l * l + l + m)); [|discriminate].
    simpl in Hafter. injection Hafter as <-. now auto.
  - assert (s' = s) as ->; [|now auto].
    apply (getCoeff_loop_state s s' inds []).
    unfold getCoeff_inds in Hafter. now destruct (getCoeff_loop s inds []).
  - destruct compute_gradient.
    + unfold evaluate, evaluate_with_gradient in Hafter.
      destruct s_is_Multi;
        [simpl in Hafter; injection Hafter as <-; now auto|].
      unfold evaluate_with_gradient_generic in Hafter.
      destruct (s_eqb (radians theta_deg) (s_of_Z 0));
        (destruct (outside_disk x0 y0);
         [simpl in Hafter; injection Hafter as <-; now auto|]);
        match type of Hafter with
        | context [fold_left ?f ?l ?a] =>
            destruct (fold_left f l a) as [[g1 g2] col]
        end;
        simpl in Hafter; injection Hafter as <-; now auto.
    + unfold evaluate in Hafter.
      destruct (s_eqb (radians theta_deg) (s_of_Z 0));
        destruct (outside_disk x0 y0);
        simpl in Hafter; injection Hafter as <-; now auto.
Qed.

(** X8: the tables of names of a constructed map follow the flat index,
    and no call changes them.  After the names of the arguments, the name
    at position [3 + n] of [dI_names] (resp. [4 + n] of [dF_names]) is
    ["Y_{l,m}"] for the pair [(l, m)] of flat index [n = l*l + l + m].
    For a degree bound [lmax >= -1] the tables have [3 + N] and [4 + N]
    entries; for [lmax < -1], where [N = (lmax + 1)^2] is positive but
    the loops make no turn, they have the 3 and 4 names of the arguments
    only. *)
Theorem gradient_names_follow_index (lmax0 : Z) (Y00 : bool)
    (cs : list call) (s0 s : Map T) :
  Map_new lmax0 Y00 = Return s0 tt ->
  after_all cs s0 = Some s ->
  (forall l m, 0 <= l <= lmax0 -> - l <= m <= l ->
     dI_names s !! Z.to_nat (3 + (l * l + l + m)) = Some (Y_name (l, m)) /\
     dF_names s !! Z.to_nat (4 + (l * l + l + m)) = Some (Y_name (l, m))) /\
  (-1 <= lmax0 ->
     Z.of_nat (length (dI_names s)) = 3 + N s0 /\
     Z.of_nat (length (dF_names s)) = 4 + N s0) /\
  (lmax0 < -1 ->
     0 < N s0 /\ length (dI_names s) = 3%nat /\ length (dF_names s) = 4%nat).
Proof.
  intros Hnew Hcalls.
  assert (Hnames : dI_names s = dI_names s0 /\ dF_names s = dF_names s0).
  { clear Hnew. revert s0 Hcalls.
    induction cs as [|c cs IH]; intros s0 Hcalls.
    - simpl in Hcalls. injection Hcalls as <-. auto.
    - simpl in Hcalls. destruct (after c s0) as [s1|] eqn:Hc; [|discriminate].
      destruct (IH s1 Hcalls) as [-> ->]. now apply (names_after c). }
  destruct Hnames as [-> ->]. clear Hcalls.
  assert (Hs0 : dI_names s0 = ["theta"; "x"; "y"]%string
                               ++ (Y_name <$> lm_pairs lmax0) /\
                dF_names s0 = ["theta"; "xo"; "yo"; "ro"]%string
                               ++ (Y_name <$> lm_pairs lmax0) /\
                N s0 = (lmax0 + 1) * (lmax0 + 1)).
  { unfold Map_new in Hnew. destruct (negb _); [discriminate|].
    destruct (basis.Basis_new lmax0); [discriminate|].
    destruct (rotation.Wigner_new lmax0); [discriminate|].
    unfold reset in Hnew. cbn [Y00_is_unity set_y y N] in Hnew.
    destruct Y00.
    - destruct (vec_set _ 0 s_one); [|discriminate].
      simpl in Hnew. injection Hnew as <-. auto.
    - injection Hnew as <-. auto. }
  destruct Hs0 as (-> & -> & ->).
  split; [|split].
  - intros l m Hl Hm.
    assert (Hlookup : lm_pairs lmax0 !! Z.to_nat (l * l + l + m)
                      = Some (l, m)).
    { replace lmax0 with (Z.of_nat (Z.to_nat (lmax0 + 1)) - 1) by lia.
      apply lm_pairs_lookup_nat; lia. }
    assert (0 <= l * l + l + m) by nia.
    split.
    + rewrite lookup_app_r by (simpl; lia).
      replace (Z.to_nat (3 + (l * l + l + m))
               - length ["theta"; "x"; "y"]%string)%nat
        with (Z.to_nat (l * l + l + m)) by (simpl; lia).
      now rewrite list_lookup_fmap, Hlookup.
    + rewrite lookup_app_r by (simpl; lia).
      replace (Z.to_nat (4 + (l * l + l + m))
               - length ["theta"; "xo"; "yo"; "ro"]%string)%nat
        with (Z.to_nat (l * l + l + m)) by (simpl; lia).
      now rewrite list_lookup_fmap, Hlookup.
  - intros Hl. assert (Hlen := length_lm_pairs lmax0 Hl).
    split; rewrite length_app, length_fmap; simpl length; lia.
  - intros Hneg.
    assert (Hnil : lm_pairs lmax0 = []).
    { unfold lm_pairs, seqZ.
      replace (Z.to_nat (lmax0 + 1)) with 0%nat by lia. reflexivity. }
    rewrite Hnil. split; [nia|]. split; reflexivity.
Qed.
End GradientNames.

(** Witness of [gradient_names_follow_index]: [Map(1)] after a write, the
    pair [(1, -1)] of flat index 1, and the seven and eight names of the
    tables. *)
Lemma gradient_names_follow_index_witness :
  exists s,
    after_all [call_setCoeff 1 0 2%float] example.map1 = Some s /\
    dI_names s !! 4%nat = Some "Y_{1,-1}"%string /\
    dF_names s !! 5%nat = Some "Y_{1,-1}"%string /\
    Z.of_nat (length (dI_names s)) = 7 /\
    Z.of_nat (length (dF_names s)) = 8.
Proof.
  assert (Hnew : Map_new 1 false = Return example.map1 tt)
    by (vm_compute; reflexivity).
  destruct (after_all _ example.map1) as [s|] eqn:Hrun;
    [|vm_compute in Hrun; discriminate Hrun].
  exists s. split; [reflexivity|].
  destruct (gradient_names_follow_index 1 false _ example.map1 s Hnew Hrun)
    as (Hnames & Hlen & _).
  destruct (Hnames 1 (-1)) as [HI HF]; [lia | lia |].
  destruct Hlen as [HlI HlF]; [lia|].
  split; [exact HI|]. split; [exact HF|]. split; [exact HlI | exact HlF].
Defined.

(** ** The intensity with and without its gradient *)

Section GradientValue.
Context {T : Type} `{Scalar T} `{Cmath T} `{basis.Lib T} `{rotation.Lib T}.

(** The value of a basis polynomial computed on [ADScalar] is the
    polynomial computed on the values. *)
Lemma value_poly_term (X Y Z0 : autodiff.ADScalar T) (l m : Z) :
  autodiff.value (poly_term X Y Z0 l m) =
    poly_term (autodiff.value X) (autodiff.value Y) (autodiff.value Z0) l m.
Proof.
  unfold poly_term.
  repeat match goal with
         | |- context [if ?b then _ else _] => destruct b
         end; reflexivity.
Qed.

Lemma value_poly_values (lmax0 : Z) (X Y : autodiff.ADScalar T) :
  autodiff.value <$> poly_values lmax0 X Y =
    poly_values lmax0 (autodiff.value X) (autodiff.value Y).
Proof.
  unfold poly_values. rewrite <- list_fmap_compose.
  apply list_fmap_ext. intros i lm _. simpl. apply value_poly_term.
Qed.

(** The loop over [i < k] copies the values of the basis into the scratch
    vector. *)
Lemma grad_fold_values (basis : list (autodiff.ADScalar T))
    (coeffs col : Vector T) (acc : T * T) (k : nat) :
  (k <= length basis)%nat -> (k <= length col)%nat ->
  snd (fold_left (grad_step basis coeffs) (seqZ 0 (Z.of_nat k)) (acc, col)) =
    (autodiff.value <$> take k basis) ++ drop k col.
Proof.
  induction k as [|k IH]; intros Hb Hc.
  - simpl. now rewrite drop_0.
  - rewrite seqZ_S, fold_left_app. simpl fold_left.
    unfold grad_step at 1. cbn [snd]. rewrite IH by lia.
    replace (Z.to_nat (0 + Z.of_nat k)) with k by lia.
    destruct (lookup_lt_is_Some_2 basis k) as [b Hbk]; [lia|].
    destruct (lookup_lt_is_Some_2 col k) as [c Hck]; [lia|].
    rewrite Hbk. simpl default.
    rewrite (take_S_r basis k b Hbk), fmap_app. simpl.
    rewrite insert_app_r_alt by (rewrite length_fmap, length_take; lia).
    rewrite length_fmap, length_take_le by lia.
    rewrite Nat.sub_diag, (drop_S col c k Hck). simpl.
    now rewrite <- app_assoc.
Qed.

(** What the gradient variant returns. *)
Lemma evaluate_with_gradient_generic_value (s : Map T) (theta x0 y0 : T) :
  -1 <= lmax s ->
  N s = (lmax s + 1) * (lmax s + 1) ->
  Z.of_nat (length (tmp_col_vec s)) = N s ->
  exists s',
    evaluate_with_gradient_generic s theta x0 y0 =
      Return (if outside_disk x0 y0 then c_NAN
              else dot (poly_values (lmax s) x0 y0) (viewed s theta)) s'.
Proof.
  intros Hl HN Hcol.
  unfold evaluate_with_gradient_generic, viewed.
  destruct (s_eqb (radians theta) (s_of_Z 0));
    (destruct (outside_disk x0 y0); [eexists; reflexivity|]).
  all: cbn [N lmax tmp_col_vec set_W set_tmp_vec_ptr set_tmp_vec].
  all: rewrite poly_basis_fills
         by (rewrite ?length_replicate; lia).
  all: match goal with
       | |- context [fold_left ?f ?l ?a] =>
           pose proof (grad_fold_values
                         (poly_values (lmax s) (autodiff.mkAD x0 s_one s_zero)
                            (autodiff.mkAD y0 s_zero s_one))
                         (deref ltac:(match f with
                                      | grad_step _ (deref ?st) => exact st
                                      end))
                         (tmp_col_vec s) (s_zero, s_zero)
                         (Z.to_nat (N s))) as Hfold;
           rewrite Z2Nat.id in Hfold by lia;
           destruct (fold_left f l a) as [[g1 g2] col]
       end.
  all: assert (Hlen : length (poly_values (lmax s)
                               (autodiff.mkAD x0 s_one s_zero)
                               (autodiff.mkAD y0 s_zero s_one))
                      = Z.to_nat (N s))
         by (unfold poly_values; rewrite length_fmap;
             pose proof (length_lm_pairs (lmax s) Hl); lia).
  all: simpl snd in Hfold; rewrite Hfold by lia.
  all: rewrite take_ge, drop_ge, app_nil_r, value_poly_values by lia.
  all: eexists; reflexivity.
Qed.

(** X9: asking for the gradient does not change the intensity.  On a map
    with its sizes, and a scalar type other than [Multi], [evaluate] with
    and without [compute_gradient] return the same value, computed by the
    same operations, for every angle and point. *)
Theorem gradient_flag_keeps_intensity (s : Map T) (theta x0 y0 : T) :
  s_is_Multi (T := T) = false ->
  -1 <= lmax s ->
  N s = (lmax s + 1) * (lmax s + 1) ->
  Z.of_nat (length (tmp_col_vec s)) = N s ->
  exists v s1 s2,
    evaluate s theta x0 y0 false = Return v s1 /\
    evaluate s theta x0 y0 true = Return v s2.
Proof.
  intros Hmulti Hl HN Hcol.
  destruct (evaluate_plain s theta x0 y0) as (s1 & Hplain & _).
  destruct (evaluate_with_gradient_generic_value s theta x0 y0 Hl HN Hcol)
    as (s2 & Hgrad).
  eexists _, s1, s2. split.
  - rewrite Hplain. rewrite poly_basis_fills by lia. reflexivity.
  - unfold evaluate, evaluate_with_gradient. rewrite Hmulti. exact Hgrad.
Qed.
End GradientValue.

(** Witness of [gradient_flag_keeps_intensity]: [Map(1)], the angle 30
    and the point [(0.5, 0.25)]. *)
Lemma gradient_flag_keeps_intensity_witness :
  exists v s1 s2,
    evaluate example.map1 30%float 0.5%float 0.25%float false = Return v s1 /\
    evaluate example.map1 30%float 0.5%float 0.25%float true = Return v s2.
Proof.
  assert (Hmulti : s_is_Multi (T := float) = false) by reflexivity.
  apply (gradient_flag_keeps_intensity example.map1 30%float 0.5%float
           0.25%float Hmulti); [cbn; lia | reflexivity | reflexivity].
Defined.

(** ** Rotating the map and rotating the view *)

Section RotateAndView.
Context {T : Type} `{Scalar T} `{Cmath T} `{basis.Lib T} `{rotation.Lib T}.

Lemma apply_blocks_snoc (blocks : list (Matrix T)) (k : nat) (v : Vector T) :
  apply_blocks blocks (Z.of_nat (S k) - 1) v =
    apply_blocks blocks (Z.of_nat k - 1) v ++
    mat_vec (rotation.block blocks (Z.of_nat k))
      (segment v (Z.of_nat k * Z.of_nat k) (2 * Z.of_nat k + 1)).
Proof.
  unfold apply_blocks.
  replace (Z.of_nat (S k) - 1 + 1) with (Z.of_nat (S k)) by lia.
  replace (Z.of_nat k - 1 + 1) with (Z.of_nat k) by lia.
  rewrite seqZ_S, bind_app. simpl. now rewrite app_nil_r.
Qed.

Lemma length_apply_blocks (blocks : list (Matrix T)) (k : nat)
    (v : Vector T) :
  (forall l, 0 <= l < Z.of_nat k ->
     Z.of_nat (length (rotation.block blocks l)) = 2 * l + 1) ->
  length (apply_blocks blocks (Z.of_nat k - 1) v) = (k * k)%nat.
Proof.
  induction k as [|k IH]; intros Hblocks; [reflexivity|].
  rewrite apply_blocks_snoc, length_app, IH by (intros; apply Hblocks; lia).
  rewrite length_mat_vec. specialize (Hblocks (Z.of_nat k)). lia.
Qed.

(** After the blocks below [k], the buffer holds the rotated blocks
    followed by what it held beyond them. *)
Lemma rotate_into_prefix (blocks : list (Matrix T)) (k : nat)
    (v out : Vector T) :
  (forall l, 0 <= l < Z.of_nat k ->
     Z.of_nat (length (rotation.block blocks l)) = 2 * l + 1) ->
  (k * k <= length out)%nat ->
  rotation.rotate_into blocks (Z.of_nat k - 1) v out =
    apply_blocks blocks (Z.of_nat k - 1) v ++ drop (k * k) out.
Proof.
  unfold rotation.rotate_into.
  replace (Z.of_nat k - 1 + 1) with (Z.of_nat k) by lia.
  induction k as [|k IH]; intros Hblocks Hlen; [now rewrite drop_0|].
  rewrite seqZ_S, fold_left_app. simpl fold_left.
  rewrite IH by (try (intros; apply Hblocks); lia).
  rewrite apply_blocks_snoc.
  pose proof (length_apply_blocks blocks k v
                ltac:(intros; apply Hblocks; lia)) as Hpre.
  pose proof (Hblocks (Z.of_nat k) ltac:(lia)) as Hblk.
  replace (0 + Z.of_nat k) with (Z.of_nat k) by lia.
  unfold set_segment.
  replace (Z.to_nat (Z.of_nat k * Z.of_nat k)) with (k * k)%nat by lia.
  rewrite take_app_length' by (symmetry; exact Hpre).
  rewrite drop_app_ge by lia. rewrite drop_drop, length_mat_vec, Hpre.
  rewrite <- app_assoc. do 3 f_equal. lia.
Qed.

Lemma rotate_inplace_prefix (blocks : list (Matrix T)) (k : nat)
    (v : Vector T) :
  (forall l, 0 <= l < Z.of_nat k ->
     Z.of_nat (length (rotation.block blocks l)) = 2 * l + 1) ->
  (k * k <= length v)%nat ->
  rotation.rotate_inplace blocks (Z.of_nat k - 1) v =
    apply_blocks blocks (Z.of_nat k - 1) v ++ drop (k * k) v.
Proof.
  unfold rotation.rotate_inplace.
  replace (Z.of_nat k - 1 + 1) with (Z.of_nat k) by lia.
  induction k as [|k IH]; intros Hblocks Hlen; [now rewrite drop_0|].
  rewrite seqZ_S, fold_left_app. simpl fold_left.
  rewrite IH by (try (intros; apply Hblocks); lia).
  rewrite apply_blocks_snoc.
  pose proof (length_apply_blocks blocks k v
                ltac:(intros; apply Hblocks; lia)) as Hpre.
  pose proof (Hblocks (Z.of_nat k) ltac:(lia)) as Hblk.
  replace (0 + Z.of_nat k) with (Z.of_nat k) by lia.
  unfold set_segment, segment.
  replace (Z.to_nat (Z.of_nat k * Z.of_nat k)) with (k * k)%nat by lia.
  rewrite take_app_length' by (symmetry; exact Hpre).
  rewrite (drop_app_length' _ _ (k * k)) by (symmetry; exact Hpre).
  rewrite drop_app_ge by lia. rewrite drop_drop, length_mat_vec, Hpre.
  rewrite <- app_assoc. do 3 f_equal. lia.
Qed.

Lemma rotation_ignores_buffer_aux (blocks : list (Matrix T)) (lmax0 : Z)
    (v out : Vector T) :
  -1 <= lmax0 ->
  (forall l, 0 <= l <= lmax0 ->
     Z.of_nat (length (rotation.block blocks l)) = 2 * l + 1) ->
  Z.of_nat (length v) = (lmax0 + 1) * (lmax0 + 1) ->
  Z.of_nat (length out) = (lmax0 + 1) * (lmax0 + 1) ->
  rotation.rotate_into blocks lmax0 v out = apply_blocks blocks lmax0 v /\
  rotation.rotate_inplace blocks lmax0 v = apply_blocks blocks lmax0 v.
Proof.
  intros Hl Hblocks Hv Hout.
  replace lmax0 with (Z.of_nat (Z.to_nat (lmax0 + 1)) - 1) by lia.
  set (k := Z.to_nat (lmax0 + 1)).
  assert (Hb : forall l, 0 <= l < Z.of_nat k ->
                 Z.of_nat (length (rotation.block blocks l)) = 2 * l + 1)
    by (intros; apply Hblocks; lia).
  split.
  - rewrite rotate_into_prefix by (try exact Hb; nia).
    rewrite drop_ge by nia. apply app_nil_r.
  - rewrite rotate_inplace_prefix by (try exact Hb; nia).
    rewrite drop_ge by nia. apply app_nil_r.
Qed.

(** X10: the rotation writes the whole of its output and reads each
    block before it overwrites it.  With blocks of [2l + 1] rows and
    vectors of [(lmax + 1)^2] entries, the loop that writes into a
    scratch buffer gives the block-diagonal product whatever the buffer
    held, and the loop that writes into [y] itself gives the same
    vector. *)
Theorem rotation_ignores_buffer (blocks : list (Matrix T)) (lmax0 : Z)
    (v out : Vector T) :
  -1 <= lmax0 ->
  (forall l, 0 <= l <= lmax0 ->
     Z.of_nat (length (rotation.block blocks l)) = 2 * l + 1) ->
  Z.of_nat (length v) = (lmax0 + 1) * (lmax0 + 1) ->
  Z.of_nat (length out) = (lmax0 + 1) * (lmax0 + 1) ->
  rotation.rotate_into blocks lmax0 v out = apply_blocks blocks lmax0 v /\
  rotation.rotate_inplace blocks lmax0 v = apply_blocks blocks lmax0 v.
Proof. apply rotation_ignores_buffer_aux. Qed.

Lemma shape_ok_blocks (lmax0 : Z) (a : UnitVector T) (c sn : T)
    (w : rotation.Wigner T) :
  rotation.shape_ok ->
  forall l, 0 <= l <= lmax0 ->
    Z.of_nat (length (rotation.block
                        (rotation.R (rotation.compute lmax0 a c sn w)) l))
    = 2 * l + 1.
Proof.
  intros Hrot l Hl. unfold rotation.block.
  now destruct (Hrot lmax0 a c sn w l Hl) as (blk & -> & Hblk).
Qed.

(** X11: rotating the map and then looking at it is looking at the
    rotated map.  On a map with its sizes, for an angle [theta] that is
    not zero and an angle [theta0] that is: after [rotate(theta)], the
    polynomial vector [p] is the one [evaluate(theta, ...)] used before
    the rotation, and [evaluate(theta0, x0, y0)] on the rotated map
    returns what [evaluate(theta, x0, y0)] returned on the map. *)
Theorem rotate_then_evaluate (s s' : Map T) (theta theta0 x0 y0 : T) :
  rotation.shape_ok ->
  -1 <= lmax s ->
  Z.of_nat (length (y s)) = (lmax s + 1) * (lmax s + 1) ->
  Z.of_nat (length (tmp_vec s)) = (lmax s + 1) * (lmax s + 1) ->
  s_eqb (radians theta) (s_of_Z 0) = false ->
  s_eqb (radians theta0) (s_of_Z 0) = true ->
  rotate s theta = Return tt s' ->
  p s' = viewed s theta /\
  exists v s1 s2,
    evaluate s theta x0 y0 false = Return v s1 /\
    evaluate s' theta0 x0 y0 false = Return v s2.
Proof.
  intros Hrot Hl Hy Htmp Hth Hth0 Hrotate.
  pose proof (shape_ok_blocks (lmax s) (axis s) (c_cos (radians theta))
                (c_sin (radians theta)) (W s) Hrot) as Hblocks.
  destruct (rotation_ignores_buffer_aux
              (rotation.R (rotation.compute (lmax s) (axis s)
                             (c_cos (radians theta)) (c_sin (radians theta))
                             (W s)))
              (lmax s) (y s) (tmp_vec s) Hl Hblocks Hy Htmp) as [Hinto Hin].
  assert (Hp : p s' = viewed s theta).
  { injection Hrotate as <-. unfold viewed. rewrite Hth.
    cbn [p y B update set_W set_g set_p set_y].
    unfold rotation.rotate_self, rotation.rotate. cbn [fst snd].
    now rewrite Hinto, Hin. }
  assert (Hsame : lmax s' = lmax s /\ tmp_col_vec s' = tmp_col_vec s)
    by (injection Hrotate as <-; split; reflexivity).
  destruct Hsame as [Hlmax Hcol].
  assert (Hview : viewed s' theta0 = viewed s theta).
  { rewrite <- Hp. unfold viewed. now rewrite Hth0. }
  split; [exact Hp|].
  destruct (evaluate_plain s theta x0 y0) as (s1 & Hev & _).
  destruct (evaluate_plain s' theta0 x0 y0) as (s2 & Hev' & _).
  eexists _, s1, s2. split; [exact Hev|].
  rewrite Hev', Hview, Hlmax, Hcol. reflexivity.
Qed.
End RotateAndView.

(** Witness of [rotation_ignores_buffer]: the identity blocks of degree
    bound 1. *)
Lemma rotation_ignores_buffer_witness :
  rotation.rotate_into (double.identity_blocks 1) 1
    [1%float; 2%float; 3%float; 4%float] [9%float; 9%float; 9%float; 9%float]
  = apply_blocks (double.identity_blocks 1) 1
      [1%float; 2%float; 3%float; 4%float].
Proof.
  assert (Hblocks : forall l, 0 <= l <= 1 ->
            Z.of_nat (length (rotation.block (double.identity_blocks 1) l))
            = 2 * l + 1).
  { intros l Hl. assert (Hcases : l = 0 \/ l = 1) by lia.
    destruct Hcases as [-> | ->]; reflexivity. }
  assert (Hl : -1 <= 1) by lia.
  exact (proj1 (rotation_ignores_buffer (double.identity_blocks 1) 1
                  [1%float; 2%float; 3%float; 4%float]
                  [9%float; 9%float; 9%float; 9%float]
                  Hl Hblocks eq_refl eq_refl)).
Defined.

(** Witness of [rotate_then_evaluate]: [Map(1)] with a coefficient set,
    rotated by 90 degrees. *)
Lemma rotate_then_evaluate_witness :
  exists s' v s1 s2,
    rotate example.map1 90%float = Return tt s' /\
    evaluate example.map1 90%float 0.5%float 0.25%float false = Return v s1 /\
    evaluate s' 0%float 0.5%float 0.25%float false = Return v s2.
Proof.
  assert (Hth : s_eqb (radians 90%float) (s_of_Z 0) = false)
    by (vm_compute; reflexivity).
  assert (Hth0 : s_eqb (radians 0%float) (s_of_Z 0) = true)
    by (vm_compute; reflexivity).
  destruct (rotate example.map1 90%float) as [[] s'| |] eqn:Hrot;
    [|discriminate Hrot|discriminate Hrot].
  destruct (rotate_then_evaluate example.map1 s' 90%float 0%float
              0.5%float 0.25%float identity_rotation_shape_ok
              ltac:(cbn; lia) eq_refl eq_refl Hth Hth0 Hrot)
    as (_ & v & s1 & s2 & Hev & Hev').
  exists s', v, s1, s2. split; [reflexivity|]. split; assumption.
Defined.

(** ** The polynomial basis in exact arithmetic *)

(** [pow] computes the power. *)
Definition pow_exact (C : Cmath Rdefinitions.R) : Prop :=
  forall (a : Rdefinitions.R) (k : Z),
    0 <= k -> c_pow a k = (a ^ Z.to_nat k)%R.

(** A [<cmath>] over the reals, for code that returns no sentinel (the
    reals have no NaN; zero stands in its place). *)
Definition exact_Cmath : Cmath Rdefinitions.R :=
  {| c_pow a k := (a ^ Z.to_nat k)%R;
     c_cos := Rtrigo_def.cos;
     c_sin := Rtrigo_def.sin;
     c_NAN := 0%R;
     c_pi := PI |}.

Lemma rem2_even (n : Z) : 0 <= n -> (Z.rem n 2 =? 0) = Z.even n.
Proof.
  intros Hn. rewrite Z.rem_mod_nonneg by lia. rewrite Zmod_even.
  now destruct (Z.even n).
Qed.

(** The branches of the loop body of [poly_basis], one by one, in exact
    arithmetic. *)
Lemma poly_term_monomial (C : Cmath Rdefinitions.R)
    (x0 y0 z0 : Rdefinitions.R) (l m : Z) :
  pow_exact C ->
  0 <= l -> - l <= m <= l ->
  poly_term x0 y0 z0 l m =
    (x0 ^ Z.to_nat ((l - m) / 2) * y0 ^ Z.to_nat ((l + m) / 2)
     * (if Z.even (l + m) then 1 else z0))%R.
Proof.
  intros Hpow Hl Hm. unfold poly_term.
  rewrite rem2_even by lia.
  assert (Hpar : Z.even (l - m) = Z.even (l + m)).
  { replace (l - m) with (l + m + 2 * (- m)) by lia.
    now rewrite Z.even_add_mul_2. }
  cbn [s_mul s_of_Z real.real_Scalar].
  destruct (Z.even (l + m)) eqn:Heven.
  - (* nu even *)
    assert (Hnu : (l + m) mod 2 = 0)
      by (rewrite Zmod_even, Heven; reflexivity).
    assert (Hmu : (l - m) mod 2 = 0)
      by (rewrite Zmod_even, Hpar; reflexivity).
    destruct (Z.gtb_spec (l - m) 0) as [Hmu0|Hmu0];
      destruct (Z.gtb_spec (l + m) 0) as [Hnu0|Hnu0]; cbn [andb].
    + rewrite !Hpow by (apply Z.quot_pos; lia).
      rewrite !Z.quot_div_nonneg by lia. ring.
    + rewrite !Hpow by (apply Z.quot_pos; lia).
      rewrite !Z.quot_div_nonneg by lia.
      replace (l + m) with 0 by lia. simpl. ring.
    + rewrite !Hpow by (apply Z.quot_pos; lia).
      rewrite !Z.quot_div_nonneg by lia.
      replace (l - m) with 0 by lia. simpl. ring.
    + replace (l - m) with 0 by lia. replace (l + m) with 0 by lia.
      simpl. ring.
  - (* nu odd *)
    assert (Hnu : (l + m) mod 2 = 1)
      by (rewrite Zmod_even, Heven; reflexivity).
    assert (Hmu : (l - m) mod 2 = 1)
      by (rewrite Zmod_even, Hpar; reflexivity).
    assert (Hmu1' : 1 <= l - m).
    { destruct (Z.eq_dec (l - m) 0) as [E|E]; [|lia].
      rewrite E in Hmu. discriminate Hmu. }
    assert (Hnu1' : 1 <= l + m).
    { destruct (Z.eq_dec (l + m) 0) as [E|E]; [|lia].
      rewrite E in Hnu. discriminate Hnu. }
    assert (Hqmu : Z.quot (l - m - 1) 2 = (l - m) / 2).
    { rewrite Z.quot_div_nonneg by lia.
      Z.to_euclidean_division_equations. lia. }
    assert (Hqnu : Z.quot (l + m - 1) 2 = (l + m) / 2).
    { rewrite Z.quot_div_nonneg by lia.
      Z.to_euclidean_division_equations. lia. }
    assert (Hdmu : 0 <= (l - m) / 2) by (apply Z.div_pos; lia).
    assert (Hdnu : 0 <= (l + m) / 2) by (apply Z.div_pos; lia).
    destruct (Z.gtb_spec (l - m) 1) as [Hmu1|Hmu1];
      destruct (Z.gtb_spec (l + m) 1) as [Hnu1|Hnu1]; cbn [andb].
    + rewrite !Hpow by (rewrite ?Hqmu, ?Hqnu; lia).
      rewrite Hqmu, Hqnu. ring.
    + rewrite !Hpow by (rewrite ?Hqmu, ?Hqnu; lia).
      rewrite Hqmu. replace ((l + m) / 2) with 0
        by (Z.to_euclidean_division_equations; lia).
      simpl. ring.
    + rewrite !Hpow by (rewrite ?Hqmu, ?Hqnu; lia).
      rewrite Hqnu. replace ((l - m) / 2) with 0
        by (Z.to_euclidean_division_equations; lia).
      simpl. ring.
    + replace ((l + m) / 2) with 0
        by (Z.to_euclidean_division_equations; lia).
      replace ((l - m) / 2) with 0
        by (Z.to_euclidean_division_equations; lia).
      simpl. ring.
Qed.

(** X12: the eight branches of [poly_basis] compute one monomial.  In
    exact arithmetic, the entry of a pair [(l, m)] with [|m| <= l] is
    [x0^(mu/2) * y0^(nu/2)], times [z0] when [nu] is odd, for [mu = l - m]
    and [nu = l + m] (the divisions rounding down). *)
Theorem poly_term_closed_form (C : Cmath Rdefinitions.R)
    (x0 y0 z0 : Rdefinitions.R) (l m : Z) :
  pow_exact C ->
  0 <= l -> - l <= m <= l ->
  poly_term x0 y0 z0 l m =
    (x0 ^ Z.to_nat ((l - m) / 2) * y0 ^ Z.to_nat ((l + m) / 2)
     * (if Z.even (l + m) then 1 else z0))%R.
Proof.
  intros Hpow Hl Hm. exact (poly_term_monomial C x0 y0 z0 l m Hpow Hl Hm).
Qed.

(** Witness of [poly_term_closed_form]: the pair [(3, -1)], of monomial
    [x0^2 * y0]. *)
Lemma poly_term_closed_form_witness :
  poly_term (H0 := exact_Cmath) 2%R 3%R 5%R 3 (-1) =
    (2 ^ Z.to_nat ((3 - -1) / 2) * 3 ^ Z.to_nat ((3 + -1) / 2)
     * (if Z.even (3 + -1) then 1 else 5))%R.
Proof.
  apply (poly_term_closed_form exact_Cmath 2%R 3%R 5%R 3 (-1)).
  - intros a k Hk. reflexivity.
  - lia.
  - lia.
Defined.

(** ** Normalisation in exact arithmetic *)

Lemma real_norm_of_unit (v : UnitVector Rdefinitions.R) :
  norm2 v = 1%R -> norm_unit v = v.
Proof.
  destruct v as [a b c]. unfold norm2, norm_unit, unit_div.
  cbn [ux uy uz s_add s_mul s_div s_sqrt real.real_Scalar].
  intros ->. rewrite sqrt_1. f_equal; field.
Qed.

(** X13: [norm_unit] in exact arithmetic.  It keeps the direction and
    forgets the length: a nonzero vector and its multiple by a positive
    factor have the same normalisation, and normalising twice is
    normalising once, so that installing the axis [getAxis] returned
    leaves the axis as it is. *)
Theorem real_norm_unit_scale_and_idempotent
    (v : UnitVector Rdefinitions.R) (k : Rdefinitions.R) :
  (ux v <> 0 \/ uy v <> 0 \/ uz v <> 0)%R -> (0 < k)%R ->
  norm_unit (mkUnit (k * ux v) (k * uy v) (k * uz v))%R = norm_unit v /\
  norm_unit (norm_unit v) = norm_unit v /\
  (forall (L : rotation.Lib Rdefinitions.R) (s : Map Rdefinitions.R),
     exists s1 s2,
       setAxis s v = Return tt s1 /\
       setAxis s1 (axis s1) = Return tt s2 /\ axis s2 = axis s1).
Proof.
  intros Hnz Hk.
  assert (Hidem : norm_unit (norm_unit v) = norm_unit v)
    by (apply real_norm_of_unit; now apply real_norm_unit_has_unit_length).
  split; [|split; [exact Hidem|]].
  - destruct v as [a b c]. unfold norm_unit, unit_div.
    cbn [ux uy uz s_add s_mul s_div s_sqrt real.real_Scalar] in *.
    set (q := (a * a + b * b + c * c)%R).
    assert (Hq : (0 < q)%R) by (unfold q; nra).
    replace (k * a * (k * a) + k * b * (k * b) + k * c * (k * c))%R
      with (k * k * q)%R by (unfold q; ring).
    rewrite sqrt_mult by nra.
    rewrite sqrt_square by lra.
    assert (Hs : (R_sqrt.sqrt q <> 0)%R).
    { intros E. apply sqrt_eq_0 in E; lra. }
    f_equal; field; split; lra.
  - intros L s. eexists _, _. split; [reflexivity|].
    split; [reflexivity|].
    cbn [axis set_W set_axis ux uy uz].
    change (norm_unit (norm_unit v) = norm_unit v). exact Hidem.
Qed.

(** Witness of [real_norm_unit_scale_and_idempotent]: the vector
    [(3, 0, 4)] and the factor 2. *)
Lemma real_norm_unit_scale_and_idempotent_witness :
  norm_unit (mkUnit (2 * 3) (2 * 0) (2 * 4))%R = norm_unit (mkUnit 3 0 4)%R.
Proof.
  assert (Hnz : (ux (mkUnit 3 0 4) <> 0 \/ uy (mkUnit 3 0 4) <> 0 \/
                 uz (mkUnit 3 0 4) <> 0)%R) by (left; simpl; lra).
  assert (Hk : (0 < 2)%R) by lra.
  exact (proj1 (real_norm_unit_scale_and_idempotent (mkUnit 3 0 4)%R 2%R
                  Hnz Hk)).
Defined.

(** * Properties of [utils.h] *)

Lemma is_even_loop_spec (turns : nat) (n : Z) :
  utils.is_even_loop turns n = true <-> (2 ^ Z.of_nat turns | n).
Proof.
  revert n. induction turns as [|k IH]; intros n.
  - simpl. split; [intros _; apply Z.divide_1_l | reflexivity].
  - cbn [utils.is_even_loop].
    replace (2 ^ Z.of_nat (S k)) with (2 * 2 ^ Z.of_nat k)
      by (rewrite Nat2Z.inj_succ, Z.pow_succ_r by lia; reflexivity).
    pose proof (Z.quot_rem' n 2) as Hqr.
    destruct (Z.eqb_spec (Z.rem n 2) 0) as [Hr|Hr]; cbn [negb].
    + rewrite IH. rewrite Hr, Z.add_0_r in Hqr.
      rewrite Hqr at 2. symmetry. apply Z.mul_divide_cancel_l. lia.
    + split; [discriminate|]. intros [q Hq]. exfalso. apply Hr.
      rewrite Hq. replace (q * (2 * 2 ^ Z.of_nat k))
        with (q * 2 ^ Z.of_nat k * 2) by ring.
      apply Z.rem_mul. lia.
Qed.

(** X14: [is_even(n, ntimes)] tells whether [2^ntimes] divides [n].  It
    does so for negative [n] as well, where [%] and [/] truncate towards
    zero, and answers [true] for every [n] when [ntimes <= 0]. *)
Theorem is_even_spec (n ntimes : Z) :
  utils.is_even n ntimes = true <-> (2 ^ Z.max 0 ntimes | n).
Proof.
  unfold utils.is_even. rewrite is_even_loop_spec.
  replace (Z.of_nat (Z.to_nat ntimes)) with (Z.max 0 ntimes) by lia.
  reflexivity.
Qed.

Lemma to_size_t_int (bits z : Z) :
  32 <= bits -> INT_MIN <= z <= INT_MAX ->
  utils.to_size_t bits z = if z <? 0 then z + 2 ^ bits else z.
Proof.
  intros Hbits Hz. unfold utils.to_size_t, INT_MIN, INT_MAX in *.
  assert (Hpow : 2 ^ 32 <= 2 ^ bits) by (apply Z.pow_le_mono_r; lia).
  destruct (Z.ltb_spec z 0).
  - symmetry. apply Z.mod_unique with (q := -1); lia.
  - apply Z.mod_small. lia.
Qed.

(** X15: the debug checks compare their [int] arguments as [size_t].
    With bounds that are not negative, [CHECK_BOUNDS(INDEX, IMIN, IMAX)]
    holds exactly when [IMIN <= INDEX <= IMAX]: a negative index, which
    the cast turns into a large value, never passes.  [CHECK_ROWS] holds
    exactly when the number of rows is [ROWS]. *)
Theorem debug_checks_spec (bits INDEX IMIN IMAX rows ROWS : Z) :
  32 <= bits ->
  INT_MIN <= INDEX <= INT_MAX ->
  0 <= IMIN <= INT_MAX -> 0 <= IMAX <= INT_MAX ->
  0 <= rows <= INT_MAX -> INT_MIN <= ROWS <= INT_MAX ->
  (utils.CHECK_BOUNDS bits INDEX IMIN IMAX = true <-> IMIN <= INDEX <= IMAX) /\
  (utils.CHECK_ROWS bits rows ROWS = true <-> rows = ROWS).
Proof.
  intros Hbits Hidx Hmin Hmax Hrows HROWS.
  assert (Hpow : 2 ^ 32 <= 2 ^ bits) by (apply Z.pow_le_mono_r; lia).
  unfold utils.CHECK_BOUNDS, utils.CHECK_ROWS.
  rewrite !to_size_t_int by (unfold INT_MIN, INT_MAX in *; lia).
  unfold INT_MIN, INT_MAX in *.
  rewrite andb_true_iff, Z.geb_le, Z.leb_le, Z.eqb_eq.
  destruct (Z.ltb_spec INDEX 0), (Z.ltb_spec IMIN 0), (Z.ltb_spec IMAX 0),
    (Z.ltb_spec rows 0), (Z.ltb_spec ROWS 0); lia.
Qed.

(** Witness of [debug_checks_spec]: a [size_t] of 64 bits, the index -1
    against the bounds [0, 3]. *)
Lemma debug_checks_spec_witness :
  (utils.CHECK_BOUNDS 64 (-1) 0 3 = true <-> 0 <= -1 <= 3) /\
  (utils.CHECK_ROWS 64 4 4 = true <-> 4 = 4).
Proof.
  apply (debug_checks_spec 64 (-1) 0 3 4 4);
    unfold INT_MIN, INT_MAX; lia.
Defined.

(** * Properties of the Python interface *)

Section PyItems.
Context {T : Type}.

Lemma length_insert_row (m : Matrix T) (i : nat) (r : list T) :
  length (<[i := r]> m) = length m.
Proof. unfold Matrix, Vector. apply length_insert. Qed.

Lemma row_Some (m : Matrix T) (n : Z) (r : list T) :
  pybind.row m n = Some r <-> 0 <= n /\ m !! Z.to_nat n = Some r.
Proof.
  unfold pybind.row. destruct (Z.leb_spec 0 n); simpl.
  - destruct (Z.ltb_spec n (Z.of_nat (length m))).
    + intuition.
    + split; [discriminate|]. intros [_ Hr].
      apply lookup_lt_Some in Hr. lia.
  - split; [discriminate | lia].
Qed.

Lemma row_in_range (m : Matrix T) (n : Z) :
  0 <= n < Z.of_nat (length m) -> exists r, pybind.row m n = Some r.
Proof.
  intros Hn. destruct (lookup_lt_is_Some_2 m (Z.to_nat n)) as [r Hr]; [lia|].
  exists r. apply row_Some. split; [lia | exact Hr].
Qed.

Lemma row_insert_eq (m : Matrix T) (n : Z) (r : list T) :
  0 <= n < Z.of_nat (length m) ->
  pybind.row (<[Z.to_nat n := r]> m) n = Some r.
Proof.
  intros Hn. apply row_Some. split; [lia|].
  apply list_lookup_insert_eq. lia.
Qed.

Lemma row_insert_ne (m : Matrix T) (n k : Z) (r : list T) :
  0 <= n -> n <> k ->
  pybind.row (<[Z.to_nat n := r]> m) k = pybind.row m k.
Proof.
  intros Hn Hne. unfold pybind.row. rewrite length_insert_row.
  destruct ((0 <=? k) && (k <? Z.of_nat (length m))) eqn:Hk; [|reflexivity].
  apply andb_true_iff in Hk as [Hk _]. apply Z.leb_le in Hk.
  apply list_lookup_insert_ne. lia.
Qed.

Lemma width_row (ncol : nat) (m : Matrix T) (n : Z) (r : list T) :
  width ncol m -> pybind.row m n = Some r -> length r = ncol.
Proof.
  intros Hw Hr. apply row_Some in Hr as [_ Hr].
  unfold width in Hw. rewrite Forall_forall in Hw.
  apply Hw. eapply list_elem_of_lookup_2. exact Hr.
Qed.

Lemma width_insert (ncol : nat) (m : Matrix T) (i : nat) (r : list T) :
  width ncol m -> length r = ncol -> width ncol (<[i := r]> m).
Proof. intros Hw Hr. now apply Forall_insert. Qed.

Lemma set_rows_spec (off : Z) (ncol : nat) (inds : list Z)
    (m coeff : Matrix T) (i : Z) :
  NoDup inds ->
  Forall (fun n => 0 <= n - off < Z.of_nat (length m)) inds ->
  0 <= i -> Z.of_nat (length coeff) = i + Z.of_nat (length inds) ->
  width ncol m -> width ncol coeff ->
  exists m',
    pybind.set_rows off inds m coeff i = Some m' /\
    length m' = length m /\ width ncol m' /\
    (forall (j : nat) (n : Z), inds !! j = Some n ->
       pybind.row m' (n - off) = pybind.row coeff (i + Z.of_nat j)) /\
    (forall k, Forall (fun n => n - off <> k) inds ->
       pybind.row m' k = pybind.row m k).
Proof.
  revert m i. induction inds as [|n inds IH];
    intros m i Hnd Hrange Hi Hlen Hwm Hwc.
  - exists m. simpl. repeat split; auto. intros j n Hj. discriminate Hj.
  - apply NoDup_cons in Hnd as [Hnotin Hnd].
    apply Forall_cons in Hrange as [Hn Hrange].
    simpl in Hlen.
    destruct (row_in_range coeff i) as [r Hr]; [lia|].
    destruct (row_in_range m (n - off) Hn) as [old Hold].
    assert (Hwidth : length old = length r)
      by (rewrite (width_row ncol m (n - off) old Hwm Hold);
          now rewrite (width_row ncol coeff i r Hwc Hr)).
    cbn [pybind.set_rows]. rewrite Hr. unfold pybind.set_row.
    rewrite Hold. rewrite (proj2 (Nat.eqb_eq _ _) Hwidth).
    destruct (IH (<[Z.to_nat (n - off) := r]> m) (i + 1))
      as (m' & Hset & Hlen' & Hw' & Hrows & Hframe); auto.
    { eapply Forall_impl; [exact Hrange|]. intros k Hk.
      now rewrite length_insert_row. }
    { lia. } { lia. }
    { apply width_insert; [exact Hwm|]. eapply width_row; eauto. }
    exists m'. split; [exact Hset|]. split.
    { now rewrite Hlen', length_insert_row. }
    split; [exact Hw'|]. split.
    + intros [|j] k Hj; simpl in Hj.
      * injection Hj as <-. rewrite Hframe.
        -- rewrite row_insert_eq by exact Hn. now rewrite Z.add_0_r.
        -- apply Forall_forall. intros k Hk Heq.
           assert (k = n) by lia. subst k. contradiction.
      * rewrite (Hrows j k Hj). f_equal. lia.
    + intros k Hk. apply Forall_cons in Hk as [Hnk Hk].
      rewrite (Hframe k Hk). apply row_insert_ne; lia.
Qed.

Lemma get_rows_Some (off : Z) (ncol : nat) (inds : list Z)
    (m cs : Matrix T) :
  length cs = length inds -> width ncol cs ->
  (forall (j : nat) (n : Z), inds !! j = Some n ->
     pybind.row m (n - off) = cs !! j) ->
  pybind.get_rows off ncol inds m = Some cs.
Proof.
  revert cs. induction inds as [|n inds IH]; intros cs Hlen Hw Hrows.
  - destruct cs; [reflexivity | discriminate].
  - destruct cs as [|c cs]; [discriminate|]. simpl in Hlen.
    apply Forall_cons in Hw as [Hc Hw].
    cbn [pybind.get_rows]. rewrite (Hrows 0%nat n eq_refl). simpl.
    rewrite (IH cs); [| lia | exact Hw |].
    + now rewrite (proj2 (Nat.eqb_eq _ _) Hc).
    + intros j k Hj. exact (Hrows (S j) k Hj).
Qed.

(** X16: the items of the map, written and read back.  [__setitem__]
    with an array of coefficients throws ValueError when the array has
    not one row per index; otherwise, for indices that name rows of the
    coefficient matrix without repetition, the matrix it passes to the
    setter has the shape of the old one, holds the new rows at the
    indices and the old rows elsewhere, and [__getitem__] of the same
    indices reads the new rows back in order, as a matrix unless there is
    one index only.  The rows are [n] for the spherical harmonic
    coefficients and [n - 1] for the limb darkening ones. *)
Theorem setitem_matrix_getitem (off : Z) (ncol : nat) (single_col : bool)
    (inds : list Z) (y coeff : Matrix T) :
  (length coeff <> length inds ->
   pybind.setitem_matrix off inds y coeff
     = Throw (ValueError pybind.msg_slice) tt) /\
  (length coeff = length inds ->
   NoDup inds ->
   Forall (fun n => 0 <= n - off < Z.of_nat (length y)) inds ->
   width ncol y -> width ncol coeff ->
   exists y',
     pybind.setitem_matrix off inds y coeff = Return y' tt /\
     length y' = length y /\ width ncol y' /\
     pybind.get_rows off ncol inds y' = Some coeff /\
     (length inds <> 1%nat ->
      pybind.getitem off single_col ncol inds y'
        = Return (pybind.py_matrix coeff) tt) /\
     (forall k, Forall (fun n => n - off <> k) inds ->
        pybind.row y' k = pybind.row y k)).
Proof.
  unfold pybind.setitem_matrix. split.
  - intros Hne. now rewrite (proj2 (Nat.eqb_neq _ _) Hne).
  - intros Hlen Hnd Hrange Hwy Hwc.
    rewrite (proj2 (Nat.eqb_eq _ _) Hlen). simpl.
    destruct (set_rows_spec off ncol inds y coeff 0 Hnd Hrange)
      as (y' & Hset & Hlen' & Hw' & Hrows & Hframe); auto; [lia..|].
    exists y'. rewrite Hset. split; [reflexivity|].
    split; [exact Hlen'|]. split; [exact Hw'|].
    assert (Hget : pybind.get_rows off ncol inds y' = Some coeff);
      [|split; [exact Hget|]; split; [|exact Hframe];
        intros Hone; unfold pybind.getitem; rewrite Hget;
        now rewrite (proj2 (Nat.eqb_neq _ _) Hone)].
    apply get_rows_Some; [exact Hlen|exact Hwc|].
    intros j n Hj. rewrite (Hrows j n Hj).
    assert (Hj' : (j < length coeff)%nat)
      by (rewrite Hlen; now apply lookup_lt_Some in Hj).
    destruct (lookup_lt_is_Some_2 coeff j Hj') as [r Hr].
    transitivity (Some r); [|symmetry; exact Hr].
    apply row_Some. split; [lia|].
    now replace (Z.to_nat (0 + Z.of_nat j)) with j by lia.
Qed.

Lemma set_rows_constant_spec (off : Z) (inds : list Z) (m : Matrix T)
    (c : T) :
  Forall (fun n => 0 <= n - off < Z.of_nat (length m)) inds ->
  exists m',
    pybind.set_rows_constant off inds m c = Some m' /\
    length m' = length m /\
    (forall n, n ∈ inds ->
       exists old, pybind.row m (n - off) = Some old /\
                   pybind.row m' (n - off) = Some (replicate (length old) c)) /\
    (forall k, Forall (fun n => n - off <> k) inds ->
       pybind.row m' k = pybind.row m k).
Proof.
  revert m. induction inds as [|n inds IH]; intros m Hrange.
  - exists m. simpl. repeat split; auto. intros n Hn. inversion Hn.
  - apply Forall_cons in Hrange as [Hn Hrange].
    destruct (row_in_range m (n - off) Hn) as [old Hold].
    cbn [pybind.set_rows_constant]. unfold pybind.set_row_constant.
    rewrite Hold.
    set (m1 := <[Z.to_nat (n - off) := replicate (length old) c]> m).
    destruct (IH m1) as (m' & Hset & Hlen' & Hrows & Hframe).
    { eapply Forall_impl; [exact Hrange|]. intros k Hk.
      unfold m1. now rewrite length_insert_row. }
    exists m'. split; [exact Hset|]. split.
    { rewrite Hlen'. unfold m1. now rewrite length_insert_row. }
    split.
    + intros k Hk.
      destruct (decide (k ∈ inds)) as [Hin|Hnotin].
      * destruct (Hrows k Hin) as (old1 & Hold1 & Hnew1).
        destruct (Z.eq_dec (k - off) (n - off)) as [Heq|Hne].
        -- exists old. rewrite Heq in *. split; [exact Hold|].
           unfold m1 in Hold1. rewrite row_insert_eq in Hold1 by exact Hn.
           injection Hold1 as <-. rewrite Hnew1.
           now rewrite length_replicate.
        -- exists old1. split; [|exact Hnew1].
           unfold m1 in Hold1. rewrite row_insert_ne in Hold1 by lia.
           exact Hold1.
      * apply elem_of_cons in Hk as [->|Hk]; [|contradiction].
        exists old. split; [exact Hold|].
        rewrite Hframe.
        -- unfold m1. now apply row_insert_eq.
        -- apply Forall_forall. intros j Hj Heq.
           assert (j = n) by lia. subst j. contradiction.
    + intros k Hk. apply Forall_cons in Hk as [Hnk Hk].
      rewrite (Hframe k Hk). unfold m1. apply row_insert_ne; lia.
Qed.

(** X17: [__setitem__] with a scalar.  For indices that name rows of the
    coefficient matrix (an index may come twice), the matrix it passes to
    the setter has as many rows as the old one, has every entry of the
    rows named equal to the scalar, and has the old rows elsewhere. *)
Theorem setitem_scalar_spec (off : Z) (inds : list Z) (y : Matrix T)
    (coeff : T) :
  Forall (fun n => 0 <= n - off < Z.of_nat (length y)) inds ->
  exists y',
    pybind.setitem_scalar off inds y coeff = Return y' tt /\
    length y' = length y /\
    (forall n, n ∈ inds ->
       exists old, pybind.row y (n - off) = Some old /\
                   pybind.row y' (n - off)
                     = Some (replicate (length old) coeff)) /\
    (forall k, Forall (fun n => n - off <> k) inds ->
       pybind.row y' k = pybind.row y k).
Proof.
  intros Hrange.
  destruct (set_rows_constant_spec off inds y coeff Hrange)
    as (y' & Hset & Hrest).
  exists y'. unfold pybind.setitem_scalar. rewrite Hset.
  split; [reflexivity | exact Hrest].
Qed.
Lemma set_rows_same_spec (off : Z) (ncol : nat) (inds : list Z)
    (m : Matrix T) (r : list T) :
  Forall (fun n => 0 <= n - off < Z.of_nat (length m)) inds ->
  width ncol m -> length r = ncol ->
  exists m',
    pybind.set_rows_same off inds m r = Some m' /\
    length m' = length m /\ width ncol m' /\
    (forall n, n ∈ inds -> pybind.row m' (n - off) = Some r) /\
    (forall k, Forall (fun n => n - off <> k) inds ->
       pybind.row m' k = pybind.row m k).
Proof.
  intros Hrange Hwm Hr. revert m Hrange Hwm.
  induction inds as [|n inds IH]; intros m Hrange Hwm.
  - exists m. simpl. repeat split; auto. intros n Hn. inversion Hn.
  - apply Forall_cons in Hrange as [Hn Hrange].
    destruct (row_in_range m (n - off) Hn) as [old Hold].
    cbn [pybind.set_rows_same]. unfold pybind.set_row. rewrite Hold.
    assert (Hwidth : length old = length r)
      by (rewrite Hr; exact (width_row ncol m (n - off) old Hwm Hold)).
    rewrite (proj2 (Nat.eqb_eq _ _) Hwidth).
    destruct (IH (<[Z.to_nat (n - off) := r]> m))
      as (m' & Hset & Hlen' & Hw' & Hrows & Hframe).
    { eapply Forall_impl; [exact Hrange|]. intros k Hk.
      now rewrite length_insert_row. }
    { now apply width_insert. }
    exists m'. split; [exact Hset|]. split.
    { now rewrite Hlen', length_insert_row. }
    split; [exact Hw'|]. split.
    + intros k Hk.
      destruct (decide (k ∈ inds)) as [Hin|Hnotin]; [exact (Hrows k Hin)|].
      apply elem_of_cons in Hk as [->|Hk]; [|contradiction].
      rewrite Hframe; [now apply row_insert_eq|].
      apply Forall_forall. intros j Hj Heq.
      assert (j = n) by lia. subst j. contradiction.
    + intros k Hk. apply Forall_cons in Hk as [Hnk Hk].
      rewrite (Hframe k Hk). apply row_insert_ne; lia.
Qed.

(** X18: [__setitem__] with one row of coefficients.  For indices that
    name rows of the coefficient matrix (an index may come twice), and a
    row of the width of the matrix, the matrix it passes to the setter
    has the shape of the old one, has the given row at every index named
    and the old rows elsewhere. *)
Theorem setitem_vector_spec (off : Z) (ncol : nat) (inds : list Z)
    (y : Matrix T) (coeff : list T) :
  Forall (fun n => 0 <= n - off < Z.of_nat (length y)) inds ->
  width ncol y -> length coeff = ncol ->
  exists y',
    pybind.setitem_vector off inds y coeff = Return y' tt /\
    length y' = length y /\ width ncol y' /\
    (forall n, n ∈ inds -> pybind.row y' (n - off) = Some coeff) /\
    (forall k, Forall (fun n => n - off <> k) inds ->
       pybind.row y' k = pybind.row y k).
Proof.
  intros Hrange Hwy Hc.
  destruct (set_rows_same_spec off ncol inds y coeff Hrange Hwy Hc)
    as (y' & Hset & Hrest).
  exists y'. unfold pybind.setitem_vector. rewrite Hset.
  split; [reflexivity | exact Hrest].
Qed.
End PyItems.

(** Witness of [setitem_matrix_getitem]: the rows 2 and 0 of a map of
    three coefficients and two columns. *)
Lemma setitem_matrix_getitem_witness :
  exists y',
    pybind.setitem_matrix 0 [2; 0] y32 [[7; 8]; [9; 10]]%float
      = Return y' tt /\
    length y' = length y32 /\ width 2 y' /\
    pybind.get_rows 0 2 [2; 0] y' = Some [[7; 8]; [9; 10]]%float /\
    (length [2; 0] <> 1%nat ->
     pybind.getitem 0 false 2 [2; 0] y'
       = Return (pybind.py_matrix [[7; 8]; [9; 10]]%float) tt) /\
    (forall k, Forall (fun n => n - 0 <> k) [2; 0] ->
       pybind.row y' k = pybind.row y32 k).
Proof.
  apply (proj2 (setitem_matrix_getitem 0 2 false [2; 0] y32
                  [[7; 8]; [9; 10]]%float)).
  - reflexivity.
  - apply (bool_decide_unpack _). vm_compute. exact I.
  - repeat constructor; simpl; lia.
  - repeat constructor.
  - repeat constructor.
Defined.

(** Witness of [setitem_scalar_spec]: the limb darkening rows 1 and 3,
    the first of them twice. *)
Lemma setitem_scalar_spec_witness :
  exists y',
    pybind.setitem_scalar 1 [1; 3; 1] y32 0%float = Return y' tt /\
    length y' = length y32 /\
    (forall n, n ∈ [1; 3; 1] ->
       exists old, pybind.row y32 (n - 1) = Some old /\
                   pybind.row y' (n - 1)
                     = Some (replicate (length old) 0%float)) /\
    (forall k, Forall (fun n => n - 1 <> k) [1; 3; 1] ->
       pybind.row y' k = pybind.row y32 k).
Proof.
  apply (setitem_scalar_spec 1 [1; 3; 1] y32 0%float).
  repeat constructor; simpl; lia.
Defined.

(** Witness of [setitem_vector_spec]: the rows 0 and 1, and a row of two
    entries. *)
Lemma setitem_vector_spec_witness :
  exists y',
    pybind.setitem_vector 0 [0; 1] y32 [7; 8]%float = Return y' tt /\
    length y' = length y32 /\ width 2 y' /\
    (forall n, n ∈ [0; 1] -> pybind.row y' (n - 0) = Some [7; 8]%float) /\
    (forall k, Forall (fun n => n - 0 <> k) [0; 1] ->
       pybind.row y' k = pybind.row y32 k).
Proof.
  apply (setitem_vector_spec 0 2 [0; 1] y32 [7; 8]%float).
  - repeat constructor; simpl; lia.
  - repeat constructor.
  - reflexivity.
Defined.

(** * The intensity *)

Lemma fold_left_Rplus (l : list Rdefinitions.R) (a : Rdefinitions.R) :
  fold_left Rplus l a = (a + exact_sum l)%R.
Proof.
  revert a. induction l as [|x l IH]; intros a; unfold exact_sum; simpl.
  - ring.
  - rewrite IH. unfold exact_sum. ring.
Qed.

Lemma dot_exact (a b : list Rdefinitions.R) : dot a b = exact_dot a b.
Proof.
  unfold dot, exact_dot.
  change (fold_left Rplus (zip_with Rmult a b) 0%R
          = exact_sum (zip_with Rmult a b)).
  rewrite fold_left_Rplus. ring.
Qed.

Lemma mat_vec_exact (A : Matrix Rdefinitions.R) (v : list Rdefinitions.R) :
  mat_vec A v = exact_mat_vec A v.
Proof.
  unfold mat_vec, exact_mat_vec. apply map_ext. intros row.
  apply dot_exact.
Qed.

Lemma apply_blocks_exact (blocks : list (Matrix Rdefinitions.R))
    (lmax0 : Z) (v : list Rdefinitions.R) :
  apply_blocks blocks lmax0 v = exact_rotated blocks lmax0 v.
Proof.
  unfold apply_blocks, exact_rotated.
  induction (seqZ 0 (lmax0 + 1)) as [|l ls IH]; [reflexivity|].
  cbn [mbind list_bind]. rewrite IH. f_equal.
  rewrite mat_vec_exact. reflexivity.
Qed.

(** The flat index knows its degree: it is the integer square root. *)
Lemma flat_index_sqrt (l m : Z) :
  0 <= l -> - l <= m <= l -> Z.sqrt (l * l + l + m) = l.
Proof. intros Hl Hm. apply Z.sqrt_unique. nia. Qed.

Lemma poly_values_exact (C : Cmath Rdefinitions.R) (lmax0 : Z)
    (x y : Rdefinitions.R) :
  pow_exact C -> -1 <= lmax0 ->
  poly_values lmax0 x y = exact_basis lmax0 x y.
Proof.
  intros Hpow Hl. pose proof (length_lm_pairs lmax0 Hl) as Hlen.
  apply list_eq. intros i. unfold poly_values, exact_basis.
  rewrite !list_lookup_fmap.
  destruct (lm_pairs lmax0 !! i) as [[l m]|] eqn:Hi.
  - assert (Hlt : (i < length (lm_pairs lmax0))%nat)
      by (now apply lookup_lt_Some in Hi).
    rewrite lookup_seqZ_lt by lia. cbn [fmap option_fmap option_map fst snd].
    f_equal.
    replace lmax0 with (Z.of_nat (Z.to_nat (lmax0 + 1)) - 1) in Hi by lia.
    apply lm_pairs_lookup_inv_nat in Hi as (Hl' & Hm' & Hn).
    rewrite (poly_term_monomial C x y _ l m Hpow) by lia.
    unfold exact_basis_entry. replace (0 + Z.of_nat i) with (l * l + l + m)
      by lia.
    rewrite flat_index_sqrt by lia. cbv zeta.
    replace (l * l + l + m - l * l - l) with m by lia.
    pose proof (Zmod_even (l + m)) as Hnu.
    pose proof (Zmod_even (l - m)) as Hmu.
    assert (Hpar : Z.even (l - m) = Z.even (l + m)).
    { replace (l - m) with (l + m + 2 * (- m)) by lia.
      now rewrite Z.even_add_mul_2. }
    rewrite Hpar in Hmu.
    destruct (Z.even (l + m)).
    + ring.
    + replace ((l - m - 1) / 2) with ((l - m) / 2)
        by (Z.to_euclidean_division_equations; lia).
      replace ((l + m - 1) / 2) with ((l + m) / 2)
        by (Z.to_euclidean_division_equations; lia).
      reflexivity.
  - apply lookup_ge_None in Hi. cbn [fmap option_fmap option_map].
    rewrite (proj2 (lookup_ge_None _ _)); [reflexivity|].
    rewrite length_seqZ. lia.
Qed.

Lemma viewed_exact (C : Cmath Rdefinitions.R)
    (L : rotation.Lib Rdefinitions.R) (s : Map Rdefinitions.R)
    (theta : Rdefinitions.R) :
  rotation.shape_ok ->
  -1 <= lmax s ->
  Z.of_nat (length (y s)) = (lmax s + 1) * (lmax s + 1) ->
  Z.of_nat (length (tmp_vec s)) = (lmax s + 1) * (lmax s + 1) ->
  viewed s theta = exact_viewed C L s theta.
Proof.
  intros Hrot Hl Hy Htmp. unfold viewed, exact_viewed, radians.
  cbn [s_eqb s_mul s_div s_of_Z real.real_Scalar]. cbv zeta.
  destruct (Req_dec_T (theta * (c_pi / 180)) 0) as [Hz|Hnz]; [reflexivity|].
  unfold rotation.rotate. cbn [snd].
  pose proof (shape_ok_blocks (lmax s) (axis s)
                (c_cos (theta * (c_pi / 180))%R)
                (c_sin (theta * (c_pi / 180))%R) (W s) Hrot) as Hblocks.
  rewrite (proj1 (rotation_ignores_buffer_aux _ (lmax s) (y s) (tmp_vec s)
                    Hl Hblocks Hy Htmp)).
  now rewrite apply_blocks_exact, mat_vec_exact.
Qed.

Lemma real_inside_disk (x y : Rdefinitions.R) :
  (x * x + y * y <= 1)%R -> outside_disk x y = false.
Proof.
  intros Hin. unfold outside_disk, s_gtb.
  cbn [s_ltb s_add s_mul s_of_Z real.real_Scalar].
  destruct (Rlt_dec 1 (x * x + y * y)) as [Hlt|_]; [lra | reflexivity].
Qed.

Section IntensityValue.
Context {T : Type} `{Scalar T} `{Cmath T} `{rotation.Lib T}.

(** What [evaluate] without the gradient returns, in the arithmetic of
    [T], on a map whose scratch vector has its entries. *)
Lemma evaluate_value (s : Map T) (theta x0 y0 : T) :
  -1 <= lmax s ->
  Z.of_nat (length (tmp_col_vec s)) = (lmax s + 1) * (lmax s + 1) ->
  exists s',
    evaluate s theta x0 y0 false =
      Return (if outside_disk x0 y0 then c_NAN
              else dot (poly_values (lmax s) x0 y0) (viewed s theta)) s'.
Proof.
  intros Hl Hlen. destruct (evaluate_plain s theta x0 y0) as (s' & Hev & _).
  exists s'. rewrite Hev.
  now rewrite (poly_basis_fills (lmax s) x0 y0 (tmp_col_vec s) Hl Hlen).
Qed.

(** Outside the disk the gradient variant returns the sentinel too. *)
Lemma evaluate_gradient_outside (s : Map T) (theta x0 y0 : T) :
  s_is_Multi (T := T) = false ->
  outside_disk x0 y0 = true ->
  exists s', evaluate s theta x0 y0 true = Return c_NAN s'.
Proof.
  intros Hmulti Hout. unfold evaluate, evaluate_with_gradient.
  rewrite Hmulti. unfold evaluate_with_gradient_generic.
  rewrite Hout. eauto.
Qed.
End IntensityValue.

(** C5: what [evaluate(theta, x0, y0)] returns, on a map whose scratch
    vectors have their [(lmax + 1)^2] entries.  In every scalar type the
    call returns: the sentinel [NAN] when the test
    [x0*x0 + y0*y0 > 1.0] holds (the gradient variant returns the same
    sentinel), and otherwise the dot product of the polynomial basis at
    the point with the polynomial coefficients of the rotated map, as
    the operations of the scalar type compute it.  In exact arithmetic,
    for every point with [x0*x0 + y0*y0 <= 1], that value is the sum
    over the flat indices [n] of the monomial of index [n] at the point
    times the [n]-th polynomial coefficient of the map rotated by
    [theta]. *)
Theorem evaluate_outside_disk_is_NaN :
  (forall (T : Type) (ST : Scalar T) (CT : Cmath T) (LT : rotation.Lib T)
          (s : Map T) (theta x0 y0 : T),
     -1 <= lmax s ->
     Z.of_nat (length (tmp_col_vec s)) = (lmax s + 1) * (lmax s + 1) ->
     (exists s',
        evaluate s theta x0 y0 false =
          Return (if s_gtb (s_add (s_mul x0 x0) (s_mul y0 y0)) (s_of_Z 1)
                  then c_NAN
                  else dot (poly_values (lmax s) x0 y0) (viewed s theta))
            s') /\
     (s_is_Multi (T := T) = false ->
      s_gtb (s_add (s_mul x0 x0) (s_mul y0 y0)) (s_of_Z 1) = true ->
      exists s', evaluate s theta x0 y0 true = Return c_NAN s')) /\
  (forall (C : Cmath Rdefinitions.R) (L : rotation.Lib Rdefinitions.R)
          (s : Map Rdefinitions.R) (theta x0 y0 : Rdefinitions.R),
     pow_exact C -> rotation.shape_ok ->
     -1 <= lmax s ->
     Z.of_nat (length (tmp_col_vec s)) = (lmax s + 1) * (lmax s + 1) ->
     Z.of_nat (length (tmp_vec s)) = (lmax s + 1) * (lmax s + 1) ->
     Z.of_nat (length (y s)) = (lmax s + 1) * (lmax s + 1) ->
     (x0 * x0 + y0 * y0 <= 1)%R ->
     exists s',
       evaluate s theta x0 y0 false =
         Return (exact_intensity C L s theta x0 y0) s').
Proof.
  split.
  - intros T ST CT LT s theta x0 y0 Hl Hlen. split.
    + exact (evaluate_value s theta x0 y0 Hl Hlen).
    + intros Hmulti Hout.
      exact (evaluate_gradient_outside s theta x0 y0 Hmulti Hout).
  - intros C L s theta x0 y0 Hpow Hrot Hl Hcol Htmp Hy Hin.
    destruct (evaluate_value s theta x0 y0 Hl Hcol) as [s' Hev].
    exists s'. rewrite Hev, (real_inside_disk x0 y0 Hin).
    rewrite (poly_values_exact C (lmax s) x0 y0 Hpow Hl).
    rewrite (viewed_exact C L s theta Hrot Hl Hy Htmp).
    now rewrite dot_exact.
Qed.

Lemma exact_identity_rotation_shape_ok :
  rotation.shape_ok (T := Rdefinitions.R) (H := exact_identity_rotation).
Proof.
  intros lmax0 a c sn w l Hl. simpl. unfold exact_blocks.
  exists (exact_identity (Z.to_nat (2 * l + 1))). split.
  - rewrite list_lookup_fmap, lookup_seqZ_lt by lia. simpl.
    do 2 f_equal. lia.
  - unfold exact_identity. rewrite length_map, length_seq. lia.
Qed.

(** The intensity of the spec for the map of coefficients 1, 2, 3, 4 at
    the point [(3/5, 0)], where [z = 4/5]: [1 + 2 * 3/5 + 3 * 4/5]. *)
Lemma exact_intensity_real_map1 (theta : Rdefinitions.R) :
  exact_intensity exact_Cmath exact_identity_rotation real_map1 theta
    (3 / 5) 0 = (23 / 5)%R.
Proof.
  unfold exact_intensity, exact_viewed. cbv zeta.
  destruct (Req_dec_T (theta * (c_pi / 180)) 0) as [_|_];
    unfold exact_dot, exact_basis, exact_basis_entry, exact_mat_vec,
      exact_rotated, exact_dot;
    cbv -[Rplus Rmult Rminus Rdiv Rinv Ropp IZR pow R_sqrt.sqrt
          Rtrigo_def.cos Rtrigo_def.sin PI];
    replace (1 - 3 / 5 * (3 / 5) - 0 * 0)%R with ((4 / 5) * (4 / 5))%R
      by lra;
    rewrite R_sqrt.sqrt_square by lra; simpl; lra.
Qed.

(** Witness of [evaluate_outside_disk_is_NaN]: on [Map(1)] with the
    coefficients 1, 2, 3, 4, the point [(2, 0)] is outside the disk; at
    the point [(0.5, 0.25)] inside it the value is
    [1 + 2 * 0.5 + 3 * sqrt(0.6875) + 4 * 0.25] in binary64, at the angle
    zero and, the stand-in rotation being the identity, at 90 degrees;
    over the reals, the same coefficients at the point [(3/5, 0)] give
    [23/5] at both angles. *)
Lemma evaluate_outside_disk_is_NaN_witness :
  (exists s', evaluate example.map1_1234 0%float 2%float 0%float false
              = Return PrimFloat.nan s') /\
  (exists s', evaluate example.map1_1234 0%float 2%float 0%float true
              = Return PrimFloat.nan s') /\
  (exists s', evaluate example.map1_1234 0%float 0.5%float 0.25%float false
              = Return 0x1.5f32af77f09b4p+2%float s') /\
  (exists s', evaluate example.map1_1234 90%float 0.5%float 0.25%float false
              = Return 0x1.5f32af77f09b4p+2%float s') /\
  (exists s', evaluate (H0 := exact_Cmath) (H2 := exact_identity_rotation)
                real_map1 0%R (3 / 5)%R 0%R false
              = Return (23 / 5)%R s') /\
  (exists s', evaluate (H0 := exact_Cmath) (H2 := exact_identity_rotation)
                real_map1 90%R (3 / 5)%R 0%R false
              = Return (23 / 5)%R s').
Proof.
  assert (Hl : -1 <= lmax example.map1_1234) by (simpl; lia).
  assert (Hn : Z.of_nat (length (tmp_col_vec example.map1_1234))
               = (lmax example.map1_1234 + 1) * (lmax example.map1_1234 + 1))
    by reflexivity.
  assert (Hpow : pow_exact exact_Cmath) by (intros a k Hk; reflexivity).
  assert (Hreal : forall theta : Rdefinitions.R,
            exists s', evaluate (H0 := exact_Cmath)
                         (H2 := exact_identity_rotation)
                         real_map1 theta (3 / 5)%R 0%R false
                       = Return (23 / 5)%R s').
  { intros theta.
    destruct (proj2 evaluate_outside_disk_is_NaN exact_Cmath
                exact_identity_rotation real_map1 theta (3 / 5)%R 0%R
                Hpow exact_identity_rotation_shape_ok)
      as [s' Hs']; [simpl; lia | reflexivity | reflexivity | reflexivity
                   | lra |].
    exists s'. rewrite Hs'. now rewrite exact_intensity_real_map1. }
  split; [|split; [|split; [|split; [|split]]]].
  - exact (proj1 (proj1 evaluate_outside_disk_is_NaN float _ _ _
                    example.map1_1234 0%float 2%float 0%float Hl Hn)).
  - exact (proj2 (proj1 evaluate_outside_disk_is_NaN float _ _ _
                    example.map1_1234 0%float 2%float 0%float Hl Hn)
             eq_refl eq_refl).
  - exact (proj1 (proj1 evaluate_outside_disk_is_NaN float _ _ _
                    example.map1_1234 0%float 0.5%float 0.25%float Hl Hn)).
  - exact (proj1 (proj1 evaluate_outside_disk_is_NaN float _ _ _
                    example.map1_1234 90%float 0.5%float 0.25%float Hl Hn)).
  - exact (Hreal 0%R).
  - exact (Hreal 90%R).
Defined.
